(** * espeakup: the command queue of [queue.c]

    A model of the linked queue that carries speech commands from the
    softsynth reader to the espeak thread, of the dispatch of one entry
    ([queue_process_entry]), of the stop hand-shake ([stop_runner]) and of
    the espeak thread itself ([espeak_thread]).

    The C globals live in one record, [world]; pointers are [option addr]
    with [None] for [NULL]; the heap of queue entries is a finite map.
    Undefined behaviour (a read through a dangling pointer, a double
    [free]) and a failed [assert] are outcomes of their own.

    The queue functions are plain functions on [world]. The two threads
    are step functions over the lines of [queue.c] ([runner_step],
    [producer_step]); a state of the program is the world with the locals
    of both threads, and [step] interleaves them. Every step logs what it
    does in the trace of the world.

    In [step] a wait on a condition returns on a signal only;
    [step_posix] adds the returns without a signal that POSIX allows. *)

From Stdlib Require Import ZArith Lia List String.
From stdpp Require Import base option list gmap finite.

#[local] Set Warnings "-clear-no-such-hyp".

Open Scope Z_scope.

(** ** Data *)

Definition addr := positive.
Definition ptr := option addr.
Abbreviation NULL := (@None addr).

(** Modelled from the spec: [enum command_t] is declared in [espeakup.h],
    which is not part of the sources at hand.  The seven kinds are the
    ones [queue_process_entry] switches on; [CMD_OTHER] stands for any
    further enumerator, which reaches the [default:] branch. *)
Inductive command_t :=
  | CMD_SET_FREQUENCY
  | CMD_SET_PITCH
  | CMD_SET_PUNCTUATION
  | CMD_SET_RATE
  | CMD_SET_VOICE
  | CMD_SET_VOLUME
  | CMD_SPEAK_TEXT
  | CMD_OTHER.

(** Modelled from the spec: [enum adjust_t] ([espeakup.h]); the source
    names [ADJ_SET], the spec speaks of absolute-set and relative-adjust. *)
Inductive adjust_t := ADJ_DEC | ADJ_SET | ADJ_INC.

(** Modelled from the spec: [struct queue_entry_t] ([espeakup.h]), with the
    fields that [queue.c] reads and writes. *)
Record queue_entry_t := Entry {
  cmd : command_t;
  adjust : adjust_t;
  value : Z;
  buf : ptr;
  len : Z;
  next : ptr
}.

Definition with_next (n : ptr) (e : queue_entry_t) : queue_entry_t :=
  Entry (cmd e) (adjust e) (value e) (buf e) (len e) n.

#[global] Instance command_eq_dec : EqDecision command_t.
Proof. solve_decision. Defined.

(** The two threads of the program that touch the queue: the espeak
    thread ([espeak_thread], the runner) and the thread that reads the
    softsynth device and calls [queue_add] and [stop_runner]. *)
Inductive tid := Runner | Producer.

#[global] Instance tid_eq_dec : EqDecision tid.
Proof. solve_decision. Defined.

Inductive mutex := Queue_guard | Stop_guard.
Inductive condvar := Runner_awake | Stop_acknowledged.

(** Calls into the collaborators: espeak, the audio output and stderr. *)
Inductive engine_call :=
  | select_audio_mode
  | espeak_Initialize
  | fprintf_stderr
  | init_audio (rate : Z)
  | set_voice (v : string)
  | set_frequency (v : Z) (a : adjust_t)
  | set_pitch (v : Z) (a : adjust_t)
  | set_punctuation (v : Z) (a : adjust_t)
  | set_rate (v : Z) (a : adjust_t)
  | set_volume (v : Z) (a : adjust_t)
  | speak_text (b : ptr) (l : Z)
  | espeak_SetParameter_CAPITALS
  | stop_speech
  | espeak_Terminate.

(** What a run leaves behind, newest event first. *)
Inductive event :=
  | EvCall (c : engine_call)
  | EvLock (m : mutex) (t : tid)
  | EvUnlock (m : mutex) (t : tid)
  | EvWait (c : condvar) (t : tid)
  | EvSignal (c : condvar) (t : tid)
  | EvFreeBuf (b : addr)
  | EvFreeEntry (a : addr)
  | EvFreeVoice
  | EvEnqueue (a : addr)
  | EvDispatch (a : addr)
  | EvQueueClear
  | EvMustStop (v : Z)
  | EvStopReturn.

(** The globals of [queue.c] (and [should_run] of [espeakup.c]), the heap
    they point into, the pthread objects and the trace. A mutex holds its
    owner; a condition variable holds the thread blocked on it. *)
Record world := World {
  heap : gmap addr queue_entry_t;
  bufs : gset addr;
  first : ptr;
  last : ptr;
  runner_must_stop : Z;
  should_run : Z;
  defaultVoice : option string;
  queue_guard : option tid;
  stop_guard : option tid;
  runner_awake : option tid;
  stop_acknowledged : option tid;
  trace : list event
}.

Definition set_heap (h : gmap addr queue_entry_t) (w : world) : world :=
  World h (bufs w) (first w) (last w) (runner_must_stop w) (should_run w)
    (defaultVoice w) (queue_guard w) (stop_guard w) (runner_awake w)
    (stop_acknowledged w) (trace w).
Definition set_bufs (b : gset addr) (w : world) : world :=
  World (heap w) b (first w) (last w) (runner_must_stop w) (should_run w)
    (defaultVoice w) (queue_guard w) (stop_guard w) (runner_awake w)
    (stop_acknowledged w) (trace w).
Definition set_first (p : ptr) (w : world) : world :=
  World (heap w) (bufs w) p (last w) (runner_must_stop w) (should_run w)
    (defaultVoice w) (queue_guard w) (stop_guard w) (runner_awake w)
    (stop_acknowledged w) (trace w).
Definition set_last (p : ptr) (w : world) : world :=
  World (heap w) (bufs w) (first w) p (runner_must_stop w) (should_run w)
    (defaultVoice w) (queue_guard w) (stop_guard w) (runner_awake w)
    (stop_acknowledged w) (trace w).
Definition set_runner_must_stop (v : Z) (w : world) : world :=
  World (heap w) (bufs w) (first w) (last w) v (should_run w)
    (defaultVoice w) (queue_guard w) (stop_guard w) (runner_awake w)
    (stop_acknowledged w) (trace w).
Definition set_should_run (v : Z) (w : world) : world :=
  World (heap w) (bufs w) (first w) (last w) (runner_must_stop w) v
    (defaultVoice w) (queue_guard w) (stop_guard w) (runner_awake w)
    (stop_acknowledged w) (trace w).
Definition set_defaultVoice (v : option string) (w : world) : world :=
  World (heap w) (bufs w) (first w) (last w) (runner_must_stop w) (should_run w)
    v (queue_guard w) (stop_guard w) (runner_awake w)
    (stop_acknowledged w) (trace w).
Definition set_queue_guard (o : option tid) (w : world) : world :=
  World (heap w) (bufs w) (first w) (last w) (runner_must_stop w) (should_run w)
    (defaultVoice w) o (stop_guard w) (runner_awake w)
    (stop_acknowledged w) (trace w).
Definition set_stop_guard (o : option tid) (w : world) : world :=
  World (heap w) (bufs w) (first w) (last w) (runner_must_stop w) (should_run w)
    (defaultVoice w) (queue_guard w) o (runner_awake w)
    (stop_acknowledged w) (trace w).
Definition set_runner_awake (o : option tid) (w : world) : world :=
  World (heap w) (bufs w) (first w) (last w) (runner_must_stop w) (should_run w)
    (defaultVoice w) (queue_guard w) (stop_guard w) o
    (stop_acknowledged w) (trace w).
Definition set_stop_acknowledged (o : option tid) (w : world) : world :=
  World (heap w) (bufs w) (first w) (last w) (runner_must_stop w) (should_run w)
    (defaultVoice w) (queue_guard w) (stop_guard w) (runner_awake w)
    o (trace w).
Definition log (e : event) (w : world) : world :=
  World (heap w) (bufs w) (first w) (last w) (runner_must_stop w) (should_run w)
    (defaultVoice w) (queue_guard w) (stop_guard w) (runner_awake w)
    (stop_acknowledged w) (e :: trace w).

(** ** Outcomes of sequential code *)

Inductive res (A : Type) :=
  | Done (a : A)       (* returned normally *)
  | AssertFail         (* [assert] failed: the process aborts *)
  | Undefined          (* undefined behaviour *)
  | Diverge.           (* the loop did not finish within its fuel *)
Arguments Done {A} a.
Arguments AssertFail {A}.
Arguments Undefined {A}.
Arguments Diverge {A}.

#[global] Instance res_ret : MRet res := fun A a => Done a.
#[global] Instance res_bind : MBind res := fun A B k m =>
  match m with
  | Done a => k a
  | AssertFail => AssertFail
  | Undefined => Undefined
  | Diverge => Diverge
  end.

(** ** The heap *)

(** [p->field], for a pointer to a queue entry. *)
Definition load (p : ptr) (w : world) : res queue_entry_t :=
  match p with
  | None => Undefined
  | Some a =>
      match heap w !! a with
      | Some e => Done e
      | None => Undefined
      end
  end.

(** [p->next = n]. *)
Definition store_next (p : ptr) (n : ptr) (w : world) : res world :=
  match p with
  | None => Undefined
  | Some a =>
      match heap w !! a with
      | Some e => Done (set_heap (<[a := with_next n e]> (heap w)) w)
      | None => Undefined
      end
  end.

(** [free(b)] for a text buffer; [free(NULL)] does nothing. *)
Definition free_buf (b : ptr) (w : world) : res world :=
  match b with
  | None => Done w
  | Some a =>
      if decide (a ∈ bufs w)
      then Done (log (EvFreeBuf a) (set_bufs (bufs w ∖ {[a]}) w))
      else Undefined
  end.

(** [free(p)] for a queue entry. *)
Definition free_node (p : ptr) (w : world) : res world :=
  match p with
  | None => Done w
  | Some a =>
      match heap w !! a with
      | Some _ => Done (log (EvFreeEntry a) (set_heap (delete a (heap w)) w))
      | None => Undefined
      end
  end.

(** ** The queue: [queue_add], [free_entry], [queue_remove], [queue_clear]

    In the source [last] points at the oldest entry, the one the runner
    takes next, and [first] at the newest, where [queue_add] appends. *)

(** [queue_add], lines 47 to 56: the section under [queue_guard]. Taking
    and releasing the mutex and the signal to [runner_awake] are steps of
    the calling thread (see [producer_step]). *)
Definition queue_add (entry : ptr) (w : world) : res world :=
  match entry with
  | None => AssertFail
  | Some _ =>
      w ← store_next entry NULL w;
      let w := match last w with
               | None => set_last entry w
               | Some _ => w
               end in
      match first w with
      | None => Done (set_first entry w)
      | Some _ =>
          w ← store_next (first w) entry w;
          f ← load (first w) w;
          Done (set_first (next f) w)
      end
  end.

Definition free_entry (entry : ptr) (w : world) : res world :=
  e ← load entry w;
  w ← match cmd e with
      | CMD_SPEAK_TEXT => free_buf (buf e) w
      | _ => Done w
      end;
  free_node entry w.

Definition queue_remove (w : world) : res world :=
  match last w with
  | Some _ =>
      let temp := last w in
      t ← load temp w;
      let w := set_last (next t) w in
      let w := match last w with
               | None => set_first (last w) w
               | Some _ => w
               end in
      free_entry temp w
  | None => Done w
  end.

Fixpoint queue_clear_loop (fuel : nat) (w : world) : res world :=
  match last w with
  | None => Done w
  | Some _ =>
      match fuel with
      | O => Diverge
      | S fuel =>
          _ ← load (last w) w;       (* temp = last->next *)
          w ← queue_remove w;
          queue_clear_loop fuel w
      end
  end.

(** Every turn of the loop frees one entry, so the number of live entries
    is fuel enough. *)
Definition queue_clear (w : world) : res world :=
  queue_clear_loop (size (heap w)) w.

(** ** The queue as a list of addresses

    [lseg h p l]: following [next] from [p] in [h] visits exactly the
    entries of [l] and ends at [NULL]. *)
Fixpoint lseg (h : gmap addr queue_entry_t) (p : ptr) (l : list addr) : Prop :=
  match l with
  | [] => p = None
  | a :: l' =>
      p = Some a ∧
      match h !! a with
      | Some e => lseg h (next e) l'
      | None => False
      end
  end.

(** The newest entry of the list, as a pointer. *)
Fixpoint back (l : list addr) : ptr :=
  match l with
  | [] => None
  | [a] => Some a
  | _ :: l' => back l'
  end.

(** The text buffer an entry owns: [free_entry] frees [buf] for
    [CMD_SPEAK_TEXT] only. *)
Definition entry_bufs (e : queue_entry_t) : list addr :=
  match cmd e, buf e with
  | CMD_SPEAK_TEXT, Some b => [b]
  | _, _ => []
  end.

Definition owned (h : gmap addr queue_entry_t) (a : addr) : list addr :=
  from_option entry_bufs [] (h !! a).

Definition owned_bufs (h : gmap addr queue_entry_t) (l : list addr) : list addr :=
  l ≫= owned h.

(** [is_queue w l]: the queue of [w] holds the entries at [l], oldest
    first; they are distinct, and their text buffers are live and not
    shared. *)
Record is_queue (w : world) (l : list addr) : Prop := IsQueue {
  iq_seg : lseg (heap w) (last w) l;
  iq_first : first w = back l;
  iq_nodup : NoDup l;
  iq_bufs_nodup : NoDup (owned_bufs (heap w) l);
  iq_bufs_live : Forall (λ b, b ∈ bufs w) (owned_bufs (heap w) l)
}.

(** An entry that may be handed to [queue_add]: allocated, not in the
    queue, its text buffer (if it owns one) live and owned by no queued
    entry. *)
Definition valid_entry (w : world) (l : list addr) (a : addr) : Prop :=
  (a ∉ l) ∧
  (match heap w !! a with
   | Some e => Forall (λ b, b ∈ bufs w ∧ b ∉ owned_bufs (heap w) l) (entry_bufs e)
   | None => False
   end).

(** The frees that releasing the entries of [l] makes, in time order. *)
Definition release_log (h : gmap addr queue_entry_t) (l : list addr) : list event :=
  l ≫= (λ a, (EvFreeBuf <$> owned h a) ++ [EvFreeEntry a]).

(** Everything of the world that is not queue memory. *)
Definition same_sync (w w' : world) : Prop :=
  runner_must_stop w' = runner_must_stop w ∧
  should_run w' = should_run w ∧
  defaultVoice w' = defaultVoice w ∧
  queue_guard w' = queue_guard w ∧
  stop_guard w' = stop_guard w ∧
  runner_awake w' = runner_awake w ∧
  stop_acknowledged w' = stop_acknowledged w.

(** ** pthread mutexes and condition variables *)

Definition owner (m : mutex) (w : world) : option tid :=
  match m with
  | Queue_guard => queue_guard w
  | Stop_guard => stop_guard w
  end.

Definition set_owner (m : mutex) (o : option tid) (w : world) : world :=
  match m with
  | Queue_guard => set_queue_guard o w
  | Stop_guard => set_stop_guard o w
  end.

Definition waiter (c : condvar) (w : world) : option tid :=
  match c with
  | Runner_awake => runner_awake w
  | Stop_acknowledged => stop_acknowledged w
  end.

Definition set_waiter (c : condvar) (o : option tid) (w : world) : world :=
  match c with
  | Runner_awake => set_runner_awake o w
  | Stop_acknowledged => set_stop_acknowledged o w
  end.

(** [pthread_mutex_lock]: [None] while another thread holds the mutex (the
    caller stays where it is). *)
Definition mutex_lock (m : mutex) (t : tid) (w : world) : option world :=
  match owner m w with
  | None => Some (log (EvLock m t) (set_owner m (Some t) w))
  | Some _ => None
  end.

(** [pthread_mutex_unlock]; unlocking a mutex one does not hold is
    undefined. *)
Definition mutex_unlock (m : mutex) (t : tid) (w : world) : res world :=
  if decide (owner m w = Some t)
  then Done (log (EvUnlock m t) (set_owner m None w))
  else Undefined.

(** [pthread_cond_wait], first half: release the mutex and block on the
    condition, in one step. *)
Definition cond_wait (c : condvar) (m : mutex) (t : tid) (w : world) : res world :=
  if decide (owner m w = Some t)
  then Done (log (EvWait c t) (set_waiter c (Some t) (set_owner m None w)))
  else Undefined.

(** [pthread_cond_wait], second half: once signalled, take the mutex again
    and return. Here a wait returns only after a signal, as the spec
    reads it ("blocks on an acknowledgment condition until the runner
    signals it"). POSIX lets a wait return without one; such a return
    is a step of its own, [spurious_wakeup] below, which [step] and
    [reachable] leave out and [step_posix] and [reachable_posix] take
    in. *)
Definition cond_wake (c : condvar) (m : mutex) (t : tid) (w : world) : option world :=
  if decide (waiter c w = Some t) then None
  else match owner m w with
       | None => Some (set_owner m (Some t) w)
       | Some _ => None
       end.

(** [pthread_cond_signal]: wakes the thread blocked on the condition, if
    there is one; otherwise the signal is lost. *)
Definition cond_signal (c : condvar) (t : tid) (w : world) : world :=
  log (EvSignal c t) (set_waiter c None w).

(** ** The espeak thread: [espeak_thread] and [queue_process_entry] *)

Definition defaultFrequency : Z := 5.
Definition defaultPitch : Z := 5.
Definition defaultRate : Z := 5.
Definition defaultVolume : Z := 5.

(** [EE_OK] of espeak's [speak_lib.h]. *)
Definition EE_OK : Z := 0.

(** [(unsigned int) rate] for a 32-bit [int]. *)
Definition to_unsigned (rate : Z) : Z := rate mod 2 ^ 32.

(** Where the runner stands, by the line of [queue.c] it executes next. *)
Inductive rloc :=
  | L176   (* select_audio_mode() *)
  | L177   (* rate = espeak_Initialize(...) *)
  | L178   (* if (rate < 0) { fprintf(stderr, ...); should_run = 0; } *)
  | L183   (* if (init_audio((unsigned int) rate) < 0) should_run = 0 *)
  | L188   (* if (defaultVoice) { set_voice; free; defaultVoice = NULL } *)
  | L193   (* set_frequency(&s, defaultFrequency, ADJ_SET) *)
  | L194   (* set_pitch(&s, defaultPitch, ADJ_SET) *)
  | L195   (* set_rate(&s, defaultRate, ADJ_SET) *)
  | L196   (* set_volume(&s, defaultVolume, ADJ_SET) *)
  | L197   (* espeak_SetParameter(espeakCAPITALS, 0, 0) *)
  | L199   (* pthread_mutex_lock(&queue_guard) *)
  | L200   (* while (should_run) *)
  | L201   (* pthread_cond_wait(&runner_awake, &queue_guard): block *)
  | L201w  (* ... woken: re-lock queue_guard and return *)
  | L203   (* while (should_run && last && !runner_must_stop) *)
  | L98    (* queue_process_entry: current = last; unlock queue_guard *)
  | L101   (* if (current) switch (current->cmd) ... *)
  | L129   (* pthread_mutex_lock(&queue_guard) *)
  | L130   (* if (error == EE_OK) queue_remove() *)
  | L132   (* pthread_mutex_unlock(&queue_guard); return *)
  | L205   (* pthread_mutex_lock(&queue_guard) *)
  | L208   (* if (runner_must_stop) *)
  | L209   (* pthread_mutex_lock(&stop_guard) *)
  | L210   (* queue_clear() *)
  | L211   (* stop_speech() *)
  | L212   (* runner_must_stop = 0 *)
  | L213   (* pthread_mutex_unlock(&stop_guard) *)
  | L214   (* pthread_cond_signal(&stop_acknowledged) *)
  | L218   (* espeak_Terminate() *)
  | L219.  (* return NULL *)

#[global] Instance rloc_eq_dec : EqDecision rloc.
Proof. solve_decision. Defined.

(** The locals of [espeak_thread] and of [queue_process_entry]. *)
Record runner := MkRunner {
  rpc : rloc;
  rate : Z;
  current : ptr;
  error : Z
}.

Definition at_loc (l : rloc) (r : runner) : runner :=
  MkRunner l (rate r) (current r) (error r).

(** One step of a thread: it moves, it cannot move now (a mutex is held,
    no signal has come, or it has returned), or it faults. *)
Inductive step_res (T : Type) :=
  | Stepped (t : T) (w : world)
  | Blocked
  | Fault.
Arguments Stepped {T} t w.
Arguments Blocked {T}.
Arguments Fault {T}.

Definition of_res {T} (t : T) (r : res world) : step_res T :=
  match r with
  | Done w => Stepped t w
  | _ => Fault
  end.

Definition of_option {T} (t : T) (o : option world) : step_res T :=
  match o with
  | Some w => Stepped t w
  | None => Blocked
  end.

(** The [switch] of [queue_process_entry] on one entry: the engine call it
    makes, if any. [CMD_SET_VOICE] and [default:] make none and leave
    [error] as it was. *)
Definition dispatch (e : queue_entry_t) : option engine_call :=
  match cmd e with
  | CMD_SET_FREQUENCY => Some (set_frequency (value e) (adjust e))
  | CMD_SET_PITCH => Some (set_pitch (value e) (adjust e))
  | CMD_SET_PUNCTUATION => Some (set_punctuation (value e) (adjust e))
  | CMD_SET_RATE => Some (set_rate (value e) (adjust e))
  | CMD_SET_VOICE => None
  | CMD_SET_VOLUME => Some (set_volume (value e) (adjust e))
  | CMD_SPEAK_TEXT => Some (speak_text (buf e) (len e))
  | CMD_OTHER => None
  end.

(** One step of the runner. [ret] is what the environment supplies at this
    step: the value the external call returns, and at [L98] the
    indeterminate value of the uninitialised local [error]. *)
Definition runner_step (ret : Z) (r : runner) (w : world) : step_res runner :=
  match rpc r with
  | L176 => Stepped (at_loc L177 r) (log (EvCall select_audio_mode) w)
  | L177 =>
      Stepped (MkRunner L178 ret (current r) (error r))
              (log (EvCall espeak_Initialize) w)
  | L178 =>
      if decide (rate r < 0)
      then Stepped (at_loc L183 r) (set_should_run 0 (log (EvCall fprintf_stderr) w))
      else Stepped (at_loc L183 r) w
  | L183 =>
      let w := log (EvCall (init_audio (to_unsigned (rate r)))) w in
      if decide (ret < 0)
      then Stepped (at_loc L188 r) (set_should_run 0 w)
      else Stepped (at_loc L188 r) w
  | L188 =>
      match defaultVoice w with
      | Some v =>
          Stepped (at_loc L193 r)
                  (set_defaultVoice None (log EvFreeVoice (log (EvCall (set_voice v)) w)))
      | None => Stepped (at_loc L193 r) w
      end
  | L193 =>
      Stepped (at_loc L194 r) (log (EvCall (set_frequency defaultFrequency ADJ_SET)) w)
  | L194 =>
      Stepped (at_loc L195 r) (log (EvCall (set_pitch defaultPitch ADJ_SET)) w)
  | L195 =>
      Stepped (at_loc L196 r) (log (EvCall (set_rate defaultRate ADJ_SET)) w)
  | L196 =>
      Stepped (at_loc L197 r) (log (EvCall (set_volume defaultVolume ADJ_SET)) w)
  | L197 =>
      Stepped (at_loc L199 r) (log (EvCall espeak_SetParameter_CAPITALS) w)
  | L199 => of_option (at_loc L200 r) (mutex_lock Queue_guard Runner w)
  | L200 =>
      if decide (should_run w ≠ 0)
      then Stepped (at_loc L201 r) w
      else Stepped (at_loc L218 r) w
  | L201 => of_res (at_loc L201w r) (cond_wait Runner_awake Queue_guard Runner w)
  | L201w => of_option (at_loc L203 r) (cond_wake Runner_awake Queue_guard Runner w)
  | L203 =>
      if decide (should_run w ≠ 0 ∧ last w ≠ None ∧ runner_must_stop w = 0)
      then Stepped (at_loc L98 r) w
      else Stepped (at_loc L208 r) w
  | L98 =>
      of_res (MkRunner L101 (rate r) (last w) ret)
             (mutex_unlock Queue_guard Runner w)
  | L101 =>
      match current r with
      | None => Stepped (at_loc L205 r) w
      | Some a =>
          match heap w !! a with
          | None => Fault
          | Some e =>
              match dispatch e with
              | Some c =>
                  Stepped (MkRunner L129 (rate r) (current r) ret)
                          (log (EvCall c) (log (EvDispatch a) w))
              | None =>
                  Stepped (at_loc L129 r) (log (EvDispatch a) w)
              end
          end
      end
  | L129 => of_option (at_loc L130 r) (mutex_lock Queue_guard Runner w)
  | L130 =>
      if decide (error r = EE_OK)
      then of_res (at_loc L132 r) (queue_remove w)
      else Stepped (at_loc L132 r) w
  | L132 => of_res (at_loc L205 r) (mutex_unlock Queue_guard Runner w)
  | L205 => of_option (at_loc L203 r) (mutex_lock Queue_guard Runner w)
  | L208 =>
      if decide (runner_must_stop w ≠ 0)
      then Stepped (at_loc L209 r) w
      else Stepped (at_loc L200 r) w
  | L209 => of_option (at_loc L210 r) (mutex_lock Stop_guard Runner w)
  | L210 => of_res (at_loc L211 r) (queue_clear (log EvQueueClear w))
  | L211 => Stepped (at_loc L212 r) (log (EvCall stop_speech) w)
  | L212 => Stepped (at_loc L213 r) (log (EvMustStop 0) (set_runner_must_stop 0 w))
  | L213 => of_res (at_loc L214 r) (mutex_unlock Stop_guard Runner w)
  | L214 => Stepped (at_loc L200 r) (cond_signal Stop_acknowledged Runner w)
  | L218 => Stepped (at_loc L219 r) (log (EvCall espeak_Terminate) w)
  | L219 => Blocked
  end.

(** The runner alone, one step for each value the environment supplies;
    [None] as soon as a step blocks or faults. *)
Fixpoint runner_run (rets : list Z) (r : runner) (w : world) : option (runner * world) :=
  match rets with
  | [] => Some (r, w)
  | ret :: rets =>
      match runner_step ret r w with
      | Stepped r' w' => runner_run rets r' w'
      | _ => None
      end
  end.

(** The lines the runner passes through on such a run. *)
Fixpoint runner_path (rets : list Z) (r : runner) (w : world) : list rloc :=
  rpc r ::
  match rets with
  | [] => []
  | ret :: rets =>
      match runner_step ret r w with
      | Stepped r' w' => runner_path rets r' w'
      | _ => []
      end
  end.

(** ** The producer: calls of [queue_add] and [stop_runner] *)

Inductive ploc :=
  | P_idle   (* between two calls *)
  | A46      (* queue_add: pthread_mutex_lock(&queue_guard) *)
  | A47      (* assert(entry); ... first = first->next *)
  | A57      (* pthread_mutex_unlock(&queue_guard) *)
  | A58      (* pthread_cond_signal(&runner_awake) *)
  | S141     (* stop_runner: pthread_mutex_lock(&stop_guard) *)
  | S142     (* pthread_mutex_lock(&queue_guard) *)
  | S143     (* runner_must_stop = 1 *)
  | S144     (* pthread_mutex_unlock(&queue_guard) *)
  | S145     (* pthread_cond_signal(&runner_awake) *)
  | S146     (* pthread_cond_wait(&stop_acknowledged, &stop_guard): block *)
  | S146w    (* ... woken: re-lock stop_guard and return *)
  | S147     (* pthread_mutex_unlock(&stop_guard) *)
  | S148.    (* stop_runner has returned *)

#[global] Instance ploc_eq_dec : EqDecision ploc.
Proof. solve_decision. Defined.

Record producer := MkProducer {
  ppc : ploc;
  entry : ptr       (* the argument of queue_add *)
}.

(** What the code around the queue does next when it is between calls. *)
Inductive call :=
  | CallAdd (a : addr) (e : queue_entry_t)
  | CallStop.

(** The caller of [queue_add] has allocated the entry, and the text buffer
    of a [CMD_SPEAK_TEXT] entry: [malloc] returns addresses that are not
    live. *)
Definition alloc_entry (a : addr) (e : queue_entry_t) (w : world) : option world :=
  if decide (heap w !! a = None ∧ Forall (λ b, b ∉ bufs w) (entry_bufs e))
  then Some (set_bufs (bufs w ∪ list_to_set (entry_bufs e))
               (set_heap (<[a := e]> (heap w)) w))
  else None.

Definition producer_step (c : call) (p : producer) (w : world) : step_res producer :=
  match ppc p with
  | P_idle =>
      match c with
      | CallAdd a e => of_option (MkProducer A46 (Some a)) (alloc_entry a e w)
      | CallStop => Stepped (MkProducer S141 (entry p)) w
      end
  | A46 => of_option (MkProducer A47 (entry p)) (mutex_lock Queue_guard Producer w)
  | A47 =>
      of_res (MkProducer A57 (entry p))
             (w ← queue_add (entry p) w;
              Done (match entry p with
                    | Some a => log (EvEnqueue a) w
                    | None => w
                    end))
  | A57 => of_res (MkProducer A58 (entry p)) (mutex_unlock Queue_guard Producer w)
  | A58 => Stepped (MkProducer P_idle (entry p)) (cond_signal Runner_awake Producer w)
  | S141 => of_option (MkProducer S142 (entry p)) (mutex_lock Stop_guard Producer w)
  | S142 => of_option (MkProducer S143 (entry p)) (mutex_lock Queue_guard Producer w)
  | S143 =>
      Stepped (MkProducer S144 (entry p))
              (log (EvMustStop 1) (set_runner_must_stop 1 w))
  | S144 => of_res (MkProducer S145 (entry p)) (mutex_unlock Queue_guard Producer w)
  | S145 => Stepped (MkProducer S146 (entry p)) (cond_signal Runner_awake Producer w)
  | S146 =>
      of_res (MkProducer S146w (entry p))
             (cond_wait Stop_acknowledged Stop_guard Producer w)
  | S146w =>
      of_option (MkProducer S147 (entry p))
                (cond_wake Stop_acknowledged Stop_guard Producer w)
  | S147 =>
      of_res (MkProducer S148 (entry p))
             (w ← mutex_unlock Stop_guard Producer w; Done (log EvStopReturn w))
  | S148 => Stepped (MkProducer P_idle (entry p)) w
  end.

(** ** The two threads together *)

Record state := MkState {
  st_world : world;
  st_runner : runner;
  st_producer : producer
}.

Inductive label :=
  | LRunner (ret : Z)      (* the runner takes a step *)
  | LProducer (c : call)   (* the producer takes a step *)
  | LShutdown.             (* should_run is cleared from outside *)

Inductive sys_res :=
  | Next (s : state)
  | Stay
  | Crash.

Definition exec (l : label) (s : state) : sys_res :=
  match l with
  | LRunner ret =>
      match runner_step ret (st_runner s) (st_world s) with
      | Stepped r w => Next (MkState w r (st_producer s))
      | Blocked => Stay
      | Fault => Crash
      end
  | LProducer c =>
      match producer_step c (st_producer s) (st_world s) with
      | Stepped p w => Next (MkState w (st_runner s) p)
      | Blocked => Stay
      | Fault => Crash
      end
  | LShutdown =>
      Next (MkState (set_should_run 0 (st_world s)) (st_runner s) (st_producer s))
  end.

Definition step (s s' : state) : Prop := ∃ l, exec l s = Next s'.

Definition init_world (run : Z) (voice : option string) : world :=
  World ∅ ∅ None None 0 run voice None None None None [].

Definition init_state (run : Z) (voice : option string) : state :=
  MkState (init_world run voice) (MkRunner L176 0 None 0) (MkProducer P_idle None).

Inductive reachable : state → Prop :=
  | reach_init run voice : reachable (init_state run voice)
  | reach_step s s' : reachable s → step s s' → reachable s'.

(** ** The queue operations in any order

    The worlds that calls of [queue_add], [queue_remove] and
    [queue_clear] produce from the empty queue, whatever is passed to
    [queue_add], as long as the calls return; between the calls the
    caller allocates entries. *)
Inductive queue_reachable : world → Prop :=
  | qr_empty run voice : queue_reachable (init_world run voice)
  | qr_alloc w a e w' :
      queue_reachable w → alloc_entry a e w = Some w' → queue_reachable w'
  | qr_add w p w' :
      queue_reachable w → queue_add p w = Done w' → queue_reachable w'
  | qr_remove w w' :
      queue_reachable w → queue_remove w = Done w' → queue_reachable w'
  | qr_clear w w' :
      queue_reachable w → queue_clear w = Done w' → queue_reachable w'.

#[global] Instance adjust_eq_dec : EqDecision adjust_t.
Proof. solve_decision. Defined.
#[global] Instance mutex_eq_dec : EqDecision mutex.
Proof. solve_decision. Defined.
#[global] Instance condvar_eq_dec : EqDecision condvar.
Proof. solve_decision. Defined.
#[global] Instance engine_call_eq_dec : EqDecision engine_call.
Proof. solve_decision. Defined.
#[global] Instance event_eq_dec : EqDecision event.
Proof. solve_decision. Defined.

(** [x] happened before [y] in a trace (newest event first). *)
Fixpoint happens_before (x y : event) (tr : list event) : bool :=
  match tr with
  | [] => false
  | e :: tr' =>
      (bool_decide (e = y) && bool_decide (x ∈ tr')) || happens_before x y tr'
  end.

(** The order of the flush that the spec gives: abort the engine, clear
    the queue, reset the flag, acknowledge. *)
Definition spec_flush_order (tr : list event) : bool :=
  happens_before (EvCall stop_speech) EvQueueClear tr &&
  happens_before EvQueueClear (EvMustStop 0) tr &&
  happens_before (EvMustStop 0) (EvSignal Stop_acknowledged Runner) tr.

(** The order of lines 210 to 214: clear the queue, abort the engine,
    reset the flag, acknowledge. *)
Definition flush_order (tr : list event) : bool :=
  happens_before EvQueueClear (EvCall stop_speech) tr &&
  happens_before (EvCall stop_speech) (EvMustStop 0) tr &&
  happens_before (EvMustStop 0) (EvSignal Stop_acknowledged Runner) tr.

Definition is_call (e : event) : bool :=
  match e with
  | EvCall _ => true
  | _ => false
  end.

(** The serving loop of [espeak_thread], lines 201 to 214. *)
Definition in_loop (l : rloc) : bool :=
  match l with
  | L201 | L201w | L203 | L98 | L101 | L129 | L130 | L132 | L205
  | L208 | L209 | L210 | L211 | L212 | L213 | L214 => true
  | _ => false
  end.

Definition is_dispatch (e : event) : bool :=
  match e with
  | EvDispatch _ => true
  | _ => false
  end.

Definition is_wait (e : event) : bool :=
  match e with
  | EvWait Runner_awake Runner => true
  | _ => false
  end.

(** ** What a trace says about the queue *)

(** The entries handed to [queue_add], in the order of the calls. *)
Definition enqueued (tr : list event) : list addr :=
  rev (omap (λ e, match e with EvEnqueue a => Some a | _ => None end) tr).

(** The entries freed, in the order of the frees. *)
Definition released (tr : list event) : list addr :=
  rev (omap (λ e, match e with EvFreeEntry a => Some a | _ => None end) tr).

(** The entries enqueued since [stop_runner] last returned. *)
Fixpoint fresh (tr : list event) : list addr :=
  match tr with
  | [] => []
  | EvStopReturn :: _ => []
  | EvEnqueue a :: tr' => a :: fresh tr'
  | _ :: tr' => fresh tr'
  end.

(** Every dispatch in the trace is of an entry enqueued since
    [stop_runner] last returned before it. *)
Fixpoint clean (tr : list event) : Prop :=
  match tr with
  | [] => True
  | EvDispatch a :: tr' => a ∈ fresh tr' ∧ clean tr'
  | _ :: tr' => clean tr'
  end.

(** Every dispatch in the trace is of the oldest entry that was enqueued
    and not freed before it. *)
Fixpoint in_order (tr : list event) : Prop :=
  match tr with
  | [] => True
  | EvDispatch a :: tr' =>
      (∃ rest, enqueued tr' = released tr' ++ a :: rest) ∧ in_order tr'
  | _ :: tr' => in_order tr'
  end.

(** ** Where the threads stand: classes of lines *)

(** The runner holds [queue_guard]. *)
Definition rq_holds (l : rloc) : bool :=
  match l with
  | L200 | L201 | L203 | L98 | L130 | L132 | L208 | L209 | L210 | L211
  | L212 | L213 | L214 | L218 | L219 => true
  | _ => false
  end.

(** The runner holds [stop_guard]. *)
Definition rs_holds (l : rloc) : bool :=
  match l with
  | L210 | L211 | L212 | L213 => true
  | _ => false
  end.

(** The runner is in the flush of lines 210 to 214. *)
Definition in_flush (l : rloc) : bool :=
  match l with
  | L210 | L211 | L212 | L213 | L214 => true
  | _ => false
  end.

(** The runner has cleared the queue and not yet acknowledged. *)
Definition flushed (l : rloc) : bool :=
  match l with
  | L211 | L212 | L213 | L214 => true
  | _ => false
  end.

(** The runner has reset the flag and not yet acknowledged. *)
Definition late (l : rloc) : bool :=
  match l with
  | L213 | L214 => true
  | _ => false
  end.

(** The runner has an entry in hand. *)
Definition dispatching (l : rloc) : bool :=
  match l with
  | L101 | L129 | L130 => true
  | _ => false
  end.

(** Where the runner can be between its acknowledgment and the return of
    [stop_runner]. *)
Definition rpost (l : rloc) : bool :=
  match l with
  | L200 | L201 | L201w | L218 | L219 => true
  | _ => false
  end.

(** The producer holds [queue_guard]. *)
Definition pq_holds (l : ploc) : bool :=
  match l with
  | A47 | A57 | S143 | S144 => true
  | _ => false
  end.

(** The producer holds [stop_guard]. *)
Definition ps_holds (l : ploc) : bool :=
  match l with
  | S142 | S143 | S144 | S145 | S146 | S147 => true
  | _ => false
  end.

(** The producer has set the flag and not yet returned from its wait. *)
Definition stopping (l : ploc) : bool :=
  match l with
  | S144 | S145 | S146 | S146w => true
  | _ => false
  end.

(** The producer has allocated an entry that is not queued yet. *)
Definition adding (l : ploc) : bool :=
  match l with
  | A46 | A47 => true
  | _ => false
  end.

(** The stop request of the producer has been acknowledged. *)
Definition acked (l : ploc) (sa : option tid) : bool :=
  match l with
  | S146w => bool_decide (sa = None)
  | S147 | S148 => true
  | _ => false
  end.

(** The entry the producer has allocated and not queued yet. *)
Definition pending (p : producer) : gset addr :=
  if adding (ppc p)
  then match entry p with
       | Some a => {[a]}
       | None => ∅
       end
  else ∅.

(** ** The synchronisation state, abstracted

    Which thread holds which mutex, which thread is blocked on which
    condition and whether the stop flag is set depend on the lines the
    two threads stand at and on nothing else of the world. There are
    finitely many such states, and their invariant is checked on all of
    them. *)

#[global] Program Instance rloc_finite : Finite rloc :=
  {| enum := [L176; L177; L178; L183; L188; L193; L194; L195; L196; L197;
              L199; L200; L201; L201w; L203; L98; L101; L129; L130; L132;
              L205; L208; L209; L210; L211; L212; L213; L214; L218; L219] |}.
Next Obligation. compute_done. Qed.
Next Obligation. intros []; compute_done. Qed.

#[global] Program Instance ploc_finite : Finite ploc :=
  {| enum := [P_idle; A46; A47; A57; A58; S141; S142; S143; S144; S145;
              S146; S146w; S147; S148] |}.
Next Obligation. compute_done. Qed.
Next Obligation. intros []; compute_done. Qed.

#[global] Program Instance tid_finite : Finite tid := {| enum := [Runner; Producer] |}.
Next Obligation. compute_done. Qed.
Next Obligation. intros []; compute_done. Qed.

(** What the mutexes, the condition variables and the stop flag see of a
    state: the two lines, the owners of [queue_guard] and [stop_guard],
    the waiters on [runner_awake] and [stop_acknowledged], and whether
    [runner_must_stop] is set. *)
Record sync := Sync {
  s_rl : rloc;
  s_pl : ploc;
  s_qg : option tid;
  s_sg : option tid;
  s_ra : option tid;
  s_sa : option tid;
  s_fl : bool
}.

Definition sync_of (s : state) : sync :=
  Sync (rpc (st_runner s)) (ppc (st_producer s))
       (queue_guard (st_world s)) (stop_guard (st_world s))
       (runner_awake (st_world s)) (stop_acknowledged (st_world s))
       (bool_decide (runner_must_stop (st_world s) ≠ 0)).

(** Every synchronisation state. *)
Definition all_sync : list sync :=
  rl ← enum rloc; pl ← enum ploc;
  qg ← enum (option tid); sg ← enum (option tid);
  ra ← enum (option tid); sa ← enum (option tid);
  fl ← enum bool; [Sync rl pl qg sg ra sa fl].

(** The invariant of the synchronisation state. *)
Definition sync_ok (x : sync) : Prop :=
  (s_qg x = Some Runner ↔ rq_holds (s_rl x) = true) ∧
  (s_qg x = Some Producer ↔ pq_holds (s_pl x) = true) ∧
  (s_sg x = Some Runner ↔ rs_holds (s_rl x) = true) ∧
  (s_sg x = Some Producer ↔ ps_holds (s_pl x) = true) ∧
  (s_ra x ≠ None → s_ra x = Some Runner ∧ s_rl x = L201w) ∧
  (s_sa x ≠ None → s_sa x = Some Producer ∧ s_pl x = S146w) ∧
  (s_fl x = true → stopping (s_pl x) = true) ∧
  (s_fl x = true → s_pl x = S146w → s_sa x = Some Producer) ∧
  (late (s_rl x) = true → s_fl x = false) ∧
  (in_flush (s_rl x) = true → s_pl x = S146w ∧ s_sa x = Some Producer) ∧
  (s_rl x = L209 → s_fl x = true) ∧
  (acked (s_pl x) (s_sa x) = true → s_fl x = false) ∧
  (acked (s_pl x) (s_sa x) = true →
   rpost (s_rl x) = true ∧ (s_rl x = L201w → s_ra x = Some Runner)).

#[global] Instance sync_ok_dec x : Decision (sync_ok x).
Proof. unfold sync_ok. apply _. Defined.

Definition with_rl (l : rloc) (x : sync) : sync :=
  Sync l (s_pl x) (s_qg x) (s_sg x) (s_ra x) (s_sa x) (s_fl x).
Definition with_pl (l : ploc) (x : sync) : sync :=
  Sync (s_rl x) l (s_qg x) (s_sg x) (s_ra x) (s_sa x) (s_fl x).

(** The moves of the runner on the synchronisation state; where the move
    depends on data the abstraction has dropped, both ways are open. *)
Definition sync_runner (x : sync) : list sync :=
  match s_rl x with
  | L176 => [with_rl L177 x]
  | L177 => [with_rl L178 x]
  | L178 => [with_rl L183 x]
  | L183 => [with_rl L188 x]
  | L188 => [with_rl L193 x]
  | L193 => [with_rl L194 x]
  | L194 => [with_rl L195 x]
  | L195 => [with_rl L196 x]
  | L196 => [with_rl L197 x]
  | L197 => [with_rl L199 x]
  | L199 =>
      match s_qg x with
      | None => [Sync L200 (s_pl x) (Some Runner) (s_sg x) (s_ra x) (s_sa x) (s_fl x)]
      | Some _ => []
      end
  | L200 => [with_rl L201 x; with_rl L218 x]
  | L201 =>
      if decide (s_qg x = Some Runner)
      then [Sync L201w (s_pl x) None (s_sg x) (Some Runner) (s_sa x) (s_fl x)]
      else []
  | L201w =>
      if decide (s_ra x = Some Runner) then []
      else match s_qg x with
           | None => [Sync L203 (s_pl x) (Some Runner) (s_sg x) (s_ra x) (s_sa x) (s_fl x)]
           | Some _ => []
           end
  | L203 => if s_fl x then [with_rl L208 x] else [with_rl L98 x; with_rl L208 x]
  | L98 =>
      if decide (s_qg x = Some Runner)
      then [Sync L101 (s_pl x) None (s_sg x) (s_ra x) (s_sa x) (s_fl x)]
      else []
  | L101 => [with_rl L205 x; with_rl L129 x]
  | L129 =>
      match s_qg x with
      | None => [Sync L130 (s_pl x) (Some Runner) (s_sg x) (s_ra x) (s_sa x) (s_fl x)]
      | Some _ => []
      end
  | L130 => [with_rl L132 x]
  | L132 =>
      if decide (s_qg x = Some Runner)
      then [Sync L205 (s_pl x) None (s_sg x) (s_ra x) (s_sa x) (s_fl x)]
      else []
  | L205 =>
      match s_qg x with
      | None => [Sync L203 (s_pl x) (Some Runner) (s_sg x) (s_ra x) (s_sa x) (s_fl x)]
      | Some _ => []
      end
  | L208 => if s_fl x then [with_rl L209 x] else [with_rl L200 x]
  | L209 =>
      match s_sg x with
      | None => [Sync L210 (s_pl x) (s_qg x) (Some Runner) (s_ra x) (s_sa x) (s_fl x)]
      | Some _ => []
      end
  | L210 => [with_rl L211 x]
  | L211 => [with_rl L212 x]
  | L212 => [Sync L213 (s_pl x) (s_qg x) (s_sg x) (s_ra x) (s_sa x) false]
  | L213 =>
      if decide (s_sg x = Some Runner)
      then [Sync L214 (s_pl x) (s_qg x) None (s_ra x) (s_sa x) (s_fl x)]
      else []
  | L214 => [Sync L200 (s_pl x) (s_qg x) (s_sg x) (s_ra x) None (s_fl x)]
  | L218 => [with_rl L219 x]
  | L219 => []
  end.

(** The moves of the producer on the synchronisation state. *)
Definition sync_producer (x : sync) : list sync :=
  match s_pl x with
  | P_idle => [with_pl A46 x; with_pl S141 x]
  | A46 =>
      match s_qg x with
      | None => [Sync (s_rl x) A47 (Some Producer) (s_sg x) (s_ra x) (s_sa x) (s_fl x)]
      | Some _ => []
      end
  | A47 => [with_pl A57 x]
  | A57 =>
      if decide (s_qg x = Some Producer)
      then [Sync (s_rl x) A58 None (s_sg x) (s_ra x) (s_sa x) (s_fl x)]
      else []
  | A58 => [Sync (s_rl x) P_idle (s_qg x) (s_sg x) None (s_sa x) (s_fl x)]
  | S141 =>
      match s_sg x with
      | None => [Sync (s_rl x) S142 (s_qg x) (Some Producer) (s_ra x) (s_sa x) (s_fl x)]
      | Some _ => []
      end
  | S142 =>
      match s_qg x with
      | None => [Sync (s_rl x) S143 (Some Producer) (s_sg x) (s_ra x) (s_sa x) (s_fl x)]
      | Some _ => []
      end
  | S143 => [Sync (s_rl x) S144 (s_qg x) (s_sg x) (s_ra x) (s_sa x) true]
  | S144 =>
      if decide (s_qg x = Some Producer)
      then [Sync (s_rl x) S145 None (s_sg x) (s_ra x) (s_sa x) (s_fl x)]
      else []
  | S145 => [Sync (s_rl x) S146 (s_qg x) (s_sg x) None (s_sa x) (s_fl x)]
  | S146 =>
      if decide (s_sg x = Some Producer)
      then [Sync (s_rl x) S146w (s_qg x) None (s_ra x) (Some Producer) (s_fl x)]
      else []
  | S146w =>
      if decide (s_sa x = Some Producer) then []
      else match s_sg x with
           | None => [Sync (s_rl x) S147 (s_qg x) (Some Producer) (s_ra x) (s_sa x) (s_fl x)]
           | Some _ => []
           end
  | S147 =>
      if decide (s_sg x = Some Producer)
      then [Sync (s_rl x) S148 (s_qg x) None (s_ra x) (s_sa x) (s_fl x)]
      else []
  | S148 => [with_pl P_idle x]
  end.

(** The invariant, on states. *)
Definition sync_inv (s : state) : Prop := sync_ok (sync_of s).

(** ** The invariant of the queue memory *)

(** The queue memory and the trace against the lines the threads stand
    at, for the list [l] of queued entries. *)
Record queue_inv (s : state) (l : list addr) : Prop := QueueInv {
  qi_queue : is_queue (st_world s) l;
  qi_dom : dom (heap (st_world s)) = list_to_set l ∪ pending (st_producer s);
  qi_current : dispatching (rpc (st_runner s)) = true →
               ∃ a l', l = a :: l' ∧ current (st_runner s) = Some a;
  qi_98 : rpc (st_runner s) = L98 → l ≠ [];
  qi_flushed : flushed (rpc (st_runner s)) = true → l = [];
  qi_acked : acked (ppc (st_producer s)) (stop_acknowledged (st_world s)) = true → l = [];
  qi_fifo : enqueued (trace (st_world s)) = released (trace (st_world s)) ++ l;
  qi_fresh : ∀ a, a ∈ l → a ∈ fresh (trace (st_world s));
  qi_adding : adding (ppc (st_producer s)) = true →
              ∃ a, entry (st_producer s) = Some a ∧ valid_entry (st_world s) l a;
  qi_clean : clean (trace (st_world s));
  qi_in_order : in_order (trace (st_world s))
}.

(** A schedule, run step by step; [None] when a step blocks or faults. *)
Fixpoint run_labels (ls : list label) (s : state) : option state :=
  match ls with
  | [] => Some s
  | l :: ls =>
      match exec l s with
      | Next s' => run_labels ls s'
      | _ => None
      end
  end.

(** The events that say nothing about the queue. *)
Definition neutral (e : event) : bool :=
  match e with
  | EvEnqueue _ | EvFreeEntry _ | EvDispatch _ | EvStopReturn => false
  | _ => true
  end.

(** ** Sample worlds and schedules *)

Definition text_entry : queue_entry_t :=
  Entry CMD_SPEAK_TEXT ADJ_SET 0 (Some 10%positive) 5 None.
Definition rate_entry : queue_entry_t :=
  Entry CMD_SET_RATE ADJ_SET 5 None 0 None.
Definition voice_entry : queue_entry_t :=
  Entry CMD_SET_VOICE ADJ_SET 0 None 0 None.

(** The queue that holds a text entry at address 1, with its buffer at
    address 10, and then a rate entry at address 2. *)
Definition two_entries : world :=
  World (<[1%positive := with_next (Some 2%positive) text_entry]>
           (<[2%positive := rate_entry]> ∅))
        {[10%positive]} (Some 2%positive) (Some 1%positive)
        0 1 None None None None None [].

(** The world of [two_entries] after the caller has allocated a third
    entry, at address 3. *)
Definition third_allocated : world :=
  set_heap (<[3%positive := voice_entry]> (heap two_entries)) two_entries.

(** What [espeak_thread] does with [defaultVoice] at line 188. *)
Definition voice_events (v : option string) : list event :=
  match v with
  | Some v => [EvCall (set_voice v); EvFreeVoice]
  | None => []
  end.

(** The default settings of lines 193 to 197. *)
Definition startup_defaults : list event :=
  [EvCall (set_frequency 5 ADJ_SET); EvCall (set_pitch 5 ADJ_SET);
   EvCall (set_rate 5 ADJ_SET); EvCall (set_volume 5 ADJ_SET);
   EvCall espeak_SetParameter_CAPITALS].

(** The thread at its first line, and what the environment supplies on a
    start where [espeak_Initialize] returns [rate] and [init_audio]
    returns [audio]. *)
Definition runner_start : runner := MkRunner L176 0 None 0.
Definition start_rets (rate audio : Z) : list Z :=
  [0; rate; 0; audio; 0; 0; 0; 0; 0; 0; 0; 0; 0].

(** The world of [two_entries] when a stop request is pending: the flag is
    set, the runner holds [queue_guard] and the caller of [stop_runner]
    waits on [stop_acknowledged]. *)
Definition stop_pending : world :=
  set_stop_acknowledged (Some Producer)
    (set_queue_guard (Some Runner) (set_runner_must_stop 1 two_entries)).

(** The queue that holds one [CMD_SET_VOICE] entry, at address 1, with the
    runner holding [queue_guard]. *)
Definition voice_queued : world :=
  World {[1%positive := voice_entry]} ∅ (Some 1%positive) (Some 1%positive)
        0 1 None (Some Runner) None None None [].

(** A schedule: the runner starts and waits; the producer enqueues a rate
    entry at address 1; the runner wakes, dispatches and removes it and
    waits again; the producer enqueues a text entry at address 2 and
    calls [stop_runner]; the runner wakes, flushes and acknowledges;
    [stop_runner] returns. *)
Definition runner_steps (n : nat) : list label := replicate n (LRunner 0).
Definition producer_steps (n : nat) : list label := replicate n (LProducer CallStop).

Definition stop_schedule : list label :=
  [LRunner 0; LRunner 22050] ++ runner_steps 11 ++
  [LProducer (CallAdd 1%positive rate_entry)] ++ producer_steps 4 ++
  runner_steps 12 ++
  [LProducer (CallAdd 2%positive text_entry)] ++ producer_steps 4 ++
  producer_steps 7 ++
  runner_steps 9 ++
  producer_steps 2.

Definition stop_returned : state :=
  default (init_state 1 None) (run_labels stop_schedule (init_state 1 None)).

(** ** Calls in a row

    [n] calls of [queue_remove], one after the other, as the runner makes
    them from line 131. *)
Fixpoint queue_remove_n (n : nat) (w : world) : res world :=
  match n with
  | O => Done w
  | S n => w ← queue_remove w; queue_remove_n n w
  end.

(** The world in which the entry at [a] is [e]. *)
Definition with_entry (a : addr) (e : queue_entry_t) (w : world) : world :=
  set_heap (<[a := e]> (heap w)) w.

(** Lines 98 to 129 for an entry whose kind makes an engine call: the
    world when the runner has taken [queue_guard] again. *)
Definition dispatched (a : addr) (c : engine_call) (w : world) : world :=
  log (EvLock Queue_guard Runner)
    (set_owner Queue_guard (Some Runner)
       (log (EvCall c) (log (EvDispatch a)
          (log (EvUnlock Queue_guard Runner) (set_owner Queue_guard None w))))).

(** ** More classes of lines *)

(** The lines of [espeak_thread] before it has taken [queue_guard]. *)
Definition startup (l : rloc) : bool :=
  match l with
  | L176 | L177 | L178 | L183 | L188 | L193 | L194 | L195 | L196 | L197 | L199 => true
  | _ => false
  end.

(** The lines from which the runner comes to the test of line 208
    without a further signal on [runner_awake] (at line 201 once the
    signal has come). *)
Definition noticing (l : rloc) : bool :=
  match l with
  | L201w | L101 | L129 | L130 | L132 | L205 | L203 | L208 | L209 | L210
  | L211 | L212 => true
  | _ => false
  end.

(** [stop_runner] has set the flag and has not begun to wait. *)
Definition requested (l : ploc) : bool :=
  match l with
  | S144 | S145 | S146 => true
  | _ => false
  end.

(** [stop_runner] has signalled [runner_awake] and has not returned from
    its wait. *)
Definition signalled (l : ploc) : bool :=
  match l with
  | S146 | S146w => true
  | _ => false
  end.

(** The lines where a thread reads or writes [first], [last], a [next]
    field or [runner_must_stop]. *)
Definition runner_in_queue (l : rloc) : bool :=
  match l with
  | L203 | L98 | L130 | L208 | L210 | L212 => true
  | _ => false
  end.

Definition producer_in_queue (l : ploc) : bool :=
  match l with
  | A47 | S143 => true
  | _ => false
  end.

(** ** Stop requests and the two waits *)

(** A stop request that has been made and not acknowledged keeps the flag
    set, until the runner resets it at line 212. *)
Definition sync_pending (x : sync) : Prop :=
  (requested (s_pl x) = true → s_fl x = true) ∧
  (s_pl x = S146w → s_sa x = Some Producer → s_fl x = false → late (s_rl x) = true).

(** The runner has taken [queue_guard] at line 199, and a stop request
    that is pending will be noticed: the runner is on its way to line
    208, and if it waits at line 201 while [stop_runner] has sent its
    signal, the signal has reached it. *)
Definition sync_started (x : sync) : Prop :=
  startup (s_rl x) = false ∧
  (s_fl x = true → noticing (s_rl x) = true) ∧
  (s_fl x = true → s_rl x = L201w → signalled (s_pl x) = true → s_ra x = None).

(** While the flag is set the runner does not stand at line 98, where it
    picks the oldest entry. *)
Definition sync_no_pick (x : sync) : Prop := s_fl x = true → s_rl x ≠ L98.

#[global] Instance sync_no_pick_dec x : Decision (sync_no_pick x).
Proof. unfold sync_no_pick. apply _. Defined.

#[global] Instance sync_pending_dec x : Decision (sync_pending x).
Proof. unfold sync_pending. apply _. Defined.

#[global] Instance sync_started_dec x : Decision (sync_started x).
Proof. unfold sync_started. apply _. Defined.

Definition pending_inv (s : state) : Prop := sync_pending (sync_of s).
Definition started_inv (s : state) : Prop := sync_started (sync_of s).

(** Both threads are blocked in their waits: the runner at line 201, the
    caller of [stop_runner] at line 146, and no signal is on its way to
    either. *)
Definition both_waiting (s : state) : Prop :=
  rpc (st_runner s) = L201w ∧ ppc (st_producer s) = S146w ∧
  runner_awake (st_world s) = Some Runner ∧
  stop_acknowledged (st_world s) = Some Producer.

Definition runner_can_step (s : state) : Prop :=
  ∃ ret s', exec (LRunner ret) s = Next s'.

Definition producer_can_step (s : state) : Prop :=
  ∃ c s', exec (LProducer c) s = Next s'.

(** ** Waits that return without a signal

    POSIX lets [pthread_cond_wait] return though no signal has come, and
    asks the caller to test its condition in a loop; lines 146 and 201
    have no such loop. A spurious return is a step of the environment:
    the thread blocked on the condition is released as by a signal, and
    nothing is logged. *)
Definition spurious_wakeup (c : condvar) (s : state) : state :=
  MkState (set_waiter c None (st_world s)) (st_runner s) (st_producer s).

Inductive posix_label :=
  | PStep (l : label)           (* a step of [exec] *)
  | PSpurious (c : condvar).    (* a wait on [c] returns without a signal *)

Definition exec_posix (l : posix_label) (s : state) : sys_res :=
  match l with
  | PStep l => exec l s
  | PSpurious c => Next (spurious_wakeup c s)
  end.

Definition step_posix (s s' : state) : Prop := ∃ l, exec_posix l s = Next s'.

Inductive reachable_posix : state → Prop :=
  | reach_posix_init run voice : reachable_posix (init_state run voice)
  | reach_posix_step s s' : reachable_posix s → step_posix s s' → reachable_posix s'.

Fixpoint run_posix (ls : list posix_label) (s : state) : option state :=
  match ls with
  | [] => Some s
  | l :: ls =>
      match exec_posix l s with
      | Next s' => run_posix ls s'
      | _ => None
      end
  end.

(** [stop_runner] from its first line to its return, with a spurious
    return of the wait of line 146. *)
Definition early_return_schedule : list posix_label :=
  (PStep <$> producer_steps 7) ++ [PSpurious Stop_acknowledged] ++
  (PStep <$> producer_steps 2).

(** ** More sample worlds and schedules *)

(** [two_entries] after [queue_clear]. *)
Definition two_entries_cleared : world :=
  match queue_clear two_entries with
  | Done w => w
  | _ => two_entries
  end.

(** [two_entries] with the runner holding [queue_guard]. *)
Definition two_queued : world := set_queue_guard (Some Runner) two_entries.

(** The same when [should_run] has been cleared. *)
Definition shutdown_pending : world :=
  set_queue_guard (Some Runner) (set_should_run 0 two_entries).

(** [stop_pending] when [should_run] has been cleared as well. *)
Definition stop_and_shutdown : world := set_should_run 0 stop_pending.

(** The state a schedule leads to. *)
Definition after (ls : list label) (s : state) : state :=
  default s (run_labels ls s).

Definition startup_schedule : list label :=
  [LRunner 0; LRunner 22050] ++ runner_steps 11.

(** The runner has started and waits on [runner_awake]. *)
Definition runner_waiting : state := after startup_schedule (init_state 1 None).

(** The runner stands at line 199, before it takes [queue_guard]. *)
Definition before_lock : state :=
  after ([LRunner 0; LRunner 22050] ++ runner_steps 8) (init_state 1 None).

(** The producer is in the middle of [queue_add], at line 47. *)
Definition adding_entry : state :=
  after ([LProducer (CallAdd 1%positive rate_entry)] ++ producer_steps 1) runner_waiting.

(** The runner waits, signalled by a [queue_add] that has queued a text
    entry at address 1. *)
Definition entry_queued : state :=
  after ([LProducer (CallAdd 1%positive text_entry)] ++ producer_steps 4) runner_waiting.

(** The runner dispatches the entry at address 1 while the producer calls
    [queue_add] for a second entry. *)
Definition dispatch_and_add : state :=
  after ([LProducer (CallAdd 1%positive rate_entry)] ++ producer_steps 4 ++
         runner_steps 3 ++ [LProducer (CallAdd 2%positive text_entry)])
        runner_waiting.

(** The runner has returned, [should_run] being 0 from the start, and the
    producer calls [queue_add]. *)
Definition runner_returned : state :=
  after (runner_steps 13 ++ [LProducer (CallAdd 1%positive rate_entry)])
        (init_state 0 None).

(** The producer waits in [stop_runner], called after the runner began to
    wait. *)
Definition stop_requested : state := after (producer_steps 7) runner_waiting.

(** * Properties of the queue *)

#[local] Arguments owned : simpl never.
#[local] Arguments owned_bufs : simpl never.
#[local] Arguments release_log : simpl never.
#[local] Arguments free_node : simpl never.
#[local] Arguments free_buf : simpl never.

Lemma lseg_inj h p l1 l2 : lseg h p l1 → lseg h p l2 → l1 = l2.
Proof.
  revert p l2. induction l1 as [|a l1 IH]; intros p [|b l2]; simpl; try done.
  - intros -> [? _]; done.
  - intros [-> _] ?; done.
  - intros [-> H1] [Hb H2]. injection Hb as <-.
    destruct (h !! a) as [e|]; [|done]. f_equal. eauto.
Qed.

Lemma lseg_insert_notin h p l a e :
  a ∉ l → lseg h p l → lseg (<[a:=e]> h) p l.
Proof.
  revert p. induction l as [|x l IH]; intros p Hn; simpl; [done|].
  apply not_elem_of_cons in Hn as [Hx Hl].
  intros [-> H]. split; [done|].
  rewrite lookup_insert_ne; [|done].
  destruct (h !! x); [|done]. by apply IH.
Qed.

Lemma lseg_delete_notin h p l a :
  a ∉ l → lseg h p l → lseg (delete a h) p l.
Proof.
  revert p. induction l as [|x l IH]; intros p Hn; simpl; [done|].
  apply not_elem_of_cons in Hn as [Hx Hl].
  intros [-> H]. split; [done|].
  rewrite lookup_delete_ne; [|done].
  destruct (h !! x); [|done]. by apply IH.
Qed.

Lemma lseg_lookup h p l a : lseg h p l → a ∈ l → is_Some (h !! a).
Proof.
  revert p. induction l as [|x l IH]; intros p; simpl.
  - intros _ H. by apply elem_of_nil in H.
  - intros [-> H] Hin. destruct (h !! x) as [e|] eqn:E; [|done].
    apply elem_of_cons in Hin as [->|Hin]; [by rewrite E|]. eauto.
Qed.

Lemma lseg_snoc h p l t et a ea :
  NoDup (l ++ [t]) → a ∉ l ++ [t] →
  lseg h p (l ++ [t]) → h !! t = Some et → next ea = None →
  lseg (<[t := with_next (Some a) et]> (<[a := ea]> h)) p (l ++ [t; a]).
Proof.
  revert p. induction l as [|x l IH]; intros p Hnd Hna; simpl.
  - intros [-> _] Ht Hnx. split; [done|].
    rewrite lookup_insert_eq. simpl. split; [done|].
    assert (a ≠ t).
    { intros ->. apply Hna. by apply list_elem_of_singleton. }
    rewrite lookup_insert_ne; [|done]. rewrite lookup_insert_eq. done.
  - intros [-> H] Ht Hnx. split; [done|].
    apply NoDup_cons in Hnd as [Hx Hnd].
    assert (x ≠ t).
    { intros ->. apply Hx. apply elem_of_app. right. by apply list_elem_of_singleton. }
    assert (x ≠ a).
    { intros ->. apply Hna. apply elem_of_cons. by left. }
    rewrite !lookup_insert_ne; [|done..].
    destruct (h !! x) as [ex|]; [|done].
    apply IH; [done| |done..].
    intros Hin. apply Hna. apply elem_of_cons. by right.
Qed.

Lemma back_snoc l a : back (l ++ [a]) = Some a.
Proof.
  induction l as [|x l IH]; [done|]. simpl.
  destruct (l ++ [a]) eqn:E; [by destruct l|]. done.
Qed.

Lemma back_cons a b l : back (a :: b :: l) = back (b :: l).
Proof. done. Qed.

Lemma entry_bufs_with_next n e : entry_bufs (with_next n e) = entry_bufs e.
Proof. done. Qed.

Lemma owned_insert_ne h a x e : a ≠ x → owned (<[a:=e]> h) x = owned h x.
Proof. intros. unfold owned. by rewrite lookup_insert_ne. Qed.

Lemma owned_insert_eq h a e : owned (<[a:=e]> h) a = entry_bufs e.
Proof. unfold owned. by rewrite lookup_insert_eq. Qed.

Lemma owned_delete_ne h a x : a ≠ x → owned (delete a h) x = owned h x.
Proof. intros. unfold owned. by rewrite lookup_delete_ne. Qed.

Lemma owned_bufs_nil h : owned_bufs h [] = [].
Proof. done. Qed.

Lemma owned_bufs_cons h a l : owned_bufs h (a :: l) = owned h a ++ owned_bufs h l.
Proof. done. Qed.

Lemma owned_bufs_app h l1 l2 :
  owned_bufs h (l1 ++ l2) = owned_bufs h l1 ++ owned_bufs h l2.
Proof. unfold owned_bufs. apply bind_app. Qed.

Lemma release_log_nil h : release_log h [] = [].
Proof. done. Qed.

Lemma release_log_cons h a l :
  release_log h (a :: l) =
  (EvFreeBuf <$> owned h a) ++ EvFreeEntry a :: release_log h l.
Proof. unfold release_log. rewrite bind_cons. by rewrite <- app_assoc. Qed.

Lemma owned_bufs_ext h h' l :
  (∀ x, x ∈ l → owned h' x = owned h x) → owned_bufs h' l = owned_bufs h l.
Proof.
  induction l as [|x l IH]; intros H; [done|].
  rewrite !owned_bufs_cons. rewrite H; [|apply elem_of_cons; by left].
  f_equal. apply IH. intros; apply H. apply elem_of_cons; by right.
Qed.

Lemma release_log_ext h h' l :
  (∀ x, x ∈ l → owned h' x = owned h x) → release_log h' l = release_log h l.
Proof.
  induction l as [|x l IH]; intros H; [done|].
  rewrite !release_log_cons. rewrite H; [|apply elem_of_cons; by left].
  do 2 f_equal. apply IH. intros; apply H. apply elem_of_cons; by right.
Qed.

Lemma same_sync_refl w : same_sync w w.
Proof. by unfold same_sync. Qed.

Lemma same_sync_trans w1 w2 w3 : same_sync w1 w2 → same_sync w2 w3 → same_sync w1 w3.
Proof. unfold same_sync. intuition congruence. Qed.

Lemma is_queue_nil_inv w : is_queue w [] → first w = None ∧ last w = None.
Proof. intros [H1 H2 _ _ _]. simpl in *. done. Qed.

Lemma is_queue_cons_inv w a l :
  is_queue w (a :: l) →
  last w = Some a ∧ ∃ e, heap w !! a = Some e ∧ lseg (heap w) (next e) l.
Proof.
  intros [H1 _ _ _ _]. simpl in H1. destruct H1 as [-> H1].
  split; [done|]. destruct (heap w !! a) as [e|]; [|done]. eauto.
Qed.

Lemma is_queue_inj w l1 l2 : is_queue w l1 → is_queue w l2 → l1 = l2.
Proof. intros [H1 _ _ _ _] [H2 _ _ _ _]. eapply lseg_inj; eauto. Qed.

Lemma first_nonnull w l : is_queue w l → l ≠ [] → ∃ t l0, l = l0 ++ [t] ∧ first w = Some t.
Proof.
  intros Hq Hne. destruct (exists_last Hne) as (l0 & t & ->).
  exists t, l0. split; [done|]. rewrite (iq_first _ _ Hq). apply back_snoc.
Qed.

(** [queue_add] appends a valid entry. *)
Lemma queue_add_spec w l a :
  is_queue w l → valid_entry w l a →
  ∃ w', queue_add (Some a) w = Done w' ∧ is_queue w' (l ++ [a]) ∧
        same_sync w w' ∧ trace w' = trace w ∧ bufs w' = bufs w ∧
        dom (heap w') = dom (heap w) ∧
        (∀ x, owned (heap w') x = owned (heap w) x).
Proof.
  intros Hq [Hna Hv]. destruct (heap w !! a) as [e|] eqn:Ha; [|done].
  unfold queue_add, store_next. rewrite Ha. simpl.
  destruct l as [|h0 l0]; [|assert (Hne : h0 :: l0 ≠ []) by done;
    destruct (first_nonnull _ _ Hq Hne) as (t & l1 & El & Hf); rewrite El in *; clear El Hne].
  - destruct (is_queue_nil_inv _ Hq) as [Hf Hl]. rewrite Hl. simpl. rewrite Hf.
    eexists; split; [done|]. split; [|split; [done|split; [done|split; [done|split]]]].
    + constructor; simpl.
      * rewrite lookup_insert_eq. done.
      * done.
      * apply NoDup_singleton.
      * rewrite owned_bufs_cons, owned_bufs_nil, app_nil_r.
        rewrite owned_insert_eq, entry_bufs_with_next.
        unfold entry_bufs. destruct (cmd e), (buf e); try apply NoDup_nil_2.
        apply NoDup_singleton.
      * rewrite owned_bufs_cons, owned_bufs_nil, app_nil_r.
        rewrite owned_insert_eq, entry_bufs_with_next.
        eapply Forall_impl; [exact Hv|]. simpl. tauto.
    + simpl. apply dom_insert_lookup_L. by rewrite Ha.
    + intros x. simpl. destruct (decide (a = x)) as [<-|Hx].
      * rewrite owned_insert_eq, entry_bufs_with_next. unfold owned. by rewrite Ha.
      * by apply owned_insert_ne.
  - pose proof (iq_seg _ _ Hq) as Hseg.
    assert (Hlast : ∃ hd, last w = Some hd).
    { destruct l1; simpl in Hseg; destruct Hseg as [-> _]; eauto. }
    destruct Hlast as [hd Hl]. rewrite Hl. simpl. rewrite Hf. simpl.
    assert (Hta : t ≠ a).
    { intros ->. apply Hna. apply elem_of_app. right. apply list_elem_of_singleton. done. }
    rewrite lookup_insert_ne; [|done].
    destruct (lseg_lookup _ _ _ t Hseg) as [et Ht]; [set_solver|].
    rewrite Ht. simpl. rewrite Hf. simpl. rewrite lookup_insert_eq. simpl.
    eexists; split; [done|].
    assert (Hown : ∀ x, owned (<[t:=with_next (Some a) et]> (<[a:=with_next None e]> (heap w))) x
                        = owned (heap w) x).
    { intros x. destruct (decide (t = x)) as [<-|Hx].
      - rewrite owned_insert_eq, entry_bufs_with_next. unfold owned. by rewrite Ht.
      - rewrite owned_insert_ne; [|done]. destruct (decide (a = x)) as [<-|Hx'].
        + rewrite owned_insert_eq, entry_bufs_with_next. unfold owned. by rewrite Ha.
        + by apply owned_insert_ne. }
    split; [|split; [done|split; [done|split; [done|split; [|exact Hown]]]]].
    + assert (Hob : owned_bufs (<[t:=with_next (Some a) et]> (<[a:=with_next None e]> (heap w)))
                      ((l1 ++ [t]) ++ [a]) = owned_bufs (heap w) (l1 ++ [t]) ++ entry_bufs e).
      { rewrite owned_bufs_app, owned_bufs_cons, owned_bufs_nil, app_nil_r.
        rewrite Hown. f_equal; [by apply owned_bufs_ext|]. unfold owned. by rewrite Ha. }
      constructor; simpl.
      * rewrite Hl. rewrite <- app_assoc. simpl.
        rewrite <- Hl. apply lseg_snoc; try done. apply (iq_nodup _ _ Hq).
      * symmetry. apply back_snoc.
      * apply NoDup_app. split; [apply (iq_nodup _ _ Hq)|]. split; [|apply NoDup_singleton].
        intros x Hx Hx'. apply list_elem_of_singleton in Hx'. by subst.
      * rewrite Hob. apply NoDup_app. split; [apply (iq_bufs_nodup _ _ Hq)|]. split.
        -- intros b Hb Hb'. rewrite Forall_forall in Hv. by destruct (Hv _ Hb').
        -- unfold entry_bufs. destruct (cmd e), (buf e); try apply NoDup_nil_2.
           apply NoDup_singleton.
      * rewrite Hob. apply Forall_app. split; [apply (iq_bufs_live _ _ Hq)|].
        eapply Forall_impl; [exact Hv|]. simpl. tauto.
    + simpl. rewrite !dom_insert_L.
      assert (a ∈ dom (heap w)) by (apply elem_of_dom; by rewrite Ha).
      assert (t ∈ dom (heap w)) by (apply elem_of_dom; by rewrite Ht).
      set_solver.
Qed.

(** [queue_remove] on a queue that is not empty unlinks the oldest entry
    and frees it, its text buffer first. *)
Lemma queue_remove_spec w a l :
  is_queue w (a :: l) →
  ∃ w', queue_remove w = Done w' ∧ is_queue w' l ∧ same_sync w w' ∧
        trace w' = EvFreeEntry a :: (EvFreeBuf <$> owned (heap w) a) ++ trace w ∧
        heap w' = delete a (heap w) ∧
        bufs w' = bufs w ∖ list_to_set (owned (heap w) a).
Proof.
  intros Hq. destruct (is_queue_cons_inv _ _ _ Hq) as (Hl & e & Ha & Hseg).
  pose proof (iq_nodup _ _ Hq) as Hnd. apply NoDup_cons in Hnd as [Hal Hnd].
  pose proof (iq_bufs_nodup _ _ Hq) as Hbn. rewrite owned_bufs_cons in Hbn.
  pose proof (iq_bufs_live _ _ Hq) as Hbl. rewrite owned_bufs_cons in Hbl.
  apply Forall_app in Hbl as [Hbl1 Hbl2].
  apply NoDup_app in Hbn as (Hbn1 & Hdisj & Hbn2).
  assert (Hown : owned (heap w) a = entry_bufs e) by (unfold owned; by rewrite Ha).
  assert (Hodel : owned_bufs (delete a (heap w)) l = owned_bufs (heap w) l).
  { apply owned_bufs_ext. intros x Hx. apply owned_delete_ne. by intros ->. }
  assert (Hw1 : ∃ w1, (match next e with
                       | None => set_first (next e) (set_last (next e) w)
                       | Some _ => set_last (next e) w
                       end) = w1 ∧ first w1 = back l ∧ last w1 = next e ∧
                      heap w1 = heap w ∧ bufs w1 = bufs w ∧ trace w1 = trace w ∧
                      same_sync w w1).
  { eexists; split; [done|]. unfold same_sync. destruct l as [|b l']; simpl in Hseg.
    - rewrite Hseg. done.
    - destruct Hseg as [-> _]. simpl. rewrite (iq_first _ _ Hq). done. }
  destruct Hw1 as (w1 & Ew1 & Hf1 & Hl1 & Hh1 & Hb1 & Ht1 & Hs1).
  unfold queue_remove. rewrite Hl. unfold load at 1. rewrite Ha. simpl.
  rewrite Ew1. clear Ew1.
  unfold free_entry, load. rewrite Hh1, Ha. simpl.
  assert (Hfin : ∀ w2 bs, heap w2 = heap w → first w2 = back l → last w2 = next e →
            same_sync w w2 → bufs w2 = bufs w ∖ list_to_set bs →
            (∀ x, x ∈ bs → x ∉ owned_bufs (heap w) l) →
            ∃ w', free_node (Some a) w2 = Done w' ∧ is_queue w' l ∧ same_sync w w' ∧
                  trace w' = EvFreeEntry a :: trace w2 ∧
                  heap w' = delete a (heap w) ∧ bufs w' = bufs w ∖ list_to_set bs).
  { intros w2 bs Hh2 Hf2 Hl2 Hs2 Hb2 Hd2. unfold free_node. rewrite Hh2, Ha.
    eexists; split; [done|]. simpl. split; [|done].
    constructor; simpl; rewrite ?Hh2, ?Hl2, ?Hodel, ?Hb2; try done.
    - by apply lseg_delete_notin.
    - rewrite Forall_forall in Hbl2 |- *. intros x Hx.
      apply elem_of_difference. split; [auto|].
      intros Hx'. apply elem_of_list_to_set in Hx'. by apply (Hd2 x). }
  rewrite Hown in *. unfold entry_bufs in *.
  assert (Hnil : bufs w1 = bufs w ∖ list_to_set []) by (rewrite Hb1; set_solver).
  assert (Hnil' : ∀ x : addr, x ∈ @nil addr → x ∉ owned_bufs (heap w) l).
  { intros x Hx. by apply elem_of_nil in Hx. }
  destruct (cmd e) eqn:Ec; simpl;
    try (destruct (Hfin w1 [] Hh1 Hf1 Hl1 Hs1 Hnil Hnil') as (w' & -> & ? & ? & Ht' & ? & ?);
         exists w'; rewrite Ht', Ht1; done).
  destruct (buf e) as [b|] eqn:Eb; simpl.
  - unfold free_buf. rewrite Hb1.
    rewrite Forall_singleton in Hbl1.
    rewrite decide_True; [|done]. simpl.
    destruct (Hfin (log (EvFreeBuf b) (set_bufs (bufs w ∖ {[b]}) w1)) [b])
      as (w' & -> & ? & ? & Ht' & ? & ?); simpl; try done.
    + set_solver.
    + exists w'. rewrite Ht'. simpl. rewrite Ht1. done.
  - destruct (Hfin w1 [] Hh1 Hf1 Hl1 Hs1 Hnil Hnil') as (w' & -> & ? & ? & Ht' & ? & ?).
    exists w'. rewrite Ht', Ht1. done.
Qed.

(** [queue_remove] on the empty queue does nothing. *)
Lemma queue_remove_nil w : is_queue w [] → queue_remove w = Done w.
Proof.
  intros Hq. destruct (is_queue_nil_inv _ Hq) as [_ Hl].
  unfold queue_remove. by rewrite Hl.
Qed.

Lemma lseg_length_le h p l : lseg h p l → NoDup l → (length l ≤ size h)%nat.
Proof.
  intros Hseg Hnd.
  rewrite <- (size_list_to_set (C := gset addr) l Hnd), <- size_dom.
  apply subseteq_size. intros x Hx. apply elem_of_list_to_set in Hx.
  apply elem_of_dom. eapply lseg_lookup; eauto.
Qed.

Lemma queue_clear_loop_spec fuel w l :
  is_queue w l → (length l ≤ fuel)%nat →
  ∃ w', queue_clear_loop fuel w = Done w' ∧ is_queue w' [] ∧ same_sync w w' ∧
        trace w' = rev (release_log (heap w) l) ++ trace w ∧
        heap w' = foldr delete (heap w) l ∧
        bufs w' = bufs w ∖ list_to_set (owned_bufs (heap w) l).
Proof.
  revert w l. induction fuel as [|fuel IH]; intros w l Hq Hf.
  - destruct l; [|simpl in Hf; lia].
    destruct (is_queue_nil_inv _ Hq) as [_ Hl].
    exists w. simpl. rewrite Hl.
      split; [done|]. split; [done|]. split; [apply same_sync_refl|].
      split; [done|]. split; [done|]. rewrite ?owned_bufs_nil. set_solver.
  - destruct l as [|a l].
    + destruct (is_queue_nil_inv _ Hq) as [_ Hl].
      exists w. simpl. rewrite Hl.
      split; [done|]. split; [done|]. split; [apply same_sync_refl|].
      split; [done|]. split; [done|]. rewrite ?owned_bufs_nil. set_solver.
    + destruct (is_queue_cons_inv _ _ _ Hq) as (Hl & e & Ha & Hseg).
      destruct (queue_remove_spec _ _ _ Hq) as (w1 & Hr & Hq1 & Hs1 & Ht1 & Hh1 & Hb1).
      destruct (IH w1 l Hq1) as (w' & Hc & Hq' & Hs' & Ht' & Hh' & Hb'); [simpl in Hf; lia|].
      exists w'. simpl. rewrite Hl. unfold load. rewrite Ha. simpl.
      rewrite Hr. simpl. rewrite Hc.
      pose proof (iq_nodup _ _ Hq) as Hnd. apply NoDup_cons in Hnd as [Hal Hnd].
      assert (Hext : ∀ x, x ∈ l → owned (heap w1) x = owned (heap w) x).
      { intros x Hx. rewrite Hh1. apply owned_delete_ne. by intros ->. }
      split; [done|]. split; [done|]. split.
      { eapply same_sync_trans; eauto. }
      split; [|split].
      * rewrite Ht', Ht1. rewrite release_log_cons.
        rewrite (release_log_ext _ _ _ Hext).
        rewrite rev_app_distr. simpl. rewrite <- !app_assoc. simpl.
        f_equal. f_equal.
        unfold owned. rewrite Ha. simpl. unfold entry_bufs.
        destruct (cmd e), (buf e); done.
      * rewrite Hh', Hh1. simpl. clear -Hal.
        induction l as [|x l IHl]; [done|]. simpl.
        rewrite IHl; [|set_solver]. apply delete_delete.
      * rewrite Hb', Hb1. rewrite owned_bufs_cons.
        rewrite (owned_bufs_ext _ _ _ Hext). set_solver.
Qed.

(** [queue_clear] empties a well-formed queue, whatever its length. *)
Lemma queue_clear_spec w l :
  is_queue w l →
  ∃ w', queue_clear w = Done w' ∧ is_queue w' [] ∧ same_sync w w' ∧
        trace w' = rev (release_log (heap w) l) ++ trace w ∧
        heap w' = foldr delete (heap w) l ∧
        bufs w' = bufs w ∖ list_to_set (owned_bufs (heap w) l).
Proof.
  intros Hq. apply queue_clear_loop_spec; [done|].
  eapply lseg_length_le; [apply (iq_seg _ _ Hq)|apply (iq_nodup _ _ Hq)].
Qed.

Lemma two_entries_is_queue : is_queue two_entries [1%positive; 2%positive].
Proof.
  constructor.
  - simpl. split; [done|]. rewrite lookup_insert_eq. simpl. split; [done|].
    rewrite lookup_insert_ne by done. rewrite lookup_insert_eq. done.
  - done.
  - apply NoDup_cons. split; [|apply NoDup_singleton].
    intros H. apply list_elem_of_singleton in H. done.
  - vm_compute. apply NoDup_singleton.
  - vm_compute. apply Forall_singleton. set_solver.
Qed.

Lemma is_queue_ends w l : is_queue w l → (first w = None ↔ last w = None).
Proof.
  intros Hq. destruct l as [|a l].
  - destruct (is_queue_nil_inv _ Hq) as [-> ->]. done.
  - destruct (is_queue_cons_inv _ _ _ Hq) as [-> _].
    destruct (first_nonnull _ _ Hq) as (t & l0 & _ & ->); done.
Qed.

Lemma release_log_entries h l a : EvFreeEntry a ∈ release_log h l ↔ a ∈ l.
Proof.
  induction l as [|x l IH].
  - rewrite release_log_nil. split; intros H; by apply elem_of_nil in H.
  - rewrite release_log_cons, elem_of_app, !elem_of_cons, IH, list_elem_of_fmap.
    split.
    + intros [(b & Hb & _)|[Hx|Hl]]; [done|left; congruence|by right].
    + intros [->|Hl]; [right; by left|right; by right].
Qed.

Lemma release_log_bufs h l b : EvFreeBuf b ∈ release_log h l ↔ b ∈ owned_bufs h l.
Proof.
  induction l as [|x l IH].
  - rewrite release_log_nil, owned_bufs_nil.
    split; intros H; by apply elem_of_nil in H.
  - rewrite release_log_cons, owned_bufs_cons, !elem_of_app, !elem_of_cons, IH,
      list_elem_of_fmap.
    split.
    + intros [(b' & Hb & Hin)|[Hx|Hl]]; [left; congruence|done|by right].
    + intros [Hin|Hl]; [left; eauto|right; by right].
Qed.

Lemma release_log_nodup h l :
  NoDup l → NoDup (owned_bufs h l) → NoDup (release_log h l).
Proof.
  induction l as [|x l IH]; intros Hl Hb.
  - rewrite release_log_nil. apply NoDup_nil_2.
  - rewrite release_log_cons. rewrite owned_bufs_cons in Hb.
    apply NoDup_cons in Hl as [Hx Hl]. apply NoDup_app in Hb as (Hb1 & Hb2 & Hb3).
    apply NoDup_app. split; [|split].
    + apply NoDup_fmap_2; [|done]. intros ?? [=]; done.
    + intros ev Hev. apply list_elem_of_fmap in Hev as (b & -> & Hb).
      rewrite elem_of_cons, release_log_bufs. intros [?|?]; [done|]. by eapply Hb2.
    + apply NoDup_cons. split; [by rewrite release_log_entries|by apply IH].
Qed.

(** C6. [queue_clear] on a well-formed queue returns with the queue empty
    ([first] and [last] both [NULL]), having freed the entries oldest
    first: for each the text buffer it owns (a [CMD_SPEAK_TEXT] entry with
    a buffer) and then the entry itself. No address is freed twice, every
    queued entry is freed, and the heap loses exactly the queued entries. *)
Theorem queue_clear_releases_every_entry w l :
  is_queue w l →
  ∃ w', queue_clear w = Done w' ∧
        first w' = None ∧ last w' = None ∧ is_queue w' [] ∧
        trace w' = rev (release_log (heap w) l) ++ trace w ∧
        NoDup (release_log (heap w) l) ∧
        (∀ a, a ∈ l ↔ EvFreeEntry a ∈ release_log (heap w) l) ∧
        heap w' = foldr delete (heap w) l ∧
        bufs w' = bufs w ∖ list_to_set (owned_bufs (heap w) l).
Proof.
  intros Hq.
  destruct (queue_clear_spec _ _ Hq) as (w' & Hc & Hq' & _ & Ht & Hh & Hb).
  exists w'. destruct (is_queue_nil_inv _ Hq') as [Hf Hl].
  repeat (split; [done|]). split; [|split; [|done]].
  - apply release_log_nodup; [apply (iq_nodup _ _ Hq)|apply (iq_bufs_nodup _ _ Hq)].
  - intros a. by rewrite release_log_entries.
Qed.

Lemma queue_clear_releases_every_entry_witness :
  ∃ w', queue_clear two_entries = Done w' ∧
        first w' = None ∧ last w' = None ∧ is_queue w' [] ∧
        trace w' = rev (release_log (heap two_entries) [1%positive; 2%positive])
                     ++ trace two_entries ∧
        NoDup (release_log (heap two_entries) [1%positive; 2%positive]) ∧
        (∀ a, a ∈ [1%positive; 2%positive] ↔
              EvFreeEntry a ∈ release_log (heap two_entries) [1%positive; 2%positive]) ∧
        heap w' = foldr delete (heap two_entries) [1%positive; 2%positive] ∧
        bufs w' = bufs two_entries ∖
                  list_to_set (owned_bufs (heap two_entries) [1%positive; 2%positive]).
Proof.
  apply (queue_clear_releases_every_entry two_entries [1%positive; 2%positive]).
  exact two_entries_is_queue.
Defined.

(** C7. [queue_remove] on a well-formed queue: when the queue is empty it
    returns the world as it was (nothing is freed, the queue stays empty);
    otherwise it unlinks the oldest entry and frees it, after the text
    buffer it owns, and the rest of the queue is what remains. *)
Theorem queue_remove_head_or_noop w l :
  is_queue w l →
  match l with
  | [] => queue_remove w = Done w
  | a :: l' =>
      ∃ w', queue_remove w = Done w' ∧ is_queue w' l' ∧
            trace w' = EvFreeEntry a :: (EvFreeBuf <$> owned (heap w) a) ++ trace w ∧
            heap w' = delete a (heap w) ∧
            bufs w' = bufs w ∖ list_to_set (owned (heap w) a)
  end.
Proof.
  intros Hq. destruct l as [|a l'].
  - by apply queue_remove_nil.
  - destruct (queue_remove_spec _ _ _ Hq) as (w' & ? & ? & ? & ? & ? & ?). eauto 10.
Qed.

Lemma queue_remove_head_or_noop_witness :
  (∃ w', queue_remove two_entries = Done w' ∧ is_queue w' [2%positive] ∧
         trace w' = EvFreeEntry 1%positive ::
                    (EvFreeBuf <$> owned (heap two_entries) 1%positive) ++
                    trace two_entries ∧
         heap w' = delete 1%positive (heap two_entries) ∧
         bufs w' = bufs two_entries ∖
                   list_to_set (owned (heap two_entries) 1%positive)).
Proof.
  apply (queue_remove_head_or_noop two_entries [1%positive; 2%positive]).
  exact two_entries_is_queue.
Defined.

Lemma alloc_entry_valid w l a e w1 :
  is_queue w l → dom (heap w) = list_to_set l →
  alloc_entry a e w = Some w1 →
  is_queue w1 l ∧ valid_entry w1 l a ∧ same_sync w w1 ∧ trace w1 = trace w ∧
  heap w1 = <[a := e]> (heap w).
Proof.
  intros Hq Hdom. unfold alloc_entry. case_decide as Hd; [|done].
  intros [= <-]. destruct Hd as [Ha Hfresh].
  assert (Hal : a ∉ l).
  { intros Hin. apply (elem_of_list_to_set (C := gset addr)) in Hin.
    rewrite <- Hdom in Hin. apply elem_of_dom in Hin. rewrite Ha in Hin.
    by destruct Hin. }
  assert (Hob : owned_bufs (<[a:=e]> (heap w)) l = owned_bufs (heap w) l).
  { apply owned_bufs_ext. intros x Hx. apply owned_insert_ne. by intros ->. }
  split; [|split; [|done]].
  - constructor; simpl; rewrite ?Hob.
    + apply lseg_insert_notin; [done|apply (iq_seg _ _ Hq)].
    + apply (iq_first _ _ Hq).
    + apply (iq_nodup _ _ Hq).
    + apply (iq_bufs_nodup _ _ Hq).
    + eapply Forall_impl; [apply (iq_bufs_live _ _ Hq)|]. simpl. set_solver.
  - split; [done|]. simpl. rewrite lookup_insert_eq, Hob.
    rewrite Forall_forall in Hfresh |- *. intros b Hb. split; [set_solver|].
    intros Hin. apply (Hfresh b Hb).
    pose proof (iq_bufs_live _ _ Hq) as Hl. rewrite Forall_forall in Hl. auto.
Qed.

Lemma foldr_delete_dom (h : gmap addr queue_entry_t) (l : list addr) :
  dom (foldr delete h l) = dom h ∖ list_to_set l.
Proof.
  induction l as [|x l IH]; simpl; [set_solver|].
  rewrite dom_delete_L, IH. set_solver.
Qed.

(** Freeing leaves [first] and [last] alone. *)
Lemma free_entry_ends p w w' :
  free_entry p w = Done w' → first w' = first w ∧ last w' = last w.
Proof.
  unfold free_entry. destruct (load p w) as [e| | |]; try done. simpl.
  assert (Hb : ∀ b w1, free_buf b w = Done w1 → first w1 = first w ∧ last w1 = last w).
  { intros b w1. unfold free_buf. destruct b as [x|]; [|by intros [= <-]].
    case_decide; [|done]. by intros [= <-]. }
  assert (Hn : ∀ w1 w2, first w1 = first w ∧ last w1 = last w →
                        free_node p w1 = Done w2 → first w2 = first w ∧ last w2 = last w).
  { intros w1 w2 [Hf Hl]. unfold free_node. destruct p as [x|]; [|by intros [= <-]].
    destruct (heap w1 !! x); [|done]. by intros [= <-]. }
  destruct (cmd e); simpl; try (apply Hn; done).
  destruct (free_buf (buf e) w) as [w1| | |] eqn:Hfb; try done. simpl.
  apply Hn. by eapply Hb.
Qed.

Lemma queue_add_ends p w w' :
  queue_add p w = Done w' → first w' ≠ None ∧ last w' ≠ None.
Proof.
  unfold queue_add, store_next. destruct p as [a|]; [|done].
  destruct (heap w !! a) as [e|]; [|done]. simpl.
  destruct (last w) as [t|] eqn:Hl; simpl;
    (destruct (first w) as [f|] eqn:Hf; simpl; rewrite ?Hf; simpl;
     [destruct (<[a:=with_next None e]> (heap w) !! f) as [ef|]; [|done]; simpl;
      rewrite ?Hf; simpl; rewrite lookup_insert_eq; simpl
     |]; intros [= <-]; simpl; rewrite ?Hl; done).
Qed.

Lemma queue_remove_ends w w' :
  (first w = None ↔ last w = None) → queue_remove w = Done w' →
  (first w' = None ↔ last w' = None).
Proof.
  intros Hinv. unfold queue_remove.
  destruct (last w) as [t|] eqn:Hl; [|by intros [= <-]; rewrite Hl].
  destruct (load (Some t) w) as [e| | |]; try done. simpl.
  intros Hf. apply free_entry_ends in Hf as [-> ->].
  destruct (next e) eqn:Hn; simpl; [|done].
  split; [|done]. intros Hfirst. apply Hinv in Hfirst. done.
Qed.

Lemma queue_clear_loop_ends fuel w w' :
  (first w = None ↔ last w = None) → queue_clear_loop fuel w = Done w' →
  (first w' = None ↔ last w' = None).
Proof.
  revert w. induction fuel as [|fuel IH]; intros w Hinv; simpl.
  - destruct (last w) eqn:Hl; [done|]. intros [= <-]. by rewrite Hl.
  - destruct (last w) as [t|] eqn:Hl; [|intros [= <-]; by rewrite Hl].
    destruct (load (Some t) w) as [e| | |]; try done. simpl.
    destruct (queue_remove w) as [w1| | |] eqn:Hr; try done. simpl.
    apply IH. eapply queue_remove_ends; [|exact Hr]. by rewrite Hl.
Qed.

Lemma two_entries_reachable : queue_reachable two_entries.
Proof.
  pose proof (qr_empty 1 None) as H.
  eapply (qr_alloc _ 1%positive text_entry) in H; [|vm_compute; reflexivity].
  eapply (qr_add _ (Some 1%positive)) in H; [|vm_compute; reflexivity].
  eapply (qr_alloc _ 2%positive rate_entry) in H; [|vm_compute; reflexivity].
  eapply (qr_add _ (Some 2%positive)) in H; [|vm_compute; reflexivity].
  exact H.
Qed.

(** C8. In every world that calls of [queue_add], [queue_remove] and
    [queue_clear] produce from the empty queue, [first] is [NULL] exactly
    when [last] is [NULL]: each of the three operations, when it returns,
    carries the invariant on. *)
Theorem first_null_iff_last_null w :
  queue_reachable w → (first w = None ↔ last w = None).
Proof.
  induction 1 as [run voice|w a e w' _ IH Hal|w p w' _ IH Hadd
                  |w w' _ IH Hrem|w w' _ IH Hcl].
  - done.
  - unfold alloc_entry in Hal. case_decide; [|done]. by injection Hal as <-.
  - destruct (queue_add_ends _ _ _ Hadd). split; intros; done.
  - by eapply queue_remove_ends.
  - by eapply queue_clear_loop_ends.
Qed.

Lemma first_null_iff_last_null_witness :
  first two_entries = None ↔ last two_entries = None.
Proof.
  apply (first_null_iff_last_null two_entries). exact two_entries_reachable.
Defined.

(** C9, amended. [queue_add] on a well-formed queue: a [NULL] argument
    fails the [assert], and no world comes out of the call; an entry
    that is allocated, not in the queue yet, and whose text buffer (if it
    owns one) is live and owned by no queued entry, is appended as the
    newest entry: the queue is one entry longer, the entries queued
    before it stay in place, and nothing is freed. *)
Theorem queue_add_asserts_entry w l (p : ptr) :
  is_queue w l →
  match p with
  | None => queue_add p w = AssertFail
  | Some a =>
      valid_entry w l a →
      ∃ w', queue_add p w = Done w' ∧ is_queue w' (l ++ [a]) ∧
            length (l ++ [a]) = S (length l) ∧
            trace w' = trace w ∧ dom (heap w') = dom (heap w)
  end.
Proof.
  intros Hq. destruct p as [a|]; [|done].
  intros Hv. destruct (queue_add_spec _ _ _ Hq Hv) as (w' & Hadd & Hq' & _ & Ht & _ & Hd & _).
  exists w'. repeat (split; [done|]). split; [|done].
  rewrite length_app. simpl. lia.
Qed.

Lemma third_allocated_is_queue : is_queue third_allocated [1%positive; 2%positive].
Proof.
  constructor.
  - simpl. split; [done|]. rewrite lookup_insert_ne by done.
    rewrite lookup_insert_eq. simpl. split; [done|].
    rewrite !lookup_insert_ne by done. rewrite lookup_insert_eq. done.
  - done.
  - apply (iq_nodup _ _ two_entries_is_queue).
  - vm_compute. apply NoDup_singleton.
  - vm_compute. apply Forall_singleton. set_solver.
Qed.

Lemma third_allocated_valid : valid_entry third_allocated [1%positive; 2%positive] 3%positive.
Proof.
  split.
  - intros H. apply elem_of_cons in H as [H|H]; [done|].
    apply list_elem_of_singleton in H. done.
  - simpl. rewrite lookup_insert_eq. apply Forall_nil_2.
Qed.

Lemma queue_add_asserts_entry_witness :
  queue_add None third_allocated = AssertFail ∧
  ∃ w', queue_add (Some 3%positive) third_allocated = Done w' ∧
        is_queue w' ([1%positive; 2%positive] ++ [3%positive]) ∧
        length ([1%positive; 2%positive] ++ [3%positive]) = S (length [1%positive; 2%positive]) ∧
        trace w' = trace third_allocated ∧
        dom (heap w') = dom (heap third_allocated).
Proof.
  split.
  - exact (queue_add_asserts_entry third_allocated [1%positive; 2%positive] None
             third_allocated_is_queue).
  - exact (queue_add_asserts_entry third_allocated [1%positive; 2%positive]
             (Some 3%positive) third_allocated_is_queue third_allocated_valid).
Defined.

(** ** The start of the espeak thread *)

Lemma to_unsigned_negative rate : - 2 ^ 31 ≤ rate < 0 → to_unsigned rate = rate + 2 ^ 32.
Proof.
  intros H. unfold to_unsigned.
  rewrite <- (Z.mod_add rate 1 (2 ^ 32)) by lia.
  rewrite Z.mod_small; lia.
Qed.

Ltac list_cases rets n :=
  match n with
  | O => idtac
  | S ?m => destruct rets as [|? rets]; [try discriminate|list_cases rets m]
  end.

#[local] Arguments runner_step : simpl never.
#[local] Arguments producer_step : simpl never.
#[local] Arguments queue_remove : simpl never.
#[local] Arguments queue_clear : simpl never.
#[local] Arguments queue_add : simpl never.

#[local] Arguments runner_run : simpl never.

Lemma runner_run_nil r w : runner_run [] r w = Some (r, w).
Proof. done. Qed.

Lemma runner_run_cons x rets r w :
  runner_run (x :: rets) r w =
  match runner_step x r w with
  | Stepped r' w' => runner_run rets r' w'
  | _ => None
  end.
Proof. done. Qed.

(** ** The steps of the runner, line by line *)

Ltac step_eq :=
  intros; unfold runner_step;
  repeat match goal with
         | H : rpc _ = _ |- _ => rewrite H
         | H : current _ = _ |- _ => rewrite H
         | H : heap _ !! _ = _ |- _ => rewrite H
         | H : dispatch _ = _ |- _ => rewrite H
         | H : defaultVoice _ = _ |- _ => rewrite H
         end;
  rewrite ?decide_True by tauto; rewrite ?decide_False by tauto; reflexivity.

Lemma step_L176 ret r w :
  rpc r = L176 → 
  runner_step ret r w = Stepped (at_loc L177 r) (log (EvCall select_audio_mode) w).
Proof. step_eq. Qed.

Lemma step_L177 ret r w :
  rpc r = L177 → 
  runner_step ret r w = Stepped (MkRunner L178 ret (current r) (error r)) (log (EvCall espeak_Initialize) w).
Proof. step_eq. Qed.

Lemma step_L178_neg ret r w :
  rpc r = L178 → rate r < 0 →
  runner_step ret r w = Stepped (at_loc L183 r) (set_should_run 0 (log (EvCall fprintf_stderr) w)).
Proof. step_eq. Qed.

Lemma step_L178_pos ret r w :
  rpc r = L178 → ¬ rate r < 0 →
  runner_step ret r w = Stepped (at_loc L183 r) w.
Proof. step_eq. Qed.

Lemma step_L183_neg ret r w :
  rpc r = L183 → ret < 0 →
  runner_step ret r w = Stepped (at_loc L188 r) (set_should_run 0 (log (EvCall (init_audio (to_unsigned (rate r)))) w)).
Proof. step_eq. Qed.

Lemma step_L183_pos ret r w :
  rpc r = L183 → ¬ ret < 0 →
  runner_step ret r w = Stepped (at_loc L188 r) (log (EvCall (init_audio (to_unsigned (rate r)))) w).
Proof. step_eq. Qed.

Lemma step_L188_some ret r w :
  rpc r = L188 → ∀ v, defaultVoice w = Some v →
  runner_step ret r w = Stepped (at_loc L193 r) (set_defaultVoice None (log EvFreeVoice (log (EvCall (set_voice v)) w))).
Proof. step_eq. Qed.

Lemma step_L188_none ret r w :
  rpc r = L188 → defaultVoice w = None →
  runner_step ret r w = Stepped (at_loc L193 r) w.
Proof. step_eq. Qed.

Lemma step_L193 ret r w :
  rpc r = L193 → 
  runner_step ret r w = Stepped (at_loc L194 r) (log (EvCall (set_frequency defaultFrequency ADJ_SET)) w).
Proof. step_eq. Qed.

Lemma step_L194 ret r w :
  rpc r = L194 → 
  runner_step ret r w = Stepped (at_loc L195 r) (log (EvCall (set_pitch defaultPitch ADJ_SET)) w).
Proof. step_eq. Qed.

Lemma step_L195 ret r w :
  rpc r = L195 → 
  runner_step ret r w = Stepped (at_loc L196 r) (log (EvCall (set_rate defaultRate ADJ_SET)) w).
Proof. step_eq. Qed.

Lemma step_L196 ret r w :
  rpc r = L196 → 
  runner_step ret r w = Stepped (at_loc L197 r) (log (EvCall (set_volume defaultVolume ADJ_SET)) w).
Proof. step_eq. Qed.

Lemma step_L197 ret r w :
  rpc r = L197 → 
  runner_step ret r w = Stepped (at_loc L199 r) (log (EvCall espeak_SetParameter_CAPITALS) w).
Proof. step_eq. Qed.

Lemma step_L199 ret r w :
  rpc r = L199 → 
  runner_step ret r w = of_option (at_loc L200 r) (mutex_lock Queue_guard Runner w).
Proof. step_eq. Qed.

Lemma step_L200_run ret r w :
  rpc r = L200 → should_run w ≠ 0 →
  runner_step ret r w = Stepped (at_loc L201 r) w.
Proof. step_eq. Qed.

Lemma step_L200_exit ret r w :
  rpc r = L200 → should_run w = 0 →
  runner_step ret r w = Stepped (at_loc L218 r) w.
Proof. step_eq. Qed.

Lemma step_L201 ret r w :
  rpc r = L201 → 
  runner_step ret r w = of_res (at_loc L201w r) (cond_wait Runner_awake Queue_guard Runner w).
Proof. step_eq. Qed.

Lemma step_L201w ret r w :
  rpc r = L201w → 
  runner_step ret r w = of_option (at_loc L203 r) (cond_wake Runner_awake Queue_guard Runner w).
Proof. step_eq. Qed.

Lemma step_L203_enter ret r w :
  rpc r = L203 → should_run w ≠ 0 → last w ≠ None → runner_must_stop w = 0 →
  runner_step ret r w = Stepped (at_loc L98 r) w.
Proof. step_eq. Qed.

Lemma step_L203_leave ret r w :
  rpc r = L203 → ¬ (should_run w ≠ 0 ∧ last w ≠ None ∧ runner_must_stop w = 0) →
  runner_step ret r w = Stepped (at_loc L208 r) w.
Proof. step_eq. Qed.

Lemma step_L98 ret r w :
  rpc r = L98 → 
  runner_step ret r w = of_res (MkRunner L101 (rate r) (last w) ret) (mutex_unlock Queue_guard Runner w).
Proof. step_eq. Qed.

Lemma step_L101_null ret r w :
  rpc r = L101 → current r = None →
  runner_step ret r w = Stepped (at_loc L205 r) w.
Proof. step_eq. Qed.

Lemma step_L101_call ret r w :
  rpc r = L101 → ∀ a e c, current r = Some a → heap w !! a = Some e → dispatch e = Some c →
  runner_step ret r w = Stepped (MkRunner L129 (rate r) (current r) ret) (log (EvCall c) (log (EvDispatch a) w)).
Proof. step_eq. Qed.

Lemma step_L101_skip ret r w :
  rpc r = L101 → ∀ a e, current r = Some a → heap w !! a = Some e → dispatch e = None →
  runner_step ret r w = Stepped (at_loc L129 r) (log (EvDispatch a) w).
Proof. step_eq. Qed.

Lemma step_L129 ret r w :
  rpc r = L129 → 
  runner_step ret r w = of_option (at_loc L130 r) (mutex_lock Queue_guard Runner w).
Proof. step_eq. Qed.

Lemma step_L130_ok ret r w :
  rpc r = L130 → error r = EE_OK →
  runner_step ret r w = of_res (at_loc L132 r) (queue_remove w).
Proof. step_eq. Qed.

Lemma step_L130_keep ret r w :
  rpc r = L130 → error r ≠ EE_OK →
  runner_step ret r w = Stepped (at_loc L132 r) w.
Proof. step_eq. Qed.

Lemma step_L132 ret r w :
  rpc r = L132 → 
  runner_step ret r w = of_res (at_loc L205 r) (mutex_unlock Queue_guard Runner w).
Proof. step_eq. Qed.

Lemma step_L205 ret r w :
  rpc r = L205 → 
  runner_step ret r w = of_option (at_loc L203 r) (mutex_lock Queue_guard Runner w).
Proof. step_eq. Qed.

Lemma step_L208_stop ret r w :
  rpc r = L208 → runner_must_stop w ≠ 0 →
  runner_step ret r w = Stepped (at_loc L209 r) w.
Proof. step_eq. Qed.

Lemma step_L208_go ret r w :
  rpc r = L208 → runner_must_stop w = 0 →
  runner_step ret r w = Stepped (at_loc L200 r) w.
Proof. step_eq. Qed.

Lemma step_L209 ret r w :
  rpc r = L209 → 
  runner_step ret r w = of_option (at_loc L210 r) (mutex_lock Stop_guard Runner w).
Proof. step_eq. Qed.

Lemma step_L210 ret r w :
  rpc r = L210 → 
  runner_step ret r w = of_res (at_loc L211 r) (queue_clear (log EvQueueClear w)).
Proof. step_eq. Qed.

Lemma step_L211 ret r w :
  rpc r = L211 → 
  runner_step ret r w = Stepped (at_loc L212 r) (log (EvCall stop_speech) w).
Proof. step_eq. Qed.

Lemma step_L212 ret r w :
  rpc r = L212 → 
  runner_step ret r w = Stepped (at_loc L213 r) (log (EvMustStop 0) (set_runner_must_stop 0 w)).
Proof. step_eq. Qed.

Lemma step_L213 ret r w :
  rpc r = L213 → 
  runner_step ret r w = of_res (at_loc L214 r) (mutex_unlock Stop_guard Runner w).
Proof. step_eq. Qed.

Lemma step_L214 ret r w :
  rpc r = L214 → 
  runner_step ret r w = Stepped (at_loc L200 r) (cond_signal Stop_acknowledged Runner w).
Proof. step_eq. Qed.

Lemma step_L218 ret r w :
  rpc r = L218 → 
  runner_step ret r w = Stepped (at_loc L219 r) (log (EvCall espeak_Terminate) w).
Proof. step_eq. Qed.

Lemma step_L219 ret r w :
  rpc r = L219 → 
  runner_step ret r w = Blocked.
Proof. step_eq. Qed.


#[local] Arguments runner_path : simpl never.
#[local] Arguments to_unsigned : simpl never.

Lemma runner_path_nil r w : runner_path [] r w = [rpc r].
Proof. done. Qed.

Lemma runner_path_cons x rets r w :
  runner_path (x :: rets) r w =
  rpc r :: match runner_step x r w with
           | Stepped r' w' => runner_path rets r' w'
           | _ => []
           end.
Proof. done. Qed.

Lemma mutex_lock_free m t w :
  owner m w = None →
  mutex_lock m t w = Some (log (EvLock m t) (set_owner m (Some t) w)).
Proof. intros H. unfold mutex_lock. by rewrite H. Qed.

Lemma mutex_lock_held m t t' w : owner m w = Some t' → mutex_lock m t w = None.
Proof. intros H. unfold mutex_lock. by rewrite H. Qed.

Lemma mutex_unlock_owner m t w :
  owner m w = Some t →
  mutex_unlock m t w = Done (log (EvUnlock m t) (set_owner m None w)).
Proof. intros H. unfold mutex_unlock. by rewrite decide_True. Qed.

Ltac rstep lem :=
  rewrite runner_run_cons, lem by (simpl; first [done | lia | tauto]);
  cbn [of_option of_res].

Ltac pstep lem :=
  rewrite runner_path_cons, lem by (simpl; first [done | lia | tauto]);
  cbn [of_option of_res].

(** Lines 193 to 219 with [should_run] cleared: the defaults are applied,
    the loop is skipped and the thread returns. *)
Lemma startup_defaults_run w r rets :
  rpc r = L193 → should_run w = 0 → queue_guard w = None →
  length rets = 8%nat →
  ∃ r' w', runner_run rets r w = Some (r', w') ∧ rpc r' = L219 ∧
    should_run w' = 0 ∧ defaultVoice w' = defaultVoice w ∧
    trace w' = rev (startup_defaults ++
                    [EvLock Queue_guard Runner; EvCall espeak_Terminate]) ++ trace w ∧
    runner_path rets r w = [L193; L194; L195; L196; L197; L199; L200; L218; L219].
Proof.
  intros Hpc Hsr Hqg Hlen.
  list_cases rets 8%nat. destruct rets; [|discriminate].
  eexists _, _. split; [|split; [|split; [|split; [|split]]]].
  - rstep step_L193. rstep step_L194. rstep step_L195. rstep step_L196.
    rstep step_L197. rstep step_L199.
    rewrite mutex_lock_free by done. cbn [of_option].
    rstep step_L200_exit. rstep step_L218. apply runner_run_nil.
  - done.
  - done.
  - done.
  - done.
  - pstep step_L193. pstep step_L194. pstep step_L195. pstep step_L196.
    pstep step_L197. pstep step_L199.
    rewrite mutex_lock_free by done. cbn [of_option].
    pstep step_L200_exit. pstep step_L218. by rewrite runner_path_nil, Hpc.
Qed.

(** Line 188 to the end with [should_run] cleared. *)
Lemma startup_tail w r rets :
  rpc r = L188 → should_run w = 0 → queue_guard w = None →
  length rets = 9%nat →
  ∃ r' w', runner_run rets r w = Some (r', w') ∧ rpc r' = L219 ∧
    should_run w' = 0 ∧ defaultVoice w' = None ∧
    trace w' = rev (voice_events (defaultVoice w) ++ startup_defaults ++
                    [EvLock Queue_guard Runner; EvCall espeak_Terminate]) ++ trace w ∧
    runner_path rets r w =
      [L188; L193; L194; L195; L196; L197; L199; L200; L218; L219].
Proof.
  intros Hpc Hsr Hqg Hlen.
  destruct rets as [|x rets]; [discriminate|]. simpl in Hlen.
  destruct (defaultVoice w) as [v|] eqn:Hv.
  - destruct (startup_defaults_run
                (set_defaultVoice None (log EvFreeVoice (log (EvCall (set_voice v)) w)))
                (at_loc L193 r) rets) as (r' & w' & Hrun & Hpc' & Hsr' & Hdv' & Htr' & Hpath);
      [done|done|done|lia|].
    exists r', w'. rstep (step_L188_some x r w Hpc v Hv). pstep (step_L188_some x r w Hpc v Hv).
    rewrite Hpath, Hrun, Hpc, Htr'. simpl in Hdv'.
    split_and!; done.
  - destruct (startup_defaults_run w (at_loc L193 r) rets)
      as (r' & w' & Hrun & Hpc' & Hsr' & Hdv' & Htr' & Hpath); [done|done|done|lia|].
    exists r', w'. rstep step_L188_none. pstep step_L188_none.
    rewrite Hpath, Hrun, Hpc, Htr'. split_and!; try done. congruence.
Qed.

(** Lines 176 to 183: the two initialisations. *)
Lemma startup_head w r x0 rate_ret x2 audio_ret :
  rpc r = L176 →
  ∃ r' w', runner_run [x0; rate_ret; x2; audio_ret] r w = Some (r', w') ∧
    rpc r' = L188 ∧ defaultVoice w' = defaultVoice w ∧
    queue_guard w' = queue_guard w ∧
    (rate_ret < 0 ∨ audio_ret < 0 → should_run w' = 0) ∧
    trace w' = rev ([EvCall select_audio_mode; EvCall espeak_Initialize] ++
                    (if decide (rate_ret < 0) then [EvCall fprintf_stderr] else []) ++
                    [EvCall (init_audio (to_unsigned rate_ret))]) ++ trace w ∧
    ∀ rets, runner_path (x0 :: rate_ret :: x2 :: audio_ret :: rets) r w =
            L176 :: L177 :: L178 :: L183 :: runner_path rets r' w'.
Proof.
  intros Hpc.
  destruct (decide (rate_ret < 0)) as [Hr|Hr];
    destruct (decide (audio_ret < 0)) as [Ha|Ha];
    eexists _, _; (split; [|split; [|split; [|split; [|split; [|split]]]]]).
  all: try (rstep step_L176; rstep step_L177;
            first [rstep step_L178_neg|rstep step_L178_pos];
            first [rstep step_L183_neg|rstep step_L183_pos];
            apply runner_run_nil).
  all: try (intros rets; pstep step_L176; pstep step_L177;
            first [pstep step_L178_neg|pstep step_L178_pos];
            first [pstep step_L183_neg|pstep step_L183_pos];
            by rewrite Hpc).
  all: try done.
  all: intros [?|?]; lia.
Qed.

Lemma runner_run_app l1 l2 r w :
  runner_run (l1 ++ l2) r w =
  match runner_run l1 r w with
  | Some (r', w') => runner_run l2 r' w'
  | None => None
  end.
Proof.
  revert r w. induction l1 as [|x l1 IH]; intros r w; [done|].
  rewrite <- app_comm_cons, !runner_run_cons.
  destruct (runner_step x r w); [apply IH|done..].
Qed.

Lemma startup_events_quiet rate_ret v :
  Forall (λ e, is_wait e = false ∧ is_dispatch e = false)
    (rev ([EvCall select_audio_mode; EvCall espeak_Initialize] ++
          (if decide (rate_ret < 0) then [EvCall fprintf_stderr] else []) ++
          [EvCall (init_audio (to_unsigned rate_ret))] ++
          voice_events v ++ startup_defaults ++
          [EvLock Queue_guard Runner; EvCall espeak_Terminate])).
Proof.
  apply Forall_rev. repeat apply Forall_app_2.
  - repeat constructor.
  - case_decide; repeat constructor.
  - repeat constructor.
  - destruct v; repeat constructor.
  - repeat constructor.
  - repeat constructor.
Qed.

(** C5. When [espeak_Initialize] or [init_audio] returns a negative value,
    the thread clears [should_run], passes from line 200 straight to
    [espeak_Terminate] and returns: no line of the serving loop (201 to
    214) is on its path, it never waits on [runner_awake] and dispatches
    no entry. *)
Theorem init_failure_skips_serving_loop w r rets rate_ret audio_ret :
  rpc r = L176 → queue_guard w = None → length rets = 13%nat →
  rets !! 1%nat = Some rate_ret → rets !! 3%nat = Some audio_ret →
  rate_ret < 0 ∨ audio_ret < 0 →
  ∃ r' w', runner_run rets r w = Some (r', w') ∧ rpc r' = L219 ∧
    should_run w' = 0 ∧
    runner_path rets r w =
      [L176; L177; L178; L183; L188; L193; L194; L195; L196; L197;
       L199; L200; L218; L219] ∧
    Forall (λ l, in_loop l = false) (runner_path rets r w) ∧
    (∃ new, trace w' = new ++ trace w ∧
            Forall (λ e, is_wait e = false ∧ is_dispatch e = false) new) ∧
    (∀ x, runner_step x r' w' = Blocked).
Proof.
  intros Hpc Hqg Hlen Hrate Haudio Hfail.
  destruct rets as [|x0 [|x1 [|x2 [|x3 rets]]]]; try discriminate.
  simpl in Hrate, Haudio, Hlen. injection Hrate as ->. injection Haudio as ->.
  destruct (startup_head w r x0 rate_ret x2 audio_ret Hpc)
    as (r1 & w1 & Hrun1 & Hpc1 & Hdv1 & Hqg1 & Hsr1 & Htr1 & Hpath1).
  destruct (startup_tail w1 r1 rets) as (r' & w' & Hrun & Hpc' & Hsr' & Hdv' & Htr' & Hpath);
    [done|auto|congruence|lia|].
  exists r', w'.
  change (x0 :: rate_ret :: x2 :: audio_ret :: rets)
    with ([x0; rate_ret; x2; audio_ret] ++ rets) at 1.
  rewrite runner_run_app, Hrun1, Hrun, Hpath1, Hpath.
  split_and!; try done.
  - repeat constructor.
  - exists (rev ([EvCall select_audio_mode; EvCall espeak_Initialize] ++
                 (if decide (rate_ret < 0) then [EvCall fprintf_stderr] else []) ++
                 [EvCall (init_audio (to_unsigned rate_ret))] ++
                 voice_events (defaultVoice w) ++ startup_defaults ++
                 [EvLock Queue_guard Runner; EvCall espeak_Terminate])).
    split; [|apply startup_events_quiet].
    rewrite Htr', Htr1, Hdv1, app_assoc, <- rev_app_distr.
    f_equal. f_equal. by rewrite <- !app_assoc.
  - intros x. by apply step_L219.
Qed.

Lemma init_failure_skips_serving_loop_witness :
  ∃ r' w', runner_run (start_rets 22050 (-1)) runner_start (init_world 1 None) = Some (r', w') ∧
    rpc r' = L219 ∧ should_run w' = 0 ∧
    runner_path (start_rets 22050 (-1)) runner_start (init_world 1 None) =
      [L176; L177; L178; L183; L188; L193; L194; L195; L196; L197;
       L199; L200; L218; L219] ∧
    Forall (λ l, in_loop l = false)
      (runner_path (start_rets 22050 (-1)) runner_start (init_world 1 None)) ∧
    (∃ new, trace w' = new ++ trace (init_world 1 None) ∧
            Forall (λ e, is_wait e = false ∧ is_dispatch e = false) new) ∧
    (∀ x, runner_step x r' w' = Blocked).
Proof.
  apply (init_failure_skips_serving_loop (init_world 1 None) runner_start
           (start_rets 22050 (-1)) 22050 (-1)); try reflexivity.
  right. lia.
Defined.

(** C10. When [espeak_Initialize] returns a negative rate, the thread
    still calls [init_audio], with the rate converted to [unsigned int]
    (the rate plus 2^32), still applies the default voice if one is set
    (and frees it), and the default frequency, pitch, rate and volume, in
    this order, before it skips the loop, calls [espeak_Terminate] and
    returns. *)
Theorem engine_failure_still_initialises w r rets rate_ret :
  rpc r = L176 → queue_guard w = None → length rets = 13%nat →
  rets !! 1%nat = Some rate_ret → - 2 ^ 31 ≤ rate_ret < 0 →
  ∃ r' w', runner_run rets r w = Some (r', w') ∧ rpc r' = L219 ∧
    should_run w' = 0 ∧ defaultVoice w' = None ∧
    trace w' =
      rev ([EvCall select_audio_mode; EvCall espeak_Initialize;
            EvCall fprintf_stderr; EvCall (init_audio (rate_ret + 2 ^ 32))] ++
           match defaultVoice w with
           | Some v => [EvCall (set_voice v); EvFreeVoice]
           | None => []
           end ++
           [EvCall (set_frequency defaultFrequency ADJ_SET);
            EvCall (set_pitch defaultPitch ADJ_SET);
            EvCall (set_rate defaultRate ADJ_SET);
            EvCall (set_volume defaultVolume ADJ_SET);
            EvCall espeak_SetParameter_CAPITALS;
            EvLock Queue_guard Runner;
            EvCall espeak_Terminate]) ++ trace w ∧
    runner_path rets r w =
      [L176; L177; L178; L183; L188; L193; L194; L195; L196; L197;
       L199; L200; L218; L219].
Proof.
  intros Hpc Hqg Hlen Hrate Hneg.
  destruct rets as [|x0 [|x1 [|x2 [|x3 rets]]]]; try discriminate.
  simpl in Hrate, Hlen. injection Hrate as ->.
  destruct (startup_head w r x0 rate_ret x2 x3 Hpc)
    as (r1 & w1 & Hrun1 & Hpc1 & Hdv1 & Hqg1 & Hsr1 & Htr1 & Hpath1).
  destruct (startup_tail w1 r1 rets) as (r' & w' & Hrun & Hpc' & Hsr' & Hdv' & Htr' & Hpath);
    [done|apply Hsr1; lia|congruence|lia|].
  exists r', w'.
  change (x0 :: rate_ret :: x2 :: x3 :: rets)
    with ([x0; rate_ret; x2; x3] ++ rets) at 1.
  rewrite runner_run_app, Hrun1, Hrun, Hpath1, Hpath.
  split_and!; try done.
  rewrite Htr', Htr1, Hdv1, app_assoc, <- rev_app_distr.
  rewrite decide_True by lia. rewrite to_unsigned_negative by done.
  f_equal.
Qed.

Lemma engine_failure_still_initialises_witness :
  ∃ r' w', runner_run (start_rets (-1) 0) runner_start (init_world 1 (Some "en"%string))
           = Some (r', w') ∧ rpc r' = L219 ∧
    should_run w' = 0 ∧ defaultVoice w' = None ∧
    trace w' =
      rev ([EvCall select_audio_mode; EvCall espeak_Initialize;
            EvCall fprintf_stderr; EvCall (init_audio (-1 + 2 ^ 32))] ++
           match defaultVoice (init_world 1 (Some "en"%string)) with
           | Some v => [EvCall (set_voice v); EvFreeVoice]
           | None => []
           end ++
           [EvCall (set_frequency defaultFrequency ADJ_SET);
            EvCall (set_pitch defaultPitch ADJ_SET);
            EvCall (set_rate defaultRate ADJ_SET);
            EvCall (set_volume defaultVolume ADJ_SET);
            EvCall espeak_SetParameter_CAPITALS;
            EvLock Queue_guard Runner;
            EvCall espeak_Terminate]) ++ trace (init_world 1 (Some "en"%string)) ∧
    runner_path (start_rets (-1) 0) runner_start (init_world 1 (Some "en"%string)) =
      [L176; L177; L178; L183; L188; L193; L194; L195; L196; L197;
       L199; L200; L218; L219].
Proof.
  apply (engine_failure_still_initialises (init_world 1 (Some "en"%string)) runner_start
           (start_rets (-1) 0) (-1)); try reflexivity.
  lia.
Defined.

(** ** The flush on a stop request: lines 208 to 214 *)

Lemma is_queue_ext w w' l :
  heap w' = heap w → bufs w' = bufs w → first w' = first w → last w' = last w →
  is_queue w l → is_queue w' l.
Proof.
  intros Hh Hb Hf Hl [H1 H2 H3 H4 H5].
  constructor; rewrite ?Hh, ?Hb, ?Hf, ?Hl; done.
Qed.

Lemma happens_before_intro x y t1 t2 t3 :
  happens_before x y (t1 ++ y :: t2 ++ x :: t3) = true.
Proof.
  induction t1 as [|e t1 IH]; simpl.
  - rewrite bool_decide_eq_true_2 by done.
    rewrite bool_decide_eq_true_2; [done|].
    apply elem_of_app. right. by left.
  - rewrite IH. apply orb_true_r.
Qed.

Lemma stop_pending_is_queue : is_queue stop_pending [1%positive; 2%positive].
Proof. by apply (is_queue_ext two_entries); [..|apply two_entries_is_queue]. Qed.

(** C1, as the spec words it, fails: on the queue of [stop_pending] the
    runner's flush does not put the engine abort before the clearing of the
    queue. *)
Lemma spec_flush_order_fails :
  ∃ r' w', runner_run [0; 0; 0; 0; 0; 0; 0] (MkRunner L208 0 None 0) stop_pending
           = Some (r', w') ∧
           spec_flush_order (trace w') = false.
Proof.
  eexists _, _. split; vm_compute; reflexivity.
Qed.

(** C1, amended. When the runner finds [runner_must_stop] set at line 208,
    and [stop_guard] is free, it takes [stop_guard], clears the queue
    (freeing every entry), then calls [stop_speech], then resets
    [runner_must_stop], releases [stop_guard] and signals
    [stop_acknowledged], in this order. *)
Theorem flush_clears_then_aborts w r l rets :
  rpc r = L208 → runner_must_stop w ≠ 0 → stop_guard w = None →
  is_queue w l → length rets = 7%nat →
  ∃ r' w', runner_run rets r w = Some (r', w') ∧ rpc r' = L200 ∧
    trace w' =
      EvSignal Stop_acknowledged Runner :: EvUnlock Stop_guard Runner ::
      EvMustStop 0 :: EvCall stop_speech ::
      rev (release_log (heap w) l) ++
      EvQueueClear :: EvLock Stop_guard Runner :: trace w ∧
    flush_order (trace w') = true ∧
    is_queue w' [] ∧ runner_must_stop w' = 0 ∧
    stop_guard w' = None ∧ stop_acknowledged w' = None ∧
    runner_path rets r w = [L208; L209; L210; L211; L212; L213; L214; L200].
Proof.
  intros Hpc Hflag Hsg Hq Hlen.
  list_cases rets 7%nat. destruct rets; [|discriminate].
  set (w1 := log EvQueueClear (log (EvLock Stop_guard Runner)
                                 (set_owner Stop_guard (Some Runner) w))).
  assert (Hq1 : is_queue w1 l) by (by apply (is_queue_ext w)).
  destruct (queue_clear_spec _ _ Hq1) as (w2 & Hc & Hq2 & Hs2 & Ht2 & Hh2 & Hb2).
  destruct Hs2 as (Hms & Hsr & Hdv & Hqg & Hsg2 & Hra & Hsa).
  set (w3 := log (EvMustStop 0) (set_runner_must_stop 0 (log (EvCall stop_speech) w2))).
  assert (Hrun : runner_run [z; z0; z1; z2; z3; z4; z5] r w =
                 Some (at_loc L200 (at_loc L214 (at_loc L213 (at_loc L212 (at_loc L211
                         (at_loc L210 (at_loc L209 r)))))),
                       cond_signal Stop_acknowledged Runner
                         (log (EvUnlock Stop_guard Runner) (set_owner Stop_guard None w3)))).
  { rstep step_L208_stop. rstep step_L209. rewrite mutex_lock_free by done. cbn [of_option].
    rstep step_L210. fold w1. rewrite Hc. cbn [of_res].
    rstep step_L211. rstep step_L212. fold w3. rstep step_L213.
    rewrite mutex_unlock_owner by (simpl; by rewrite Hsg2). cbn [of_res].
    rstep step_L214. apply runner_run_nil. }
  eexists _, _. split; [exact Hrun|].
  assert (Htr : trace (cond_signal Stop_acknowledged Runner
                         (log (EvUnlock Stop_guard Runner) (set_owner Stop_guard None w3))) =
                EvSignal Stop_acknowledged Runner :: EvUnlock Stop_guard Runner ::
                EvMustStop 0 :: EvCall stop_speech ::
                rev (release_log (heap w) l) ++
                EvQueueClear :: EvLock Stop_guard Runner :: trace w).
  { simpl. rewrite Ht2. done. }
  split; [done|]. split; [exact Htr|]. split; [|split; [|split; [done|split; [done|split; [done|]]]]].
  - rewrite Htr. unfold flush_order.
    apply andb_true_intro. split; [apply andb_true_intro; split|].
    + apply (happens_before_intro EvQueueClear (EvCall stop_speech)
               [EvSignal Stop_acknowledged Runner; EvUnlock Stop_guard Runner; EvMustStop 0]
               (rev (release_log (heap w) l)) (EvLock Stop_guard Runner :: trace w)).
    + apply (happens_before_intro (EvCall stop_speech) (EvMustStop 0)
               [EvSignal Stop_acknowledged Runner; EvUnlock Stop_guard Runner]
               [] (rev (release_log (heap w) l) ++
                   EvQueueClear :: EvLock Stop_guard Runner :: trace w)).
    + apply (happens_before_intro (EvMustStop 0) (EvSignal Stop_acknowledged Runner)
               [] [EvUnlock Stop_guard Runner]
               (EvCall stop_speech :: rev (release_log (heap w) l) ++
                   EvQueueClear :: EvLock Stop_guard Runner :: trace w)).
  - by apply (is_queue_ext w2).
  - pstep step_L208_stop. pstep step_L209. rewrite mutex_lock_free by done. cbn [of_option].
    pstep step_L210. fold w1. rewrite Hc. cbn [of_res].
    pstep step_L211. pstep step_L212. fold w3. pstep step_L213.
    rewrite mutex_unlock_owner by (simpl; by rewrite Hsg2). cbn [of_res].
    pstep step_L214. by rewrite runner_path_nil, Hpc.
Qed.

Lemma flush_clears_then_aborts_witness :
  ∃ r' w', runner_run [0; 0; 0; 0; 0; 0; 0] (MkRunner L208 0 None 0) stop_pending
           = Some (r', w') ∧ rpc r' = L200 ∧
    trace w' =
      EvSignal Stop_acknowledged Runner :: EvUnlock Stop_guard Runner ::
      EvMustStop 0 :: EvCall stop_speech ::
      rev (release_log (heap stop_pending) [1%positive; 2%positive]) ++
      EvQueueClear :: EvLock Stop_guard Runner :: trace stop_pending ∧
    flush_order (trace w') = true ∧
    is_queue w' [] ∧ runner_must_stop w' = 0 ∧
    stop_guard w' = None ∧ stop_acknowledged w' = None ∧
    runner_path [0; 0; 0; 0; 0; 0; 0] (MkRunner L208 0 None 0) stop_pending
      = [L208; L209; L210; L211; L212; L213; L214; L200].
Proof.
  apply (flush_clears_then_aborts stop_pending (MkRunner L208 0 None 0)
           [1%positive; 2%positive] [0; 0; 0; 0; 0; 0; 0]); try done.
  exact stop_pending_is_queue.
Defined.

(** ** One entry through [queue_process_entry]: lines 98 to 132 *)

Lemma filter_free_bufs (bs : list addr) : filter is_call (EvFreeBuf <$> bs) = [].
Proof. induction bs as [|b bs IH]; [done|]. rewrite fmap_cons, filter_cons. done. Qed.

(** An entry whose kind makes an engine call is removed exactly when the
    call returns [EE_OK]; otherwise it stays the oldest entry. *)
Lemma queue_process_entry_call w r a l e c u ret x2 x3 x4 :
  rpc r = L98 → queue_guard w = Some Runner →
  is_queue w (a :: l) → heap w !! a = Some e → dispatch e = Some c →
  ∃ r' w', runner_run [u; ret; x2; x3; x4] r w = Some (r', w') ∧
    rpc r' = L205 ∧ queue_guard w' = None ∧
    filter is_call (trace w') = EvCall c :: filter is_call (trace w) ∧
    (ret = EE_OK → is_queue w' l ∧ heap w' = delete a (heap w)) ∧
    (ret ≠ EE_OK → is_queue w' (a :: l) ∧ heap w' = heap w).
Proof.
  intros Hpc Hqg Hq Ha Hd.
  destruct (is_queue_cons_inv _ _ _ Hq) as (Hl & _).
  set (w1 := log (EvUnlock Queue_guard Runner) (set_owner Queue_guard None w)).
  set (w2 := log (EvCall c) (log (EvDispatch a) w1)).
  set (w3 := log (EvLock Queue_guard Runner) (set_owner Queue_guard (Some Runner) w2)).
  assert (Hq3 : is_queue w3 (a :: l)) by (by apply (is_queue_ext w)).
  assert (Hstart : ∀ k,
    runner_run (u :: ret :: x2 :: k) r w =
    runner_run k (at_loc L130 (MkRunner L129 (rate r) (Some a) ret)) w3).
  { intros k. rstep step_L98. rewrite mutex_unlock_owner by done. cbn [of_res].
    rewrite Hl. fold w1.
    rewrite runner_run_cons,
      (step_L101_call ret (MkRunner L101 (rate r) (Some a) u) w1 eq_refl a e c eq_refl Ha Hd).
    fold w2. rstep step_L129. rewrite mutex_lock_free by done. done. }
  rewrite Hstart. destruct (decide (ret = EE_OK)) as [Hok|Hne].
  - destruct (queue_remove_spec _ _ _ Hq3) as (w4 & Hr & Hq4 & Hs4 & Ht4 & Hh4 & Hb4).
    destruct Hs4 as (_ & _ & _ & Hqg4 & _).
    eexists _, _. split.
    { rstep step_L130_ok. rewrite Hr. cbn [of_res].
      rstep step_L132. rewrite mutex_unlock_owner by (simpl; by rewrite Hqg4).
      apply runner_run_nil. }
    split; [done|]. split; [done|]. split.
    { simpl. rewrite Ht4. simpl.
      rewrite !filter_cons, filter_app. simpl.
      rewrite filter_free_bufs. simpl. by rewrite !filter_cons. }
    split; [|done]. intros _. split; [by apply (is_queue_ext w4)|]. simpl. by rewrite Hh4.
  - eexists _, _. split.
    { rstep step_L130_keep. rstep step_L132. rewrite mutex_unlock_owner by done.
      apply runner_run_nil. }
    split; [done|]. split; [done|]. split; [done|].
    split; [done|]. intros _. split; [by apply (is_queue_ext w)|done].
Qed.

Lemma voice_queued_is_queue : is_queue voice_queued [1%positive].
Proof.
  constructor.
  - simpl. split; [done|]. rewrite lookup_singleton_eq. done.
  - done.
  - apply NoDup_singleton.
  - vm_compute. apply NoDup_nil_2.
  - vm_compute. apply Forall_nil_2.
Qed.

(** C3 at a [CMD_SET_VOICE] entry: [queue_process_entry] makes no engine
    call and line 130 tests the local [error] that nothing has assigned.
    With the indeterminate value [u] the entry is removed when [u] happens
    to be [EE_OK] and stays the oldest entry otherwise. *)
Theorem set_voice_removal_is_indeterminate (u x1 x2 x3 x4 : Z) :
  ∃ r' w', runner_run [u; x1; x2; x3; x4] (MkRunner L98 0 None 0) voice_queued
           = Some (r', w') ∧
    rpc r' = L205 ∧ filter is_call (trace w') = [] ∧
    filter is_dispatch (trace w') = [EvDispatch 1%positive] ∧
    (u = EE_OK → is_queue w' [] ∧ heap w' = ∅) ∧
    (u ≠ EE_OK → is_queue w' [1%positive] ∧ heap w' = heap voice_queued).
Proof.
  set (w1 := log (EvUnlock Queue_guard Runner) (set_owner Queue_guard None voice_queued)).
  set (w2 := log (EvDispatch 1%positive) w1).
  set (w3 := log (EvLock Queue_guard Runner) (set_owner Queue_guard (Some Runner) w2)).
  assert (Hq3 : is_queue w3 [1%positive])
    by (by apply (is_queue_ext voice_queued); [..|apply voice_queued_is_queue]).
  assert (Hstart : ∀ k,
    runner_run (u :: x1 :: x2 :: k) (MkRunner L98 0 None 0) voice_queued =
    runner_run k (at_loc L130 (at_loc L129 (MkRunner L101 0 (Some 1%positive) u))) w3).
  { intros k. rstep step_L98. rewrite mutex_unlock_owner by done. cbn [of_res].
    fold w1. cbn [rate last voice_queued].
    rewrite runner_run_cons,
      (step_L101_skip x1 (MkRunner L101 0 (Some 1%positive) u) w1 eq_refl
         1%positive voice_entry eq_refl eq_refl eq_refl).
    fold w2. rstep step_L129. rewrite mutex_lock_free by done. done. }
  rewrite Hstart. destruct (decide (u = EE_OK)) as [Hok|Hne].
  - destruct (queue_remove_spec _ _ _ Hq3) as (w4 & Hr & Hq4 & Hs4 & Ht4 & Hh4 & Hb4).
    destruct Hs4 as (_ & _ & _ & Hqg4 & _).
    eexists _, _. split.
    { rstep step_L130_ok. rewrite Hr. cbn [of_res].
      rstep step_L132. rewrite mutex_unlock_owner by (simpl; by rewrite Hqg4).
      apply runner_run_nil. }
    split; [done|]. simpl. rewrite Ht4.
    split; [done|]. split; [done|]. split; [|done].
    intros _. split; [by apply (is_queue_ext w4)|]. rewrite Hh4. done.
  - eexists _, _. split.
    { rstep step_L130_keep. rstep step_L132. rewrite mutex_unlock_owner by done.
      apply runner_run_nil. }
    split; [done|]. split; [done|]. split; [done|]. split; [done|].
    intros _. split; [|done]. by apply (is_queue_ext voice_queued); [..|apply voice_queued_is_queue].
Qed.

(** * The two threads together: the invariant *)

(** The queue operations leave mutexes, condition variables and flags
    alone, whatever the queue looks like. *)
Lemma store_next_sync p n w w' : store_next p n w = Done w' → same_sync w w'.
Proof.
  unfold store_next. destruct p as [a|]; [|done].
  destruct (heap w !! a); [|done]. intros [= <-]. by unfold same_sync.
Qed.

Lemma free_buf_sync b w w' : free_buf b w = Done w' → same_sync w w'.
Proof.
  unfold free_buf. destruct b as [a|]; [|intros [= <-]; apply same_sync_refl].
  case_decide; [|done]. intros [= <-]. by unfold same_sync.
Qed.

Lemma free_node_sync p w w' : free_node p w = Done w' → same_sync w w'.
Proof.
  unfold free_node. destruct p as [a|]; [|intros [= <-]; apply same_sync_refl].
  destruct (heap w !! a); [|done]. intros [= <-]. by unfold same_sync.
Qed.

Lemma free_entry_sync p w w' : free_entry p w = Done w' → same_sync w w'.
Proof.
  unfold free_entry. destruct (load p w) as [e| | |] eqn:He; try done. simpl.
  destruct (cmd e); simpl; try apply free_node_sync.
  destruct (free_buf (buf e) w) as [w1| | |] eqn:Hb; try done. simpl.
  intros Hn. eapply same_sync_trans; [by eapply free_buf_sync|by eapply free_node_sync].
Qed.

Lemma queue_remove_sync w w' : queue_remove w = Done w' → same_sync w w'.
Proof.
  unfold queue_remove. destruct (last w) as [a|] eqn:Hl; [|intros [= <-]; apply same_sync_refl].
  destruct (load (Some a) w) as [e| | |] eqn:He; try done. simpl.
  intros Hf. apply free_entry_sync in Hf.
  eapply same_sync_trans; [|exact Hf]. destruct (next e); by unfold same_sync.
Qed.

Lemma queue_clear_loop_sync fuel w w' :
  queue_clear_loop fuel w = Done w' → same_sync w w'.
Proof.
  revert w. induction fuel as [|fuel IH]; intros w; simpl.
  - destruct (last w); [done|]. intros [= <-]. apply same_sync_refl.
  - destruct (last w) as [a|] eqn:Hl; [|intros [= <-]; apply same_sync_refl].
    destruct (load (Some a) w) as [e| | |]; try done. simpl.
    destruct (queue_remove w) as [w1| | |] eqn:Hr; try done. simpl.
    intros Hc. eapply same_sync_trans; [by eapply queue_remove_sync|by eapply IH].
Qed.

Lemma queue_clear_sync w w' : queue_clear w = Done w' → same_sync w w'.
Proof. apply queue_clear_loop_sync. Qed.

Lemma queue_add_sync p w w' : queue_add p w = Done w' → same_sync w w'.
Proof.
  unfold queue_add. destruct p as [a|]; [|done].
  destruct (store_next (Some a) None w) as [w1| | |] eqn:H1; try done. simpl.
  apply store_next_sync in H1.
  set (w2 := match last w1 with None => set_last (Some a) w1 | Some _ => w1 end).
  assert (H2 : same_sync w w2).
  { eapply same_sync_trans; [exact H1|]. unfold w2. destruct (last w1); by unfold same_sync. }
  clearbody w2. destruct (first w2) as [f|] eqn:Hf.
  - destruct (store_next (Some f) (Some a) w2) as [w3| | |] eqn:H3; try done. simpl.
    apply store_next_sync in H3.
    destruct (load (first w3) w3) as [e| | |]; try done. simpl. intros [= <-].
    eapply same_sync_trans; [exact H2|]. eapply same_sync_trans; [exact H3|].
    by unfold same_sync.
  - intros [= <-]. eapply same_sync_trans; [exact H2|]. by unfold same_sync.
Qed.

Lemma elem_of_all_sync x : x ∈ all_sync.
Proof.
  destruct x as [rl pl qg sg ra sa fl]. unfold all_sync.
  apply list_elem_of_bind. exists rl. split; [|apply elem_of_enum].
  apply list_elem_of_bind. exists pl. split; [|apply elem_of_enum].
  apply list_elem_of_bind. exists qg. split; [|apply elem_of_enum].
  apply list_elem_of_bind. exists sg. split; [|apply elem_of_enum].
  apply list_elem_of_bind. exists ra. split; [|apply elem_of_enum].
  apply list_elem_of_bind. exists sa. split; [|apply elem_of_enum].
  apply list_elem_of_bind. exists fl. split; [|apply elem_of_enum].
  by apply list_elem_of_singleton.
Qed.

Lemma sync_ok_step :
  ∀ x, sync_ok x → Forall sync_ok (sync_runner x ++ sync_producer x).
Proof.
  assert (H : Forall (λ x, sync_ok x → Forall sync_ok (sync_runner x ++ sync_producer x))
                     all_sync) by compute_done.
  intros x. rewrite Forall_forall in H. apply H, elem_of_all_sync.
Qed.


Ltac inv_step H :=
  unfold of_option, of_res, mutex_lock, mutex_unlock, cond_wait, cond_wake,
    cond_signal, alloc_entry in H; simpl in H;
  repeat match type of H with
         | context [decide ?P] => destruct (decide P); simpl in H
         | context [match queue_guard ?w with _ => _ end] =>
             destruct (queue_guard w) eqn:?; simpl in H
         | context [match stop_guard ?w with _ => _ end] =>
             destruct (stop_guard w) eqn:?; simpl in H
         | context [match defaultVoice ?w with _ => _ end] =>
             destruct (defaultVoice w) eqn:?; simpl in H
         | context [match ?h !! ?a with _ => _ end] =>
             destruct (h !! a) eqn:?; simpl in H
         | context [match dispatch ?e with _ => _ end] =>
             destruct (dispatch e) eqn:?; simpl in H
         | context [queue_remove ?w] =>
             let Hr := fresh "Hr" in
             destruct (queue_remove w) eqn:Hr; simpl in H
         | context [queue_clear ?w] =>
             let Hr := fresh "Hr" in
             destruct (queue_clear w) eqn:Hr; simpl in H
         | context [queue_add ?p ?w] =>
             let Hr := fresh "Hr" in
             destruct (queue_add p w) eqn:Hr; simpl in H
         | context [match ?c with Some _ => _ | None => _ end] =>
             is_var c; destruct c; simpl in H
         end;
  try discriminate H.

Ltac sync_fields :=
  repeat match goal with
         | H : queue_remove _ = Done _ |- _ =>
             apply queue_remove_sync in H; destruct H as (? & ? & ? & ? & ? & ? & ?)
         | H : queue_clear _ = Done _ |- _ =>
             apply queue_clear_sync in H; destruct H as (? & ? & ? & ? & ? & ? & ?)
         | H : queue_add _ _ = Done _ |- _ =>
             apply queue_add_sync in H; destruct H as (? & ? & ? & ? & ? & ? & ?)
         end;
  unfold sync_of, sync_runner, sync_producer, with_rl, with_pl; simpl in *;
  repeat match goal with
         | H : ?x = _ |- context [?x] => rewrite H
         end;
  simpl;
  repeat (case_bool_decide; simpl); repeat (case_decide; simpl);
  try done; try lia; try tauto;
  try (by repeat constructor).

Lemma sync_of_runner_step ret w r p r' w' :
  runner_step ret r w = Stepped r' w' →
  sync_of (MkState w' r' p) ∈ sync_runner (sync_of (MkState w r p)).
Proof.
  intros Hstep. destruct r as [rl rt cur err].
  unfold runner_step in Hstep. simpl in Hstep.
  destruct rl; inv_step Hstep; injection Hstep as <- <-.
  all: sync_fields.
Qed.

Lemma sync_of_producer_step c w r p p' w' :
  producer_step c p w = Stepped p' w' →
  sync_of (MkState w' r p') ∈ sync_producer (sync_of (MkState w r p)).
Proof.
  intros Hstep. destruct p as [pl ent].
  unfold producer_step in Hstep. simpl in Hstep.
  destruct pl; try destruct c; inv_step Hstep; injection Hstep as <- <-.
  all: sync_fields.
Qed.

Lemma sync_inv_init run voice : sync_inv (init_state run voice).
Proof. by compute_done. Qed.

Lemma sync_inv_step s s' : sync_inv s → step s s' → sync_inv s'.
Proof.
  intros Hs [l Hl]. pose proof (sync_ok_step _ Hs) as Hall.
  rewrite Forall_forall in Hall. destruct s as [w r p]. destruct l as [ret|c|]; simpl in Hl.
  - destruct (runner_step ret r w) as [r' w'| |] eqn:Hr; try done.
    injection Hl as <-. apply Hall, elem_of_app. left. by eapply sync_of_runner_step.
  - destruct (producer_step c p w) as [p' w'| |] eqn:Hp; try done.
    injection Hl as <-. apply Hall, elem_of_app. right. by eapply sync_of_producer_step.
  - injection Hl as <-. exact Hs.
Qed.

Lemma sync_inv_reachable s : reachable s → sync_inv s.
Proof.
  induction 1 as [run voice|s s' _ IH Hstep]; [apply sync_inv_init|].
  by eapply sync_inv_step.
Qed.

(** ** The trace functions under new events *)

Lemma enqueued_cons e tr :
  enqueued (e :: tr) =
  enqueued tr ++ match e with EvEnqueue a => [a] | _ => [] end.
Proof. unfold enqueued. destruct e; simpl; by rewrite ?app_nil_r. Qed.

Lemma released_cons e tr :
  released (e :: tr) =
  released tr ++ match e with EvFreeEntry a => [a] | _ => [] end.
Proof. unfold released. destruct e; simpl; by rewrite ?app_nil_r. Qed.

Lemma enqueued_neutral evs tr :
  forallb neutral evs = true → enqueued (evs ++ tr) = enqueued tr.
Proof.
  induction evs as [|e evs IH]; [done|]. simpl. intros H.
  apply andb_prop in H as [He H]. rewrite enqueued_cons, IH by done.
  destruct e; try done; by rewrite app_nil_r.
Qed.

Lemma released_neutral evs tr :
  forallb neutral evs = true → released (evs ++ tr) = released tr.
Proof.
  induction evs as [|e evs IH]; [done|]. simpl. intros H.
  apply andb_prop in H as [He H]. rewrite released_cons, IH by done.
  destruct e; try done; by rewrite app_nil_r.
Qed.

Lemma fresh_neutral evs tr :
  forallb neutral evs = true → fresh (evs ++ tr) = fresh tr.
Proof.
  induction evs as [|e evs IH]; [done|]. simpl. intros H.
  apply andb_prop in H as [He H]. destruct e; try done; by apply IH.
Qed.

Lemma clean_neutral evs tr :
  forallb neutral evs = true → clean tr → clean (evs ++ tr).
Proof.
  induction evs as [|e evs IH]; [done|]. simpl. intros H Hc.
  apply andb_prop in H as [He H]. destruct e; try done; by apply IH.
Qed.

Lemma in_order_neutral evs tr :
  forallb neutral evs = true → in_order tr → in_order (evs ++ tr).
Proof.
  induction evs as [|e evs IH]; [done|]. simpl. intros H Hc.
  apply andb_prop in H as [He H]. destruct e; try done; by apply IH.
Qed.

Lemma free_bufs_neutral (bs : list addr) :
  forallb neutral (rev (EvFreeBuf <$> bs)) = true.
Proof.
  apply forallb_forall. intros e He. apply in_rev, list_elem_of_In in He.
  apply list_elem_of_fmap in He as (b & -> & _). done.
Qed.

Lemma rev_release_log_cons h a l tr :
  rev (release_log h (a :: l)) ++ tr =
  rev (release_log h l) ++ EvFreeEntry a :: rev (EvFreeBuf <$> owned h a) ++ tr.
Proof.
  rewrite release_log_cons, rev_app_distr. simpl.
  by rewrite <- !app_assoc.
Qed.

Lemma released_release_log h l tr :
  released (rev (release_log h l) ++ tr) = released tr ++ l.
Proof.
  revert tr. induction l as [|a l IH]; intros tr.
  - rewrite release_log_nil. simpl. by rewrite app_nil_r.
  - rewrite rev_release_log_cons, IH, released_cons, released_neutral
      by apply free_bufs_neutral.
    by rewrite <- app_assoc.
Qed.

Lemma enqueued_release_log h l tr :
  enqueued (rev (release_log h l) ++ tr) = enqueued tr.
Proof.
  revert tr. induction l as [|a l IH]; intros tr.
  - by rewrite release_log_nil.
  - rewrite rev_release_log_cons, IH, enqueued_cons, enqueued_neutral
      by apply free_bufs_neutral.
    by rewrite app_nil_r.
Qed.

Lemma fresh_release_log h l tr : fresh (rev (release_log h l) ++ tr) = fresh tr.
Proof.
  revert tr. induction l as [|a l IH]; intros tr.
  - by rewrite release_log_nil.
  - rewrite rev_release_log_cons, IH. simpl.
    apply fresh_neutral, free_bufs_neutral.
Qed.

Lemma clean_release_log h l tr : clean tr → clean (rev (release_log h l) ++ tr).
Proof.
  revert tr. induction l as [|a l IH]; intros tr Hc.
  - by rewrite release_log_nil.
  - rewrite rev_release_log_cons. apply IH. simpl.
    by apply clean_neutral; [apply free_bufs_neutral|].
Qed.

Lemma in_order_release_log h l tr : in_order tr → in_order (rev (release_log h l) ++ tr).
Proof.
  revert tr. induction l as [|a l IH]; intros tr Hc.
  - by rewrite release_log_nil.
  - rewrite rev_release_log_cons. apply IH. simpl.
    by apply in_order_neutral; [apply free_bufs_neutral|].
Qed.

(** ** The queue invariant under the steps of the threads *)

Lemma valid_entry_ext w w' l a :
  heap w' = heap w → bufs w' = bufs w → valid_entry w l a → valid_entry w' l a.
Proof. unfold valid_entry. by intros -> ->. Qed.

Lemma valid_entry_remove w w' hd l a :
  is_queue w (hd :: l) → valid_entry w (hd :: l) a →
  heap w' = delete hd (heap w) →
  bufs w' = bufs w ∖ list_to_set (owned (heap w) hd) →
  valid_entry w' l a.
Proof.
  intros Hq [Hna Hv] Hh Hb. apply not_elem_of_cons in Hna as [Hne Hna].
  pose proof (iq_nodup _ _ Hq) as Hnd. apply NoDup_cons in Hnd as [Hhd _].
  split; [done|]. rewrite Hh, Hb, lookup_delete_ne by done.
  destruct (heap w !! a) as [e|]; [|done].
  assert (Ho : owned_bufs (delete hd (heap w)) l = owned_bufs (heap w) l).
  { apply owned_bufs_ext. intros x Hx. apply owned_delete_ne. by intros ->. }
  rewrite Ho. eapply Forall_impl; [exact Hv|]. simpl. intros b [Hb1 Hb2].
  rewrite owned_bufs_cons in Hb2. apply not_elem_of_app in Hb2 as [Hb2 Hb3].
  split; [|done]. apply elem_of_difference. split; [done|].
  by rewrite elem_of_list_to_set.
Qed.

Lemma foldr_delete_notin (h : gmap addr queue_entry_t) l a :
  a ∉ l → foldr delete h l !! a = h !! a.
Proof.
  induction l as [|x l IH]; [done|]. intros Hn.
  apply not_elem_of_cons in Hn as [Hne Hn]. simpl.
  rewrite lookup_delete_ne by done. by apply IH.
Qed.

Lemma valid_entry_clear w w' l a :
  valid_entry w l a →
  heap w' = foldr delete (heap w) l →
  bufs w' = bufs w ∖ list_to_set (owned_bufs (heap w) l) →
  valid_entry w' [] a.
Proof.
  intros [Hna Hv] Hh Hb. split; [apply not_elem_of_nil|].
  rewrite Hh, Hb, foldr_delete_notin by done.
  destruct (heap w !! a) as [e|]; [|done].
  eapply Forall_impl; [exact Hv|]. simpl. intros b [Hb1 Hb2].
  split; [|rewrite owned_bufs_nil; apply not_elem_of_nil].
  apply elem_of_difference. split; [done|]. by rewrite elem_of_list_to_set.
Qed.

(** A step that leaves the queue memory alone keeps the invariant, once
    the conditions on the new trace and on the new lines are met. *)
Lemma queue_inv_same_queue w r p w' r' p' l :
  queue_inv (MkState w r p) l →
  heap w' = heap w → bufs w' = bufs w → first w' = first w → last w' = last w →
  enqueued (trace w') = enqueued (trace w) →
  released (trace w') = released (trace w) →
  (∀ a, a ∈ l → a ∈ fresh (trace w')) →
  clean (trace w') → in_order (trace w') →
  pending p' = pending p →
  (dispatching (rpc r') = true → ∃ a l', l = a :: l' ∧ current r' = Some a) →
  (rpc r' = L98 → l ≠ []) →
  (flushed (rpc r') = true → l = []) →
  (acked (ppc p') (stop_acknowledged w') = true → l = []) →
  (adding (ppc p') = true → adding (ppc p) = true ∧ entry p' = entry p) →
  queue_inv (MkState w' r' p') l.
Proof.
  intros [Hq Hdom Hcur H98 Hfl Hack Hfifo Hfresh Hadd Hcl Hord]
    Hh Hb Hf Hl Henq Hrel Hfr Hcl' Hord' Hpend Hcur' H98' Hfl' Hack' Hadd'.
  simpl in *. constructor; simpl; try done.
  - by apply (is_queue_ext w).
  - by rewrite Hh, Hpend.
  - by rewrite Henq, Hrel.
  - intros Ha. destruct (Hadd' Ha) as [Ha' He]. destruct (Hadd Ha') as (a & Hea & Hv).
    exists a. split; [congruence|]. by apply (valid_entry_ext w).
Qed.

(** The same for a step that logs only neutral events. *)
Lemma queue_inv_frame w r p w' r' p' l evs :
  queue_inv (MkState w r p) l →
  heap w' = heap w → bufs w' = bufs w → first w' = first w → last w' = last w →
  trace w' = evs ++ trace w → forallb neutral evs = true →
  pending p' = pending p →
  (dispatching (rpc r') = true → ∃ a l', l = a :: l' ∧ current r' = Some a) →
  (rpc r' = L98 → l ≠ []) →
  (flushed (rpc r') = true → l = []) →
  (acked (ppc p') (stop_acknowledged w') = true → l = []) →
  (adding (ppc p') = true → adding (ppc p) = true ∧ entry p' = entry p) →
  queue_inv (MkState w' r' p') l.
Proof.
  intros Hq Hh Hb Hf Hl Htr Hn. apply (queue_inv_same_queue w r p); try done; rewrite Htr.
  - by apply enqueued_neutral.
  - by apply released_neutral.
  - intros a Ha. rewrite fresh_neutral by done. by apply (qi_fresh _ _ Hq).
  - apply clean_neutral; [done|apply (qi_clean _ _ Hq)].
  - apply in_order_neutral; [done|apply (qi_in_order _ _ Hq)].
Qed.

Lemma is_queue_last_nonnull w l : is_queue w l → last w ≠ None → l ≠ [].
Proof. intros Hq Hl ->. by destruct (is_queue_nil_inv _ Hq). Qed.

(** What the synchronisation invariant says where the queue invariant
    needs it. *)
Lemma sync_acked_rpost s :
  sync_inv s →
  acked (ppc (st_producer s)) (stop_acknowledged (st_world s)) = true →
  rpost (rpc (st_runner s)) = true.
Proof. intros H Ha. by apply H. Qed.

Lemma sync_flush_waits s :
  sync_inv s → in_flush (rpc (st_runner s)) = true →
  ppc (st_producer s) = S146w ∧ stop_acknowledged (st_world s) = Some Producer.
Proof. intros H Ha. by apply H. Qed.

Lemma sync_sa_none s :
  sync_inv s → stop_acknowledged (st_world s) ≠ Some Producer →
  stop_acknowledged (st_world s) = None.
Proof.
  intros H Hn. destruct H as (_ & _ & _ & _ & _ & Hsa & _). simpl in Hsa.
  destruct (stop_acknowledged (st_world s)) as [t|] eqn:E; [|done].
  destruct Hsa as [Hsa _]; [done|]. congruence.
Qed.

Lemma sync_queue_guard_excl s :
  sync_inv s → rq_holds (rpc (st_runner s)) = true →
  pq_holds (ppc (st_producer s)) = true → False.
Proof.
  intros H Hr Hp. destruct H as (H1 & H2 & _). simpl in *.
  apply H1 in Hr. apply H2 in Hp. congruence.
Qed.

Lemma bufs_neutral (bs : list addr) : forallb neutral (EvFreeBuf <$> bs) = true.
Proof. by induction bs. Qed.

(** Line 130 with [EE_OK]: the oldest entry leaves the queue. *)
Lemma queue_inv_remove w r p w1 r' hd l :
  sync_inv (MkState w r p) → queue_inv (MkState w r p) (hd :: l) →
  rpc r = L130 → rpc r' = L132 →
  queue_remove w = Done w1 →
  queue_inv (MkState w1 r' p) l.
Proof.
  intros Hs [Hq Hdom Hcur H98 Hfl Hack Hfifo Hfresh Hadd Hcl Hord] Hpc Hpc' Hrem.
  simpl in *.
  destruct (queue_remove_spec _ _ _ Hq) as (w2 & Hr & Hq2 & Hs2 & Ht2 & Hh2 & Hb2).
  rewrite Hrem in Hr. injection Hr as <-.
  pose proof (iq_nodup _ _ Hq) as Hnd. apply NoDup_cons in Hnd as [Hhd Hnd].
  constructor; simpl; rewrite ?Hpc', ?Ht2; try done.
  - rewrite Hh2, dom_delete_L, Hdom. unfold pending.
    destruct (adding (ppc p)) eqn:Ha; [|set_solver].
    destruct (Hadd eq_refl) as (a & -> & Hna & _).
    apply not_elem_of_cons in Hna as [Hne _]. set_solver.
  - intros Ha. exfalso.
    destruct Hs2 as (_ & _ & _ & _ & _ & _ & Hsa). rewrite Hsa in Ha.
    pose proof (sync_acked_rpost _ Hs Ha) as Hp. simpl in Hp. by rewrite Hpc in Hp.
  - rewrite enqueued_cons, released_cons, enqueued_neutral, released_neutral
      by apply bufs_neutral.
    by rewrite Hfifo, app_nil_r, <- app_assoc.
  - intros a Ha. simpl. rewrite fresh_neutral by apply bufs_neutral.
    apply Hfresh. by right.
  - intros Ha. destruct (Hadd Ha) as (a & He & Hv). exists a. split; [done|].
    by eapply valid_entry_remove.
  - simpl. by apply clean_neutral; [apply bufs_neutral|].
  - simpl. by apply in_order_neutral; [apply bufs_neutral|].
Qed.

(** Line 210: every entry leaves the queue. *)
Lemma queue_inv_clear w r p w1 r' l :
  sync_inv (MkState w r p) → queue_inv (MkState w r p) l →
  rpc r = L210 → rpc r' = L211 →
  queue_clear (log EvQueueClear w) = Done w1 →
  queue_inv (MkState w1 r' p) [].
Proof.
  intros Hs [Hq Hdom Hcur H98 Hfl Hack Hfifo Hfresh Hadd Hcl Hord] Hpc Hpc' Hclr.
  simpl in *.
  assert (Hq0 : is_queue (log EvQueueClear w) l) by (by apply (is_queue_ext w)).
  destruct (queue_clear_spec _ _ Hq0) as (w2 & Hr & Hq2 & Hs2 & Ht2 & Hh2 & Hb2).
  rewrite Hclr in Hr. injection Hr as <-. simpl in *.
  destruct (sync_flush_waits _ Hs) as [Hpl Hsa]; [simpl; by rewrite Hpc|].
  simpl in Hpl, Hsa.
  constructor; simpl; rewrite ?Hpc', ?Ht2; try done.
  - rewrite Hh2, foldr_delete_dom, Hdom. unfold pending. rewrite Hpl. simpl. set_solver.
  - rewrite enqueued_release_log, released_release_log, enqueued_cons, released_cons.
    by rewrite !app_nil_r.
  - intros a Ha. by apply elem_of_nil in Ha.
  - rewrite Hpl. done.
  - apply clean_release_log. done.
  - apply in_order_release_log. done.
Qed.

Ltac frame_runner H :=
  eapply (queue_inv_frame _ _ _ _ _ _ _ _ H);
  [reflexivity|reflexivity|reflexivity|reflexivity|
   simpl; first [by instantiate (1 := []) | by instantiate (1 := [_]) |
                 by instantiate (1 := [_; _]) | by instantiate (1 := [_; _; _])]
   |reflexivity|reflexivity|..].

Lemma queue_inv_runner ret w r p r' w' l :
  sync_inv (MkState w r p) → queue_inv (MkState w r p) l →
  runner_step ret r w = Stepped r' w' →
  ∃ l', queue_inv (MkState w' r' p) l'.
Proof.
  intros Hs Hq Hstep.
  pose proof Hq as [Hiq Hdom Hcur H98 Hfl Hack Hfifo Hfresh Hadd Hcl Hord].
  destruct r as [rl rt cur err]. simpl in *.
  unfold runner_step in Hstep. simpl in Hstep.
  destruct rl; inv_step Hstep; injection Hstep as <- <-.
  all: try (exists l; frame_runner Hq; simpl; try done; try (intros; discriminate); fail).
  - (* line 203, into the loop body *)
    exists l. frame_runner Hq; simpl; try done.
    intros _. eapply is_queue_last_nonnull; [done|tauto].
  - (* line 98 *)
    exists l. frame_runner Hq; simpl; try done.
    intros _. destruct l as [|hd l0]; [by destruct H98|].
    destruct (is_queue_cons_inv _ _ _ Hiq) as [-> _]. eauto.
  - (* line 101, an engine call *)
    destruct Hcur as (hd & l0 & -> & [= ->]); [done|].
    exists (hd :: l0). eapply (queue_inv_same_queue _ _ _ _ _ _ _ Hq); simpl; try done.
    + split; [|done]. apply Hfresh. by left.
    + split; [|done]. eauto.
    + eauto.
  - (* line 101, no engine call *)
    destruct Hcur as (hd & l0 & -> & [= ->]); [done|].
    exists (hd :: l0). eapply (queue_inv_same_queue _ _ _ _ _ _ _ Hq); simpl; try done.
    + split; [|done]. apply Hfresh. by left.
    + split; [|done]. eauto.
    + eauto.
  - (* line 130, EE_OK *)
    destruct Hcur as (hd & l0 & -> & _); [done|].
    exists l0. by eapply (queue_inv_remove w _ p).
  - (* line 210 *)
    exists []. by eapply (queue_inv_clear w _ p).
  - (* line 214 *)
    exists l. frame_runner Hq; simpl; try done. intros _. by apply Hfl.
Qed.

(** The caller has allocated an entry: line 46 is next. *)
Lemma queue_inv_alloc w r p w1 a e l :
  queue_inv (MkState w r p) l → ppc p = P_idle →
  alloc_entry a e w = Some w1 →
  queue_inv (MkState w1 r (MkProducer A46 (Some a))) l.
Proof.
  intros [Hq Hdom Hcur H98 Hfl Hack Hfifo Hfresh Hadd Hcl Hord] Hpc Hal. simpl in *.
  assert (Hd : dom (heap w) = list_to_set l).
  { rewrite Hdom. unfold pending. rewrite Hpc. simpl. set_solver. }
  destruct (alloc_entry_valid _ _ _ _ _ Hq Hd Hal) as (Hq1 & Hv & Hs1 & Ht1 & Hh1).
  destruct Hs1 as (_ & _ & _ & _ & _ & _ & Hsa).
  constructor; simpl; rewrite ?Ht1; try done.
  - rewrite Hh1, dom_insert_L, Hd. unfold pending. simpl. set_solver.
  - eauto.
Qed.

(** Lines 47 to 56: the entry joins the queue. *)
Lemma queue_inv_add w r p w1 a l :
  sync_inv (MkState w r p) → queue_inv (MkState w r p) l →
  ppc p = A47 → entry p = Some a →
  queue_add (Some a) w = Done w1 →
  queue_inv (MkState (log (EvEnqueue a) w1) r (MkProducer A57 (Some a))) (l ++ [a]).
Proof.
  intros Hs [Hq Hdom Hcur H98 Hfl Hack Hfifo Hfresh Hadd Hcl Hord] Hpc He Hqa.
  simpl in *. rewrite Hpc in *. simpl in *.
  destruct (Hadd eq_refl) as (a' & Hea & Hv). assert (a' = a) as -> by congruence.
  destruct (queue_add_spec _ _ _ Hq Hv) as (w2 & Hr & Hq2 & Hs2 & Ht2 & Hb2 & Hd2 & Ho2).
  rewrite Hqa in Hr. injection Hr as <-.
  constructor; simpl; rewrite ?Ht2; try done.
  - by apply (is_queue_ext w1).
  - rewrite Hd2, Hdom, list_to_set_app_L. unfold pending. rewrite Hpc, He. simpl.
    set_solver.
  - intros Hd. destruct (Hcur Hd) as (hd & l0 & -> & Hc). eauto.
  - intros _. by destruct l.
  - intros Hf. exfalso.
    assert (Hin : in_flush (rpc r) = true) by (by destruct (rpc r)).
    destruct (sync_flush_waits _ Hs Hin) as [Hp _]. simpl in Hp. congruence.
  - by rewrite enqueued_cons, released_cons, Hfifo, app_nil_r, app_assoc.
  - intros x Hx. simpl. apply elem_of_app in Hx as [Hx|Hx].
    + right. by apply Hfresh.
    + apply list_elem_of_singleton in Hx as ->. by left.
Qed.

Ltac frame_producer H :=
  eapply (queue_inv_frame _ _ _ _ _ _ _ _ H);
  [reflexivity|reflexivity|reflexivity|reflexivity|
   simpl; first [by instantiate (1 := []) | by instantiate (1 := [_]) |
                 by instantiate (1 := [_; _]) | by instantiate (1 := [_; _; _])]
   |reflexivity|..].

Lemma queue_inv_producer c w r p p' w' l :
  sync_inv (MkState w r p) → queue_inv (MkState w r p) l →
  producer_step c p w = Stepped p' w' →
  ∃ l', queue_inv (MkState w' r p') l'.
Proof.
  intros Hs Hq Hstep.
  pose proof Hq as [Hiq Hdom Hcur H98 Hfl Hack Hfifo Hfresh Hadd Hcl Hord].
  destruct p as [pl ent]. simpl in *.
  unfold producer_step in Hstep. simpl in Hstep.
  destruct pl.
  - (* between calls *)
    destruct c as [a e|].
    + destruct (alloc_entry a e w) as [w1|] eqn:Hal; [|done].
      injection Hstep as <- <-. exists l. by eapply queue_inv_alloc.
    + injection Hstep as <- <-. exists l.
      frame_producer Hq; simpl; try done; intros; discriminate.
  - inv_step Hstep; injection Hstep as <- <-. exists l.
    frame_producer Hq; simpl; try done; intros; discriminate.
  - (* line 47 *)
    destruct (Hadd eq_refl) as (a & -> & Hv).
    destruct (queue_add (Some a) w) as [w1| | |] eqn:Hqa; try done.
    injection Hstep as <- <-. exists (l ++ [a]). by eapply (queue_inv_add w r).
  - inv_step Hstep; injection Hstep as <- <-. exists l.
    frame_producer Hq; simpl; try done; intros; discriminate.
  - inv_step Hstep; injection Hstep as <- <-. exists l.
    frame_producer Hq; simpl; try done; intros; discriminate.
  - inv_step Hstep; injection Hstep as <- <-. exists l.
    frame_producer Hq; simpl; try done; intros; discriminate.
  - inv_step Hstep; injection Hstep as <- <-. exists l.
    frame_producer Hq; simpl; try done; intros; discriminate.
  - inv_step Hstep; injection Hstep as <- <-. exists l.
    frame_producer Hq; simpl; try done; intros; discriminate.
  - inv_step Hstep; injection Hstep as <- <-. exists l.
    frame_producer Hq; simpl; try done; intros; discriminate.
  - inv_step Hstep; injection Hstep as <- <-. exists l.
    frame_producer Hq; simpl; try done; intros; discriminate.
  - inv_step Hstep; injection Hstep as <- <-. exists l.
    frame_producer Hq; simpl; try done; intros; discriminate.
  - (* line 146, woken *)
    inv_step Hstep; injection Hstep as <- <-. exists l.
    assert (Hn : stop_acknowledged w = None) by (by apply (sync_sa_none _ Hs)).
    frame_producer Hq; simpl; try done. intros _. apply Hack. by rewrite Hn.
  - (* line 147: stop_runner returns *)
    inv_step Hstep; injection Hstep as <- <-. exists l.
    assert (l = []) as -> by (by apply Hack).
    eapply (queue_inv_same_queue _ _ _ _ _ _ _ Hq); simpl; done.
  - injection Hstep as <- <-. exists l.
    frame_producer Hq; simpl; try done; intros; discriminate.
Qed.

Lemma queue_inv_shutdown w r p l :
  queue_inv (MkState w r p) l → queue_inv (MkState (set_should_run 0 w) r p) l.
Proof.
  intros Hq. eapply (queue_inv_frame _ _ _ _ _ _ _ [] Hq); try done;
    try apply (qi_current _ _ Hq); try apply (qi_98 _ _ Hq);
    try apply (qi_flushed _ _ Hq); try apply (qi_acked _ _ Hq).
Qed.

Lemma queue_inv_init run voice : queue_inv (init_state run voice) [].
Proof.
  constructor; simpl; try done.
  constructor; simpl; try done; rewrite ?owned_bufs_nil; by constructor.
Qed.

(** The invariant holds in every reachable state. *)
Lemma reachable_inv s : reachable s → sync_inv s ∧ ∃ l, queue_inv s l.
Proof.
  induction 1 as [run voice|s s' Hr [Hs (l & Hq)] Hstep].
  - split; [apply sync_inv_init|]. exists []. apply queue_inv_init.
  - split; [by eapply sync_inv_step|].
    destruct Hstep as [lb Hl]. destruct s as [w r p].
    destruct lb as [ret|c|]; simpl in Hl.
    + destruct (runner_step ret r w) as [r' w'| |] eqn:Hst; try done.
      injection Hl as <-. by eapply queue_inv_runner.
    + destruct (producer_step c p w) as [p' w'| |] eqn:Hst; try done.
      injection Hl as <-. by eapply queue_inv_producer.
    + injection Hl as <-. exists l. by apply queue_inv_shutdown.
Qed.

(** ** No step of a reachable state faults *)

Lemma sync_rq s :
  sync_inv s → rq_holds (rpc (st_runner s)) = true →
  queue_guard (st_world s) = Some Runner.
Proof. intros H Hr. by apply H. Qed.

Lemma sync_rs s :
  sync_inv s → rs_holds (rpc (st_runner s)) = true →
  stop_guard (st_world s) = Some Runner.
Proof. intros H Hr. by apply H. Qed.

Lemma sync_pq s :
  sync_inv s → pq_holds (ppc (st_producer s)) = true →
  queue_guard (st_world s) = Some Producer.
Proof. intros H Hr. by apply H. Qed.

Lemma sync_ps s :
  sync_inv s → ps_holds (ppc (st_producer s)) = true →
  stop_guard (st_world s) = Some Producer.
Proof. intros H Hr. by apply H. Qed.

Lemma reachable_no_fault s lb : reachable s → exec lb s ≠ Crash.
Proof.
  intros Hr. destruct (reachable_inv _ Hr) as [Hs (l & Hq)].
  destruct s as [w r p]. destruct lb as [ret|c|]; simpl; [| |done].
  - destruct (runner_step ret r w) as [r' w'| |] eqn:Hst; try done. exfalso.
    destruct r as [rl rt cur err]. unfold runner_step in Hst. simpl in Hst.
    destruct rl; try discriminate Hst;
      try (pose proof (sync_rq _ Hs eq_refl) as Hg; simpl in Hg);
      try (pose proof (sync_rs _ Hs eq_refl) as Hg'; simpl in Hg');
      unfold of_option, of_res, mutex_lock, mutex_unlock, cond_wait, cond_wake in Hst;
      simpl in Hst; rewrite ?Hg, ?Hg' in Hst;
      rewrite ?decide_True in Hst by done; simpl in Hst;
      repeat case_decide; try discriminate Hst.
    all: try (destruct (queue_guard w); discriminate).
    all: try (destruct (stop_guard w); discriminate).
    all: try (destruct (defaultVoice w); discriminate).
    + (* line 101 *)
      destruct (qi_current _ _ Hq eq_refl) as (hd & l0 & -> & Hc). simpl in Hc. subst cur.
      destruct (is_queue_cons_inv _ _ _ (qi_queue _ _ Hq)) as (_ & e & He & _).
      simpl in He. rewrite He in Hst. destruct (dispatch e); discriminate.
    + (* line 130 *)
      destruct (qi_current _ _ Hq eq_refl) as (hd & l0 & -> & Hc).
      destruct (queue_remove_spec _ _ _ (qi_queue _ _ Hq)) as (w1 & Hrm & _).
      simpl in Hrm. rewrite Hrm in Hst. discriminate.
    + (* line 210 *)
      assert (Hq0 : is_queue (log EvQueueClear w) l)
        by (apply (is_queue_ext w); try done; apply (qi_queue _ _ Hq)).
      destruct (queue_clear_spec _ _ Hq0) as (w1 & Hc & _).
      rewrite Hc in Hst. discriminate.
  - destruct (producer_step c p w) as [p' w'| |] eqn:Hst; try done. exfalso.
    destruct p as [pl ent]. unfold producer_step in Hst. simpl in Hst.
    destruct pl; try discriminate Hst;
      try (pose proof (sync_pq _ Hs eq_refl) as Hg; simpl in Hg);
      try (pose proof (sync_ps _ Hs eq_refl) as Hg'; simpl in Hg');
      unfold of_option, of_res, mutex_lock, mutex_unlock, cond_wait, cond_wake in Hst;
      simpl in Hst; rewrite ?Hg, ?Hg' in Hst;
      rewrite ?decide_True in Hst by done; simpl in Hst;
      repeat case_decide; try discriminate Hst.
    all: try (destruct (queue_guard w); discriminate).
    all: try (destruct (stop_guard w); discriminate).
    + destruct c; [destruct (alloc_entry a e w)|]; discriminate.
    + (* line 47 *)
      destruct (qi_adding _ _ Hq eq_refl) as (a & Hea & Hv). simpl in Hea. subst ent.
      destruct (queue_add_spec _ _ _ (qi_queue _ _ Hq) Hv) as (w1 & Ha & _).
      simpl in Ha. rewrite Ha in Hst. discriminate.
Qed.

(** ** Schedules *)

Lemma run_labels_reachable ls s s' :
  reachable s → run_labels ls s = Some s' → reachable s'.
Proof.
  revert s. induction ls as [|lb ls IH]; intros s Hr; simpl.
  - by intros [= <-].
  - destruct (exec lb s) as [s1| |] eqn:He; try done.
    apply IH. eapply reach_step; [done|]. by exists lb.
Qed.

Lemma clean_dispatched t1 a t : clean (t1 ++ EvDispatch a :: t) → a ∈ fresh t.
Proof.
  induction t1 as [|e t1 IH]; simpl.
  - by intros [? _].
  - destruct e; try exact IH. intros [_ H]. by apply IH.
Qed.

Lemma fresh_since_return a t2 t3 :
  a ∈ fresh (t2 ++ EvStopReturn :: t3) → EvEnqueue a ∈ t2.
Proof.
  induction t2 as [|e t2 IH]; simpl.
  - intros H. by apply elem_of_nil in H.
  - destruct e; try (intros H; right; by apply IH).
    + intros H. apply elem_of_cons in H as [->|H]; [by left|right; by apply IH].
    + intros H. by apply elem_of_nil in H.
Qed.

Lemma in_order_dispatched t1 a t :
  in_order (t1 ++ EvDispatch a :: t) → ∃ rest, enqueued t = released t ++ a :: rest.
Proof.
  induction t1 as [|e t1 IH]; simpl.
  - by intros [? _].
  - destruct e; try exact IH. intros [_ H]. by apply IH.
Qed.

(** X22. As long as every wait returns on a signal only (the states of
    [reachable]), and with one thread calling [queue_add] and
    [stop_runner]: in every reachable state where [stop_runner] has just
    returned (the producer stands at line 148), the queue is empty
    ([first] and [last] are [NULL] and no entry is live),
    [runner_must_stop] is 0 and the runner has no entry in hand. And in
    every reachable state, every dispatch that came after a return of
    [stop_runner] is of an entry that was enqueued after that return. *)
Theorem stop_runner_returns_flushed s :
  reachable s →
  (ppc (st_producer s) = S148 →
   is_queue (st_world s) [] ∧
   first (st_world s) = None ∧ last (st_world s) = None ∧
   heap (st_world s) = ∅ ∧
   runner_must_stop (st_world s) = 0 ∧
   dispatching (rpc (st_runner s)) = false) ∧
  (∀ t1 a t2 t3,
     trace (st_world s) = t1 ++ EvDispatch a :: t2 ++ EvStopReturn :: t3 →
     EvEnqueue a ∈ t2).
Proof.
  intros Hr. destruct (reachable_inv _ Hr) as [Hs (l & Hq)]. split.
  - intros Hpc.
    assert (Hack : acked (ppc (st_producer s)) (stop_acknowledged (st_world s)) = true)
      by (by rewrite Hpc).
    pose proof (qi_acked _ _ Hq Hack) as ->.
    pose proof (qi_queue _ _ Hq) as Hiq.
    destruct (is_queue_nil_inv _ Hiq) as [Hf Hl].
    split; [done|]. split; [done|]. split; [done|]. split; [|split].
    + apply dom_empty_inv_L. rewrite (qi_dom _ _ Hq). unfold pending. rewrite Hpc.
      simpl. set_solver.
    + destruct Hs as (_ & _ & _ & _ & _ & _ & _ & _ & _ & _ & _ & Hfl & _).
      simpl in Hfl. specialize (Hfl Hack). apply bool_decide_eq_false in Hfl.
      destruct (decide (runner_must_stop (st_world s) = 0)); [done|by destruct Hfl].
    + pose proof (sync_acked_rpost _ Hs Hack) as Hp.
      by destruct (rpc (st_runner s)).
  - intros t1 a t2 t3 Htr. apply (fresh_since_return a t2 t3).
    apply (clean_dispatched t1). rewrite <- Htr. apply (qi_clean _ _ Hq).
Qed.

(** C2. In every reachable state the entries handed to [queue_add] so
    far are, in the order of the calls, the entries freed so far, in the
    order of the frees, followed by the entries still queued, oldest
    first; and every dispatch the runner has made was of the oldest entry
    that had been enqueued and not freed at that time. *)
Theorem dispatch_follows_enqueue_order s :
  reachable s →
  (∃ l, is_queue (st_world s) l ∧
        enqueued (trace (st_world s)) = released (trace (st_world s)) ++ l) ∧
  (∀ t1 a t2,
     trace (st_world s) = t1 ++ EvDispatch a :: t2 →
     ∃ rest, enqueued t2 = released t2 ++ a :: rest).
Proof.
  intros Hr. destruct (reachable_inv _ Hr) as [Hs (l & Hq)]. split.
  - exists l. split; [apply (qi_queue _ _ Hq)|apply (qi_fifo _ _ Hq)].
  - intros t1 a t2 Htr. apply (in_order_dispatched t1). rewrite <- Htr.
    apply (qi_in_order _ _ Hq).
Qed.

Lemma stop_returned_reachable : reachable stop_returned.
Proof.
  apply (run_labels_reachable stop_schedule (init_state 1 None)); [constructor|].
  vm_compute. reflexivity.
Qed.

Lemma stop_returned_at_148 : ppc (st_producer stop_returned) = S148.
Proof. vm_compute. reflexivity. Qed.

Lemma stop_returned_trace :
  filter (λ e, negb (neutral e)) (trace (st_world stop_returned)) =
  [EvStopReturn; EvFreeEntry 2%positive; EvEnqueue 2%positive;
   EvFreeEntry 1%positive; EvDispatch 1%positive; EvEnqueue 1%positive].
Proof. vm_compute. reflexivity. Qed.

Lemma stop_runner_returns_flushed_witness :
  (ppc (st_producer stop_returned) = S148 →
   is_queue (st_world stop_returned) [] ∧
   first (st_world stop_returned) = None ∧ last (st_world stop_returned) = None ∧
   heap (st_world stop_returned) = ∅ ∧
   runner_must_stop (st_world stop_returned) = 0 ∧
   dispatching (rpc (st_runner stop_returned)) = false) ∧
  (∀ t1 a t2 t3,
     trace (st_world stop_returned) = t1 ++ EvDispatch a :: t2 ++ EvStopReturn :: t3 →
     EvEnqueue a ∈ t2).
Proof.
  apply (stop_runner_returns_flushed stop_returned). exact stop_returned_reachable.
Defined.

Lemma dispatch_follows_enqueue_order_witness :
  (∃ l, is_queue (st_world stop_returned) l ∧
        enqueued (trace (st_world stop_returned)) =
        released (trace (st_world stop_returned)) ++ l) ∧
  (∀ t1 a t2,
     trace (st_world stop_returned) = t1 ++ EvDispatch a :: t2 →
     ∃ rest, enqueued t2 = released t2 ++ a :: rest).
Proof.
  apply (dispatch_follows_enqueue_order stop_returned). exact stop_returned_reachable.
Defined.

(** * More about the queue functions *)

(** ** Calls of [queue_remove] in a row *)

Lemma queue_remove_n_S n w :
  queue_remove_n (S n) w = (w ← queue_remove w; queue_remove_n n w).
Proof. done. Qed.

Lemma queue_remove_n_empty n w : last w = None → queue_remove_n n w = Done w.
Proof.
  intros Hl. induction n as [|n IH]; [done|].
  rewrite queue_remove_n_S. unfold queue_remove. rewrite Hl. simpl. exact IH.
Qed.

Lemma rev_owned h a : rev (EvFreeBuf <$> owned h a) = EvFreeBuf <$> owned h a.
Proof.
  unfold owned. destruct (h !! a) as [e|]; [|done]. simpl.
  unfold entry_bufs. by destruct (cmd e), (buf e).
Qed.

Lemma release_log_app h l1 l2 :
  release_log h (l1 ++ l2) = release_log h l1 ++ release_log h l2.
Proof. unfold release_log. apply bind_app. Qed.

(** [length l1] calls of [queue_remove] free the entries of [l1], oldest
    first, and leave the rest of the queue. *)
Lemma queue_remove_n_prefix w l1 l2 :
  is_queue w (l1 ++ l2) →
  ∃ w', queue_remove_n (length l1) w = Done w' ∧ is_queue w' l2 ∧ same_sync w w' ∧
        trace w' = rev (release_log (heap w) l1) ++ trace w ∧
        heap w' = foldr delete (heap w) l1 ∧
        bufs w' = bufs w ∖ list_to_set (owned_bufs (heap w) l1).
Proof.
  revert w. induction l1 as [|a l1 IH]; intros w Hq.
  - exists w. simpl. split; [done|]. split; [done|]. split; [apply same_sync_refl|].
    split; [done|]. split; [done|]. rewrite ?owned_bufs_nil. set_solver.
  - simpl in Hq.
    destruct (queue_remove_spec _ _ _ Hq) as (w1 & Hr & Hq1 & Hs1 & Ht1 & Hh1 & Hb1).
    destruct (IH w1 Hq1) as (w' & Hc & Hq' & Hs' & Ht' & Hh' & Hb').
    exists w'. simpl length. rewrite queue_remove_n_S, Hr. simpl.
    pose proof (iq_nodup _ _ Hq) as Hnd. apply NoDup_cons in Hnd as [Hal Hnd].
    assert (Hext : ∀ x, x ∈ l1 → owned (heap w1) x = owned (heap w) x).
    { intros x Hx. rewrite Hh1. apply owned_delete_ne. intros ->.
      apply Hal. apply elem_of_app. by left. }
    split; [done|]. split; [done|]. split; [by eapply same_sync_trans|].
    split; [|split].
    + rewrite Ht', Ht1. rewrite release_log_cons.
      rewrite (release_log_ext _ _ _ Hext).
      rewrite rev_app_distr. simpl. rewrite <- !app_assoc. simpl.
      f_equal. by rewrite rev_owned.
    + rewrite Hh', Hh1. simpl. clear -Hal.
      assert (Ha : a ∉ l1) by (intros H; apply Hal, elem_of_app; by left).
      clear Hal. induction l1 as [|x l IHl]; [done|]. simpl.
      rewrite IHl; [|set_solver]. apply delete_delete.
    + rewrite Hb', Hb1. rewrite owned_bufs_cons.
      rewrite (owned_bufs_ext _ _ _ Hext). set_solver.
Qed.

(** X1. The queue serves entries in the order of the calls of
    [queue_add]. After a valid entry has been added to a well-formed
    queue of [n] entries, [n] calls of [queue_remove] free the [n] older
    entries, oldest first, and leave the new entry as the only one, with
    [first] and [last] both pointing at it; one more call frees the new
    entry and leaves the queue empty. *)
Theorem queue_add_is_served_last w l a :
  is_queue w l → valid_entry w l a →
  ∃ w1 w2 w3,
    queue_add (Some a) w = Done w1 ∧
    queue_remove_n (length l) w1 = Done w2 ∧
    is_queue w2 [a] ∧ last w2 = Some a ∧ first w2 = Some a ∧
    trace w2 = rev (release_log (heap w) l) ++ trace w ∧
    queue_remove w2 = Done w3 ∧ is_queue w3 [] ∧
    trace w3 = rev (release_log (heap w) (l ++ [a])) ++ trace w.
Proof.
  intros Hq Hv.
  destruct (queue_add_spec _ _ _ Hq Hv) as (w1 & Ha & Hq1 & _ & Ht1 & _ & _ & Ho1).
  destruct (queue_remove_n_prefix _ _ _ Hq1) as (w2 & Hr & Hq2 & _ & Ht2 & Hh2 & _).
  destruct (queue_remove_spec _ _ _ Hq2) as (w3 & Hr3 & Hq3 & _ & Ht3 & _).
  exists w1, w2, w3.
  assert (Hl1 : release_log (heap w1) l = release_log (heap w) l).
  { apply release_log_ext. intros x _. apply Ho1. }
  destruct (is_queue_cons_inv _ _ _ Hq2) as (Hl2 & _).
  pose proof (iq_first _ _ Hq2) as Hf2. simpl in Hf2.
  assert (Hoa : owned (heap w2) a = owned (heap w) a).
  { rewrite Hh2, <- Ho1. clear -Hv. destruct Hv as [Hna _].
    induction l as [|x l IH]; [done|]. simpl.
    rewrite owned_delete_ne; [|set_solver]. apply IH. set_solver. }
  split_and!; try done.
  - by rewrite Ht2, Hl1, Ht1.
  - rewrite Ht3, Ht2, Hl1, Ht1, Hoa.
    rewrite release_log_app, release_log_cons, release_log_nil.
    rewrite !rev_app_distr. simpl. rewrite rev_owned. by rewrite <- app_assoc.
Qed.

Lemma queue_add_is_served_last_witness :
  ∃ w1 w2 w3,
    queue_add (Some 3%positive) third_allocated = Done w1 ∧
    queue_remove_n (length [1%positive; 2%positive]) w1 = Done w2 ∧
    is_queue w2 [3%positive] ∧ last w2 = Some 3%positive ∧ first w2 = Some 3%positive ∧
    trace w2 = rev (release_log (heap third_allocated) [1%positive; 2%positive]) ++
               trace third_allocated ∧
    queue_remove w2 = Done w3 ∧ is_queue w3 [] ∧
    trace w3 = rev (release_log (heap third_allocated)
                      ([1%positive; 2%positive] ++ [3%positive])) ++
               trace third_allocated.
Proof.
  apply (queue_add_is_served_last third_allocated [1%positive; 2%positive] 3%positive).
  - exact third_allocated_is_queue.
  - exact third_allocated_valid.
Defined.

(** X2. On a well-formed queue of [n] entries [queue_clear] does what
    [n] calls of [queue_remove] do, and further calls of [queue_remove]
    change nothing: for every [m] not below [n], [m] calls of
    [queue_remove] end in the same world as one call of [queue_clear]. *)
Theorem queue_clear_is_repeated_remove w l n :
  is_queue w l → (length l ≤ n)%nat → queue_remove_n n w = queue_clear w.
Proof.
  intros Hq Hn. unfold queue_clear.
  assert (Hf : (length l ≤ size (heap w))%nat).
  { eapply lseg_length_le; [apply (iq_seg _ _ Hq)|apply (iq_nodup _ _ Hq)]. }
  revert Hf. generalize (size (heap w)) as fuel. revert w n Hq Hn.
  induction l as [|a l IH]; intros w n Hq Hn fuel Hf.
  - destruct (is_queue_nil_inv _ Hq) as [_ Hl].
    rewrite queue_remove_n_empty by done.
    destruct fuel; simpl; by rewrite Hl.
  - destruct n as [|n]; [simpl in Hn; lia|].
    destruct fuel as [|fuel]; [simpl in Hf; lia|].
    destruct (is_queue_cons_inv _ _ _ Hq) as (Hl & e & Ha & _).
    destruct (queue_remove_spec _ _ _ Hq) as (w1 & Hr & Hq1 & _).
    rewrite queue_remove_n_S. simpl. rewrite Hl. unfold load. rewrite Ha. simpl.
    rewrite Hr. simpl. apply (IH w1); [done|simpl in Hn; lia|simpl in Hf; lia].
Qed.

Lemma queue_clear_is_repeated_remove_witness :
  queue_remove_n 5 two_entries = queue_clear two_entries.
Proof.
  apply (queue_clear_is_repeated_remove two_entries [1%positive; 2%positive] 5).
  - exact two_entries_is_queue.
  - simpl. lia.
Defined.

Lemma queue_clear_loop_empties fuel w w' :
  queue_clear_loop fuel w = Done w' → last w' = None.
Proof.
  revert w. induction fuel as [|fuel IH]; intros w; simpl.
  - destruct (last w) eqn:Hl; [done|]. by intros [= <-].
  - destruct (last w) as [t|] eqn:Hl; [|by intros [= <-]].
    destruct (load (Some t) w) as [e| | |]; try done. simpl.
    destruct (queue_remove w) as [w1| | |] eqn:Hr; try done. simpl.
    apply IH.
Qed.

(** X3. Whatever world it was called in, a [queue_clear] that returns
    leaves [last] at [NULL]; a second [queue_clear], or a [queue_remove],
    right after it returns at once and changes nothing. *)
Theorem queue_clear_twice w w' :
  queue_clear w = Done w' →
  last w' = None ∧ queue_clear w' = Done w' ∧ queue_remove w' = Done w'.
Proof.
  intros Hc. pose proof (queue_clear_loop_empties _ _ _ Hc) as Hl.
  split; [done|]. split.
  - unfold queue_clear. destruct (size (heap w')); simpl; by rewrite Hl.
  - unfold queue_remove. by rewrite Hl.
Qed.

Lemma queue_clear_twice_witness :
  last two_entries_cleared = None ∧
  queue_clear two_entries_cleared = Done two_entries_cleared ∧
  queue_remove two_entries_cleared = Done two_entries_cleared.
Proof.
  apply (queue_clear_twice two_entries two_entries_cleared).
  vm_compute. reflexivity.
Defined.

(** ** An entry that is queued twice *)

Lemma back_Some_inv l a : back l = Some a → ∃ l0, l = l0 ++ [a].
Proof.
  induction l as [|x l IH]; [done|].
  destruct l as [|y l].
  - simpl. intros [= ->]. by exists [].
  - rewrite back_cons. intros H. destruct (IH H) as [l0 ->]. by exists (x :: l0).
Qed.

Lemma lseg_end h p l a : lseg h p (l ++ [a]) → ∃ e, h !! a = Some e ∧ next e = None.
Proof.
  revert p. induction l as [|x l IH]; intros p; simpl.
  - intros [_ H]. destruct (h !! a) as [e|]; [|done]. eauto.
  - intros [_ H]. destruct (h !! x) as [e|]; [|done]. by eapply IH.
Qed.

(** [queue_remove] does not look at an entry that is not the oldest. *)
Lemma queue_remove_frame w a e x :
  last w = Some x → x ≠ a →
  queue_remove (with_entry a e w) = (w' ← queue_remove w; Done (with_entry a e w')).
Proof.
  intros Hl Hx. unfold queue_remove, with_entry. simpl. rewrite Hl.
  unfold load. simpl. rewrite lookup_insert_ne by done.
  destruct (heap w !! x) as [ex|] eqn:Hex; [|done]. simpl.
  assert (Hfin : ∀ w1, heap w1 = heap w →
    free_entry (Some x) (set_heap (<[a:=e]> (heap w)) w1) =
    (w' ← free_entry (Some x) w1; Done (set_heap (<[a:=e]> (heap w')) w'))).
  { intros w1 Hh1. unfold free_entry, load. simpl.
    rewrite lookup_insert_ne by done. rewrite Hh1, Hex. simpl.
    assert (Hnode : ∀ w2, heap w2 = heap w →
      free_node (Some x) (set_heap (<[a:=e]> (heap w)) w2) =
      (w' ← free_node (Some x) w2; Done (set_heap (<[a:=e]> (heap w')) w'))).
    { intros w2 Hh2. unfold free_node. simpl. rewrite lookup_insert_ne by done.
      rewrite Hh2, Hex. simpl. unfold set_heap, log. simpl.
      by rewrite delete_insert_ne by done. }
    destruct (cmd ex); simpl; try (by apply Hnode).
    unfold free_buf. destruct (buf ex) as [b|]; simpl; [|by apply Hnode].
    destruct (decide (b ∈ bufs w1)); simpl; [|done].
    by apply (Hnode (log (EvFreeBuf b) (set_bufs (bufs w1 ∖ {[b]}) w1))). }
  destruct (next ex); simpl.
  - by apply (Hfin (set_last _ w)).
  - by apply (Hfin (set_first None (set_last None w))).
Qed.

Lemma queue_remove_n_frame w l a e :
  is_queue w (l ++ [a]) →
  ∃ w', queue_remove_n (length l) w = Done w' ∧ is_queue w' [a] ∧
        heap w' !! a = heap w !! a ∧
        queue_remove_n (length l) (with_entry a e w) = Done (with_entry a e w').
Proof.
  revert w. induction l as [|x l IH]; intros w Hq.
  - exists w. done.
  - simpl in Hq.
    destruct (is_queue_cons_inv _ _ _ Hq) as (Hl & _).
    pose proof (iq_nodup _ _ Hq) as Hnd. apply NoDup_cons in Hnd as [Hx _].
    assert (Hxa : x ≠ a) by (intros ->; apply Hx; set_solver).
    destruct (queue_remove_spec _ _ _ Hq) as (w1 & Hr & Hq1 & _ & _ & Hh1 & _).
    destruct (IH w1 Hq1) as (w' & Hn & Hq' & Ha' & Hf').
    exists w'. simpl length. rewrite !queue_remove_n_S.
    rewrite (queue_remove_frame w a e x) by done. rewrite Hr. simpl.
    split; [done|]. split; [done|]. split; [|done].
    rewrite Ha', Hh1. by apply lookup_delete_ne.
Qed.

(** What [queue_add] makes of the queue when the entry is its newest
    entry already. *)
Lemma requeue_world w l a :
  is_queue w (l ++ [a]) →
  ∃ ea, heap w !! a = Some ea ∧
        queue_add (Some a) w = Done (with_entry a (with_next (Some a) ea) w).
Proof.
  intros Hq. destruct (lseg_end _ _ _ _ (iq_seg _ _ Hq)) as (ea & Ha & Hn).
  exists ea. split; [done|].
  pose proof (iq_first _ _ Hq) as Hf. rewrite back_snoc in Hf.
  assert (Hl : ∃ hd, last w = Some hd).
  { pose proof (iq_seg _ _ Hq) as Hseg. destruct l; simpl in Hseg; destruct Hseg as [-> _]; eauto. }
  destruct Hl as [hd Hl].
  unfold queue_add, store_next. rewrite Ha. simpl. rewrite Hl. simpl. rewrite Hf. simpl.
  rewrite lookup_insert_eq. simpl. rewrite Hf. simpl. rewrite lookup_insert_eq. simpl.
  unfold with_entry, set_first, set_heap. simpl. rewrite Hf, insert_insert_eq.
  destruct w; simpl in *. by subst.
Qed.

Lemma requeue_last_remove w a ea :
  is_queue w [a] → heap w !! a = Some ea →
  ∃ w2, queue_remove (with_entry a (with_next (Some a) ea) w) = Done w2 ∧
        last w2 = Some a ∧ heap w2 !! a = None.
Proof.
  intros Hq Ha. destruct (is_queue_cons_inv _ _ _ Hq) as (Hl & _).
  pose proof (iq_bufs_live _ _ Hq) as Hlive.
  rewrite owned_bufs_cons, owned_bufs_nil, app_nil_r in Hlive.
  unfold owned in Hlive. rewrite Ha in Hlive. simpl in Hlive.
  unfold queue_remove, with_entry. simpl. rewrite Hl.
  unfold load. simpl. rewrite lookup_insert_eq. simpl.
  unfold free_entry, load. simpl. rewrite lookup_insert_eq. simpl.
  assert (Hnode : ∀ w1, heap w1 = <[a:=with_next (Some a) ea]> (heap w) →
                        last w1 = Some a →
                        ∃ w2, free_node (Some a) w1 = Done w2 ∧
                              last w2 = Some a ∧ heap w2 !! a = None).
  { intros w1 Hh1 Hl1. unfold free_node. rewrite Hh1, lookup_insert_eq.
    eexists. split; [done|]. simpl. split; [done|]. by rewrite lookup_delete_eq. }
  unfold entry_bufs in Hlive.
  destruct (cmd ea); simpl; try (by apply Hnode).
  unfold free_buf. destruct (buf ea) as [b|]; simpl; [|by apply Hnode].
  rewrite Forall_singleton in Hlive. rewrite decide_True by done. simpl.
  by apply Hnode.
Qed.

(** C9 as the claim words it fails. The entry at address 2 is not [NULL]
    and is allocated, so the [assert] holds and [queue_add] returns; but
    it is in the queue already, and [queue_add] does not append it: what
    it leaves is not the queue with this entry added, nor a queue of
    any entries at all. *)
Lemma nonnull_entry_not_appended :
  is_queue two_entries [1%positive; 2%positive] ∧
  is_Some (heap two_entries !! 2%positive) ∧
  ∃ w', queue_add (Some 2%positive) two_entries = Done w' ∧
        ¬ is_queue w' ([1%positive; 2%positive] ++ [2%positive]) ∧
        ∀ l', ¬ is_queue w' l'.
Proof.
  pose proof two_entries_is_queue as Hq.
  split; [exact Hq|]. split; [exists rate_entry; vm_compute; reflexivity|].
  destruct (requeue_world two_entries [1%positive] 2%positive Hq) as (ea & Ha & Hadd).
  eexists. split; [exact Hadd|].
  assert (Hno : ∀ l', ¬ is_queue (with_entry 2%positive (with_next (Some 2%positive) ea)
                                    two_entries) l').
  { intros l' Hq1. pose proof (iq_first _ _ Hq1) as Hf1. simpl in Hf1.
    symmetry in Hf1. destruct (back_Some_inv _ _ Hf1) as [l0 ->].
    destruct (lseg_end _ _ _ _ (iq_seg _ _ Hq1)) as (e & He & Hne).
    simpl in He. rewrite lookup_insert_eq in He. injection He as <-. done. }
  split; [apply Hno|exact Hno].
Qed.

(** X4. [queue_add] does not look whether the entry is queued already.
    Called on the newest entry of a well-formed queue it returns with
    the entry linked to itself, and no list of entries describes the
    queue any more. The calls of [queue_remove] that free the older
    entries and then this entry leave [last] pointing at the freed entry:
    the next [queue_remove], and the first turn of the loop of
    [queue_clear], read freed memory. *)
Theorem requeued_entry_dangles w l a :
  is_queue w (l ++ [a]) →
  ∃ w1 w2,
    queue_add (Some a) w = Done w1 ∧
    (∃ e, heap w1 !! a = Some e ∧ next e = Some a) ∧
    (∀ l', ¬ is_queue w1 l') ∧
    queue_remove_n (S (length l)) w1 = Done w2 ∧
    last w2 = Some a ∧ heap w2 !! a = None ∧
    queue_remove w2 = Undefined ∧
    (∀ fuel, queue_clear_loop (S fuel) w2 = Undefined).
Proof.
  intros Hq. destruct (requeue_world _ _ _ Hq) as (ea & Ha & Hadd).
  destruct (queue_remove_n_frame w l a (with_next (Some a) ea) Hq)
    as (w' & _ & Hq' & Ha' & Hn).
  rewrite Ha in Ha'.
  destruct (requeue_last_remove w' a ea Hq' Ha') as (w2 & Hr & Hl2 & Hh2).
  exists (with_entry a (with_next (Some a) ea) w), w2.
  split; [done|]. split; [|split; [|split; [|split; [done|split; [done|split]]]]].
  - eexists. split; [apply lookup_insert_eq|done].
  - intros l' Hq1. pose proof (iq_first _ _ Hq1) as Hf1. simpl in Hf1.
    rewrite (iq_first _ _ Hq), back_snoc in Hf1. symmetry in Hf1.
    destruct (back_Some_inv _ _ Hf1) as [l0 ->].
    destruct (lseg_end _ _ _ _ (iq_seg _ _ Hq1)) as (e & He & Hne).
    simpl in He. rewrite lookup_insert_eq in He. injection He as <-. done.
  - replace (S (length l)) with (length l + 1)%nat by lia.
    assert (Happ : ∀ n m w0 w3, queue_remove_n n w0 = Done w3 →
                     queue_remove_n (n + m) w0 = queue_remove_n m w3).
    { induction n as [|n IH]; intros m w0 w3; simpl; [by intros [= ->]|].
      destruct (queue_remove w0) as [w4| | |]; try done. simpl. apply IH. }
    rewrite (Happ _ _ _ _ Hn). simpl. by rewrite Hr.
  - unfold queue_remove. rewrite Hl2. unfold load. by rewrite Hh2.
  - intros fuel. simpl. rewrite Hl2. unfold load. by rewrite Hh2.
Qed.

Lemma requeued_entry_dangles_witness :
  ∃ w1 w2,
    queue_add (Some 2%positive) two_entries = Done w1 ∧
    (∃ e, heap w1 !! 2%positive = Some e ∧ next e = Some 2%positive) ∧
    (∀ l', ¬ is_queue w1 l') ∧
    queue_remove_n (S (length [1%positive])) w1 = Done w2 ∧
    last w2 = Some 2%positive ∧ heap w2 !! 2%positive = None ∧
    queue_remove w2 = Undefined ∧
    (∀ fuel, queue_clear_loop (S fuel) w2 = Undefined).
Proof.
  apply (requeued_entry_dangles two_entries [1%positive] 2%positive).
  exact two_entries_is_queue.
Defined.

(** * More about the espeak thread *)

(** ** [queue_process_entry] on an entry that makes an engine call *)

Lemma two_queued_is_queue : is_queue two_queued [1%positive; 2%positive].
Proof. by apply (is_queue_ext two_entries); [..|apply two_entries_is_queue]. Qed.

Lemma shutdown_pending_is_queue : is_queue shutdown_pending [1%positive; 2%positive].
Proof. by apply (is_queue_ext two_entries); [..|apply two_entries_is_queue]. Qed.

(** Lines 98 to 129. *)
Lemma process_entry_to_130 w r a l e c u ret x2 k :
  rpc r = L98 → queue_guard w = Some Runner →
  is_queue w (a :: l) → heap w !! a = Some e → dispatch e = Some c →
  runner_run (u :: ret :: x2 :: k) r w =
  runner_run k (MkRunner L130 (rate r) (Some a) ret) (dispatched a c w).
Proof.
  intros Hpc Hqg Hq Ha Hd.
  destruct (is_queue_cons_inv _ _ _ Hq) as (Hl & _).
  set (w1 := log (EvUnlock Queue_guard Runner) (set_owner Queue_guard None w)).
  rstep step_L98. rewrite mutex_unlock_owner by done. cbn [of_res].
  rewrite Hl. fold w1.
  rewrite runner_run_cons,
    (step_L101_call ret (MkRunner L101 (rate r) (Some a) u) w1 eq_refl a e c eq_refl Ha Hd).
  rstep step_L129. rewrite mutex_lock_free by done. done.
Qed.

(** X5. [queue_process_entry] on an entry whose kind makes an engine call
    (every kind but [CMD_SET_VOICE] and the [default:] branch): it
    releases [queue_guard], makes this one call, takes [queue_guard]
    again and releases it at the end. When the call returns [EE_OK] the
    entry is unlinked and freed, its text buffer first; on any other
    value nothing is freed and the entry stays the oldest one. The value
    [u] that the local [error] held before the call plays no part. *)
Theorem dispatch_removes_iff_ok w r a l e c u ret x2 x3 x4 :
  rpc r = L98 → queue_guard w = Some Runner →
  is_queue w (a :: l) → heap w !! a = Some e → dispatch e = Some c →
  ∃ r' w', runner_run [u; ret; x2; x3; x4] r w = Some (r', w') ∧
    rpc r' = L205 ∧ queue_guard w' = None ∧
    (ret = EE_OK →
     is_queue w' l ∧ heap w' = delete a (heap w) ∧
     trace w' =
       EvUnlock Queue_guard Runner :: EvFreeEntry a ::
       (EvFreeBuf <$> owned (heap w) a) ++
       EvLock Queue_guard Runner :: EvCall c :: EvDispatch a ::
       EvUnlock Queue_guard Runner :: trace w) ∧
    (ret ≠ EE_OK →
     is_queue w' (a :: l) ∧ heap w' = heap w ∧ bufs w' = bufs w ∧
     trace w' =
       EvUnlock Queue_guard Runner ::
       EvLock Queue_guard Runner :: EvCall c :: EvDispatch a ::
       EvUnlock Queue_guard Runner :: trace w).
Proof.
  intros Hpc Hqg Hq Ha Hd.
  rewrite (process_entry_to_130 w r a l e c) by done.
  assert (Hq3 : is_queue (dispatched a c w) (a :: l)) by (by apply (is_queue_ext w)).
  destruct (decide (ret = EE_OK)) as [Hok|Hne].
  - destruct (queue_remove_spec _ _ _ Hq3) as (w4 & Hr & Hq4 & Hs4 & Ht4 & Hh4 & Hb4).
    destruct Hs4 as (_ & _ & _ & Hqg4 & _).
    eexists _, _. split.
    { rstep step_L130_ok. rewrite Hr. cbn [of_res].
      rstep step_L132. rewrite mutex_unlock_owner by (simpl; by rewrite Hqg4).
      apply runner_run_nil. }
    split; [done|]. split; [done|]. split; [|done]. intros _.
    split; [by apply (is_queue_ext w4)|]. split; [simpl; by rewrite Hh4|].
    simpl. rewrite Ht4. done.
  - eexists _, _. split.
    { rstep step_L130_keep. rstep step_L132. rewrite mutex_unlock_owner by done.
      apply runner_run_nil. }
    split; [done|]. split; [done|]. split; [done|]. intros _.
    split; [by apply (is_queue_ext w)|]. done.
Qed.

Lemma dispatch_removes_iff_ok_witness :
  ∃ r' w', runner_run [0; 0; 0; 0; 0] (MkRunner L98 0 None 0) two_queued = Some (r', w') ∧
    rpc r' = L205 ∧ queue_guard w' = None ∧
    (0 = EE_OK →
     is_queue w' [2%positive] ∧ heap w' = delete 1%positive (heap two_queued) ∧
     trace w' =
       EvUnlock Queue_guard Runner :: EvFreeEntry 1%positive ::
       (EvFreeBuf <$> owned (heap two_queued) 1%positive) ++
       EvLock Queue_guard Runner :: EvCall (speak_text (Some 10%positive) 5) ::
       EvDispatch 1%positive ::
       EvUnlock Queue_guard Runner :: trace two_queued) ∧
    (0 ≠ EE_OK →
     is_queue w' [1%positive; 2%positive] ∧ heap w' = heap two_queued ∧
     bufs w' = bufs two_queued ∧
     trace w' =
       EvUnlock Queue_guard Runner ::
       EvLock Queue_guard Runner :: EvCall (speak_text (Some 10%positive) 5) ::
       EvDispatch 1%positive ::
       EvUnlock Queue_guard Runner :: trace two_queued).
Proof.
  apply (dispatch_removes_iff_ok two_queued (MkRunner L98 0 None 0) 1%positive [2%positive]
           (with_next (Some 2%positive) text_entry) (speak_text (Some 10%positive) 5)
           0 0 0 0 0); try reflexivity.
  exact two_queued_is_queue.
Defined.

(** X6. An entry whose engine call did not return [EE_OK] is dispatched
    again on the next turn of the loop of line 203, while [should_run]
    is set and no stop is requested: the same call is made a second
    time, for the same entry, and nothing has been freed meanwhile. *)
Theorem failed_dispatch_is_retried w r a l e c u ret x2 x3 x4 x5 x6 u' ret' :
  rpc r = L98 → queue_guard w = Some Runner →
  should_run w ≠ 0 → runner_must_stop w = 0 →
  is_queue w (a :: l) → heap w !! a = Some e → dispatch e = Some c →
  ret ≠ EE_OK →
  ∃ r' w', runner_run [u; ret; x2; x3; x4; x5; x6; u'; ret'] r w = Some (r', w') ∧
    rpc r' = L129 ∧ current r' = Some a ∧ error r' = ret' ∧
    filter (λ ev, is_call ev || is_dispatch ev) (trace w') =
      [EvCall c; EvDispatch a; EvCall c; EvDispatch a] ++
      filter (λ ev, is_call ev || is_dispatch ev) (trace w) ∧
    is_queue w' (a :: l) ∧ heap w' = heap w ∧ bufs w' = bufs w.
Proof.
  intros Hpc Hqg Hsr Hfl Hq Ha Hd Hne.
  rewrite (process_entry_to_130 w r a l e c) by done.
  assert (Hq3 : is_queue (dispatched a c w) (a :: l)) by (by apply (is_queue_ext w)).
  destruct (is_queue_cons_inv _ _ _ Hq) as (Hl & _).
  set (w5 := log (EvLock Queue_guard Runner)
               (set_owner Queue_guard (Some Runner)
                  (log (EvUnlock Queue_guard Runner)
                     (set_owner Queue_guard None (dispatched a c w))))).
  assert (Hq5 : is_queue w5 (a :: l)) by (by apply (is_queue_ext w)).
  eexists _, _. split.
  { rstep step_L130_keep. rstep step_L132. rewrite mutex_unlock_owner by done.
    cbn [of_res]. rstep step_L205. rewrite mutex_lock_free by done. cbn [of_option].
    fold w5.
    rewrite runner_run_cons, step_L203_enter; [|done|done|simpl; by rewrite Hl|done].
    rstep step_L98. rewrite mutex_unlock_owner by done. cbn [of_res].
    rewrite runner_run_cons.
    erewrite (step_L101_call ret'); [|reflexivity|simpl; by rewrite Hl|exact Ha|exact Hd].
    apply runner_run_nil. }
  simpl. rewrite Hl. split_and!; try done.
  by apply (is_queue_ext w).
Qed.

Lemma failed_dispatch_is_retried_witness :
  ∃ r' w', runner_run [0; 1; 0; 0; 0; 0; 0; 0; 0] (MkRunner L98 0 None 0) two_queued
           = Some (r', w') ∧
    rpc r' = L129 ∧ current r' = Some 1%positive ∧ error r' = 0 ∧
    filter (λ ev, is_call ev || is_dispatch ev) (trace w') =
      [EvCall (speak_text (Some 10%positive) 5); EvDispatch 1%positive;
       EvCall (speak_text (Some 10%positive) 5); EvDispatch 1%positive] ++
      filter (λ ev, is_call ev || is_dispatch ev) (trace two_queued) ∧
    is_queue w' [1%positive; 2%positive] ∧ heap w' = heap two_queued ∧
    bufs w' = bufs two_queued.
Proof.
  apply (failed_dispatch_is_retried two_queued (MkRunner L98 0 None 0) 1%positive [2%positive]
           (with_next (Some 2%positive) text_entry) (speak_text (Some 10%positive) 5)
           0 1 0 0 0 0 0 0 0); try reflexivity; try done.
  exact two_queued_is_queue.
Defined.

(** ** The start and the end of the thread *)

Lemma to_unsigned_small rate : 0 ≤ rate < 2 ^ 31 → to_unsigned rate = rate.
Proof. intros H. unfold to_unsigned. apply Z.mod_small. lia. Qed.

(** Lines 188 to 201 with [should_run] set. *)
Lemma startup_to_wait w r rets :
  rpc r = L188 → should_run w ≠ 0 → queue_guard w = None →
  length rets = 9%nat →
  ∃ r' w', runner_run rets r w = Some (r', w') ∧ rpc r' = L201w ∧
    should_run w' = should_run w ∧ queue_guard w' = None ∧
    runner_awake w' = Some Runner ∧
    heap w' = heap w ∧ bufs w' = bufs w ∧ first w' = first w ∧ last w' = last w ∧
    trace w' = rev (voice_events (defaultVoice w) ++ startup_defaults ++
                    [EvLock Queue_guard Runner; EvWait Runner_awake Runner]) ++ trace w ∧
    runner_path rets r w =
      [L188; L193; L194; L195; L196; L197; L199; L200; L201; L201w].
Proof.
  intros Hpc Hsr Hqg Hlen.
  list_cases rets 9%nat. destruct rets; [|discriminate].
  destruct (defaultVoice w) as [v|] eqn:Hv.
  - eexists _, _. split.
    { rstep (step_L188_some z r w Hpc v Hv).
      rstep step_L193. rstep step_L194. rstep step_L195. rstep step_L196.
      rstep step_L197. rstep step_L199.
      rewrite mutex_lock_free by done. cbn [of_option].
      rstep step_L200_run. rstep step_L201.
      unfold cond_wait. rewrite decide_True by done. cbn [of_res].
      apply runner_run_nil. }
    do 9 (split; [done|]).
    pstep (step_L188_some z r w Hpc v Hv).
    pstep step_L193. pstep step_L194. pstep step_L195. pstep step_L196.
    pstep step_L197. pstep step_L199.
    rewrite mutex_lock_free by done. cbn [of_option].
    pstep step_L200_run. pstep step_L201.
    unfold cond_wait. rewrite decide_True by done. cbn [of_res].
    by rewrite runner_path_nil, Hpc.
  - eexists _, _. split.
    { rstep step_L188_none.
      rstep step_L193. rstep step_L194. rstep step_L195. rstep step_L196.
      rstep step_L197. rstep step_L199.
      rewrite mutex_lock_free by done. cbn [of_option].
      rstep step_L200_run. rstep step_L201.
      unfold cond_wait. rewrite decide_True by done. cbn [of_res].
      apply runner_run_nil. }
    do 9 (split; [done|]).
    pstep step_L188_none.
    pstep step_L193. pstep step_L194. pstep step_L195. pstep step_L196.
    pstep step_L197. pstep step_L199.
    rewrite mutex_lock_free by done. cbn [of_option].
    pstep step_L200_run. pstep step_L201.
    unfold cond_wait. rewrite decide_True by done. cbn [of_res].
    by rewrite runner_path_nil, Hpc.
Qed.

(** X7. When [espeak_Initialize] and [init_audio] both succeed, the thread
    leaves [should_run] as it is, calls [init_audio] with the rate it
    got, applies the default voice (if one is set) and the default
    settings, takes [queue_guard] and enters the wait of line 201, which
    releases [queue_guard]. It comes there without a look at the queue:
    no line of the loop body (203 to 214) is on its path, nothing is
    dispatched or freed, and entries that were queued before ([last] not
    [NULL]) are untouched when the wait begins. *)
Theorem startup_waits_before_serving w r rets rate_ret audio_ret :
  rpc r = L176 → queue_guard w = None → should_run w ≠ 0 →
  length rets = 13%nat →
  rets !! 1%nat = Some rate_ret → rets !! 3%nat = Some audio_ret →
  0 ≤ rate_ret < 2 ^ 31 → 0 ≤ audio_ret →
  ∃ r' w', runner_run rets r w = Some (r', w') ∧ rpc r' = L201w ∧
    should_run w' = should_run w ∧ queue_guard w' = None ∧
    runner_awake w' = Some Runner ∧
    heap w' = heap w ∧ bufs w' = bufs w ∧ first w' = first w ∧ last w' = last w ∧
    trace w' =
      rev ([EvCall select_audio_mode; EvCall espeak_Initialize;
            EvCall (init_audio rate_ret)] ++
           voice_events (defaultVoice w) ++ startup_defaults ++
           [EvLock Queue_guard Runner; EvWait Runner_awake Runner]) ++ trace w ∧
    runner_path rets r w =
      [L176; L177; L178; L183; L188; L193; L194; L195; L196; L197;
       L199; L200; L201; L201w].
Proof.
  intros Hpc Hqg Hsr Hlen Hrate Haudio Hr Ha.
  destruct rets as [|x0 [|x1 [|x2 [|x3 rets]]]]; try discriminate.
  simpl in Hrate, Haudio, Hlen. injection Hrate as ->. injection Haudio as ->.
  set (w1 := log (EvCall (init_audio (to_unsigned rate_ret)))
               (log (EvCall espeak_Initialize) (log (EvCall select_audio_mode) w))).
  destruct (startup_to_wait w1 (at_loc L188 (at_loc L183
              (MkRunner L178 rate_ret (current (at_loc L177 r)) (error (at_loc L177 r)))))
              rets)
    as (r' & w' & Hrun & Hpc' & Hsr' & Hqg' & Hra' & Hh' & Hb' & Hf' & Hl' & Htr' & Hpath');
    [done..|lia|].
  exists r', w'. split.
  { rstep step_L176. rstep step_L177. rstep step_L178_pos. rstep step_L183_pos.
    fold w1. exact Hrun. }
  split_and!; try done.
  - rewrite Htr'. unfold w1. simpl. rewrite to_unsigned_small by done.
    rewrite !rev_app_distr. simpl. rewrite <- !app_assoc. done.
  - pstep step_L176. pstep step_L177. pstep step_L178_pos. pstep step_L183_pos.
    fold w1. rewrite Hpc.
    exact (f_equal (λ p, L176 :: L177 :: L178 :: L183 :: p) Hpath').
Qed.

Lemma startup_waits_before_serving_witness :
  ∃ r' w', runner_run (start_rets 22050 0) runner_start two_entries = Some (r', w') ∧
    rpc r' = L201w ∧
    should_run w' = should_run two_entries ∧ queue_guard w' = None ∧
    runner_awake w' = Some Runner ∧
    heap w' = heap two_entries ∧ bufs w' = bufs two_entries ∧
    first w' = first two_entries ∧ last w' = last two_entries ∧
    trace w' =
      rev ([EvCall select_audio_mode; EvCall espeak_Initialize;
            EvCall (init_audio 22050)] ++
           voice_events (defaultVoice two_entries) ++ startup_defaults ++
           [EvLock Queue_guard Runner; EvWait Runner_awake Runner]) ++ trace two_entries ∧
    runner_path (start_rets 22050 0) runner_start two_entries =
      [L176; L177; L178; L183; L188; L193; L194; L195; L196; L197;
       L199; L200; L201; L201w].
Proof.
  apply (startup_waits_before_serving two_entries runner_start (start_rets 22050 0) 22050 0);
    try reflexivity; try done; lia.
Defined.

(** X8. When the runner comes to line 203 with [should_run] cleared and no
    stop request pending, it leaves the loop, calls [espeak_Terminate]
    and returns. It frees nothing: the queued entries and their buffers
    stay allocated and queued, and [queue_guard] is left as it was. *)
Theorem shutdown_leaves_queue w r l x1 x2 x3 x4 :
  rpc r = L203 → should_run w = 0 → runner_must_stop w = 0 → is_queue w l →
  ∃ r' w', runner_run [x1; x2; x3; x4] r w = Some (r', w') ∧ rpc r' = L219 ∧
    trace w' = EvCall espeak_Terminate :: trace w ∧
    heap w' = heap w ∧ bufs w' = bufs w ∧ is_queue w' l ∧
    queue_guard w' = queue_guard w ∧
    (∀ x, runner_step x r' w' = Blocked).
Proof.
  intros Hpc Hsr Hfl Hq.
  eexists _, _. split.
  { rstep step_L203_leave. rstep step_L208_go. rstep step_L200_exit. rstep step_L218.
    apply runner_run_nil. }
  split; [done|]. split; [done|]. split; [done|]. split; [done|].
  split; [by apply (is_queue_ext w)|]. split; [done|].
  intros x. by apply step_L219.
Qed.

Lemma shutdown_leaves_queue_witness :
  ∃ r' w', runner_run [0; 0; 0; 0] (MkRunner L203 0 None 0) shutdown_pending
           = Some (r', w') ∧ rpc r' = L219 ∧
    trace w' = EvCall espeak_Terminate :: trace shutdown_pending ∧
    heap w' = heap shutdown_pending ∧ bufs w' = bufs shutdown_pending ∧
    is_queue w' [1%positive; 2%positive] ∧
    queue_guard w' = queue_guard shutdown_pending ∧
    (∀ x, runner_step x r' w' = Blocked).
Proof.
  apply (shutdown_leaves_queue shutdown_pending (MkRunner L203 0 None 0)
           [1%positive; 2%positive] 0 0 0 0); try reflexivity.
  exact shutdown_pending_is_queue.
Defined.

Lemma stop_and_shutdown_is_queue : is_queue stop_and_shutdown [1%positive; 2%positive].
Proof. by apply (is_queue_ext two_entries); [..|apply two_entries_is_queue]. Qed.

(** X9. A stop request that is pending when [should_run] is cleared is
    still served. The runner that comes to line 203 with [should_run]
    cleared and [runner_must_stop] set takes [stop_guard], frees every
    queued entry, calls [stop_speech], resets the flag, releases
    [stop_guard] and signals [stop_acknowledged], and only then calls
    [espeak_Terminate] and returns. *)
Theorem shutdown_serves_pending_stop w r l rets :
  rpc r = L203 → should_run w = 0 → runner_must_stop w ≠ 0 → stop_guard w = None →
  is_queue w l → length rets = 10%nat →
  ∃ r' w', runner_run rets r w = Some (r', w') ∧ rpc r' = L219 ∧
    trace w' =
      EvCall espeak_Terminate ::
      EvSignal Stop_acknowledged Runner :: EvUnlock Stop_guard Runner ::
      EvMustStop 0 :: EvCall stop_speech ::
      rev (release_log (heap w) l) ++
      EvQueueClear :: EvLock Stop_guard Runner :: trace w ∧
    is_queue w' [] ∧ runner_must_stop w' = 0 ∧
    stop_guard w' = None ∧ stop_acknowledged w' = None.
Proof.
  intros Hpc Hsr Hflag Hsg Hq Hlen.
  list_cases rets 10%nat. destruct rets; [|discriminate].
  set (w1 := log EvQueueClear (log (EvLock Stop_guard Runner)
                                 (set_owner Stop_guard (Some Runner) w))).
  assert (Hq1 : is_queue w1 l) by (by apply (is_queue_ext w)).
  destruct (queue_clear_spec _ _ Hq1) as (w2 & Hc & Hq2 & Hs2 & Ht2 & Hh2 & Hb2).
  destruct Hs2 as (Hms & Hsr2 & Hdv & Hqg & Hsg2 & Hra & Hsa).
  set (w3 := log (EvMustStop 0) (set_runner_must_stop 0 (log (EvCall stop_speech) w2))).
  eexists _, _. split.
  { rstep step_L203_leave. rstep step_L208_stop. rstep step_L209.
    rewrite mutex_lock_free by done. cbn [of_option].
    rstep step_L210. fold w1. rewrite Hc. cbn [of_res].
    rstep step_L211. rstep step_L212. fold w3. rstep step_L213.
    rewrite mutex_unlock_owner by (simpl; by rewrite Hsg2). cbn [of_res].
    rstep step_L214.
    rewrite runner_run_cons, step_L200_exit; [|done|simpl; by rewrite Hsr2].
    rstep step_L218. apply runner_run_nil. }
  split; [done|]. split; [simpl; by rewrite Ht2|].
  split; [by apply (is_queue_ext w2)|]. done.
Qed.

Lemma shutdown_serves_pending_stop_witness :
  ∃ r' w', runner_run (replicate 10 0) (MkRunner L203 0 None 0) stop_and_shutdown
           = Some (r', w') ∧ rpc r' = L219 ∧
    trace w' =
      EvCall espeak_Terminate ::
      EvSignal Stop_acknowledged Runner :: EvUnlock Stop_guard Runner ::
      EvMustStop 0 :: EvCall stop_speech ::
      rev (release_log (heap stop_and_shutdown) [1%positive; 2%positive]) ++
      EvQueueClear :: EvLock Stop_guard Runner :: trace stop_and_shutdown ∧
    is_queue w' [] ∧ runner_must_stop w' = 0 ∧
    stop_guard w' = None ∧ stop_acknowledged w' = None.
Proof.
  apply (shutdown_serves_pending_stop stop_and_shutdown (MkRunner L203 0 None 0)
           [1%positive; 2%positive] (replicate 10 0)); try done.
  exact stop_and_shutdown_is_queue.
Defined.

(** * More about the two threads together *)

(** ** Runs and schedules *)

Lemma reachable_rtc s s' : reachable s → rtc step s s' → reachable s'.
Proof. intros Hr Hs. induction Hs as [|s s1 s2 H1 _ IH]; [done|]. apply IH. by eapply reach_step. Qed.

Lemma run_labels_rtc ls s s' : run_labels ls s = Some s' → rtc step s s'.
Proof.
  revert s. induction ls as [|lb ls IH]; intros s; simpl.
  - intros [= <-]. apply rtc_refl.
  - destruct (exec lb s) as [s1| |] eqn:He; try done.
    intros H. eapply rtc_l; [by exists lb|by apply IH].
Qed.

Lemma run_labels_app l1 l2 s :
  run_labels (l1 ++ l2) s = (s' ← run_labels l1 s; run_labels l2 s').
Proof.
  revert s. induction l1 as [|lb l1 IH]; intros s; [done|].
  simpl. destruct (exec lb s); [apply IH|done..].
Qed.

Lemma run_labels_cons lb ls s s' :
  exec lb s = Next s' → run_labels (lb :: ls) s = run_labels ls s'.
Proof. intros H. simpl. by rewrite H. Qed.

Lemma exec_producer c w r p p' w' :
  producer_step c p w = Stepped p' w' →
  exec (LProducer c) (MkState w r p) = Next (MkState w' r p').
Proof. intros H. simpl. by rewrite H. Qed.

Lemma run_labels_runner rets r w p r' w' :
  runner_run rets r w = Some (r', w') →
  run_labels (LRunner <$> rets) (MkState w r p) = Some (MkState w' r' p).
Proof.
  revert r w. induction rets as [|x rets IH]; intros r w.
  - rewrite runner_run_nil. by intros [= <- <-].
  - rewrite runner_run_cons. rewrite fmap_cons. cbn [run_labels exec st_runner st_world st_producer].
    destruct (runner_step x r w) as [r1 w1| |]; try done. apply IH.
Qed.

Lemma after_reachable ls s :
  reachable s → reachable (after ls s).
Proof.
  intros Hr. unfold after. destruct (run_labels ls s) as [s'|] eqn:E; [|done].
  simpl. by eapply run_labels_reachable.
Qed.

Lemma runner_waiting_reachable : reachable runner_waiting.
Proof. apply after_reachable. constructor. Qed.

Lemma before_lock_reachable : reachable before_lock.
Proof. apply after_reachable. constructor. Qed.

Lemma adding_entry_reachable : reachable adding_entry.
Proof. apply after_reachable, runner_waiting_reachable. Qed.

Lemma dispatch_and_add_reachable : reachable dispatch_and_add.
Proof. apply after_reachable, runner_waiting_reachable. Qed.

Lemma stop_requested_reachable : reachable stop_requested.
Proof. apply after_reachable, runner_waiting_reachable. Qed.

Lemma runner_returned_reachable : reachable runner_returned.
Proof. apply after_reachable. constructor. Qed.

Lemma entry_queued_reachable : reachable entry_queued.
Proof. do 2 apply after_reachable. constructor. Qed.

Lemma stop_requested_steps : rtc step runner_waiting stop_requested.
Proof. apply (run_labels_rtc (producer_steps 7)). vm_compute. reflexivity. Qed.

Lemma sync_of_step s s' :
  step s s' →
  sync_of s' = sync_of s ∨ sync_of s' ∈ sync_runner (sync_of s) ++ sync_producer (sync_of s).
Proof.
  intros [l Hl]. destruct s as [w r p]. destruct l as [ret|c|]; simpl in Hl.
  - destruct (runner_step ret r w) as [r' w'| |] eqn:Hr; try done.
    injection Hl as <-. right. apply elem_of_app. left. by eapply sync_of_runner_step.
  - destruct (producer_step c p w) as [p' w'| |] eqn:Hp; try done.
    injection Hl as <-. right. apply elem_of_app. right. by eapply sync_of_producer_step.
  - injection Hl as <-. by left.
Qed.

(** ** What the invariants say about a reachable state *)

(** X10. Mutual exclusion. In every reachable state a thread that stands
    at a line which reads or writes [first], [last], a [next] field or
    [runner_must_stop] owns [queue_guard]; so the runner and the producer
    are never at such lines at the same time. *)
Theorem queue_guard_excludes s :
  reachable s →
  (runner_in_queue (rpc (st_runner s)) = true → queue_guard (st_world s) = Some Runner) ∧
  (producer_in_queue (ppc (st_producer s)) = true →
   queue_guard (st_world s) = Some Producer) ∧
  ¬ (runner_in_queue (rpc (st_runner s)) = true ∧
     producer_in_queue (ppc (st_producer s)) = true).
Proof.
  intros Hr. pose proof (sync_inv_reachable _ Hr) as Hs.
  assert (H1 : runner_in_queue (rpc (st_runner s)) = true →
               queue_guard (st_world s) = Some Runner).
  { intros H. apply (sync_rq _ Hs). by destruct (rpc (st_runner s)). }
  assert (H2 : producer_in_queue (ppc (st_producer s)) = true →
               queue_guard (st_world s) = Some Producer).
  { intros H. apply (sync_pq _ Hs). by destruct (ppc (st_producer s)). }
  split; [done|]. split; [done|].
  intros [Ha Hb]. apply H1 in Ha. apply H2 in Hb. congruence.
Qed.

Lemma queue_guard_excludes_witness :
  (runner_in_queue (rpc (st_runner adding_entry)) = true →
   queue_guard (st_world adding_entry) = Some Runner) ∧
  (producer_in_queue (ppc (st_producer adding_entry)) = true →
   queue_guard (st_world adding_entry) = Some Producer) ∧
  ¬ (runner_in_queue (rpc (st_runner adding_entry)) = true ∧
     producer_in_queue (ppc (st_producer adding_entry)) = true).
Proof.
  apply (queue_guard_excludes adding_entry). exact adding_entry_reachable.
Defined.

(** X11. No step of a reachable state faults: a step of either thread
    moves, or is blocked (on a mutex the other thread holds, in a wait,
    or because [espeak_thread] has returned). So no [assert] fails, no
    freed entry is read, nothing is freed twice, no mutex is unlocked by
    a thread that does not hold it, and the loop of [queue_clear] comes
    to its end. The producer is one thread, and it hands freshly
    allocated entries to [queue_add]. *)
Theorem reachable_steps_never_fault s lb :
  reachable s → (∃ s', exec lb s = Next s') ∨ exec lb s = Stay.
Proof.
  intros Hr. pose proof (reachable_no_fault s lb Hr) as H.
  destruct (exec lb s) as [s'| |]; [left; by exists s'|by right|done].
Qed.

Lemma reachable_steps_never_fault_witness :
  (∃ s', exec (LRunner 0) dispatch_and_add = Next s') ∨
  exec (LRunner 0) dispatch_and_add = Stay.
Proof.
  apply (reachable_steps_never_fault dispatch_and_add (LRunner 0)).
  exact dispatch_and_add_reachable.
Defined.

(** X12. In every reachable state the allocated entries are exactly the
    entries in the queue and the entry that a running [queue_add] has
    not linked yet: no allocated entry is lost from the queue, and no
    queued entry has been freed. *)
Theorem live_entries_are_queued_or_pending s :
  reachable s →
  ∃ l, is_queue (st_world s) l ∧
       ∀ a, is_Some (heap (st_world s) !! a) ↔ a ∈ l ∨ a ∈ pending (st_producer s).
Proof.
  intros Hr. destruct (reachable_inv _ Hr) as [_ (l & Hq)].
  exists l. split; [apply (qi_queue _ _ Hq)|].
  intros a. rewrite <- elem_of_dom, (qi_dom _ _ Hq). set_solver.
Qed.

Lemma live_entries_are_queued_or_pending_witness :
  ∃ l, is_queue (st_world dispatch_and_add) l ∧
       ∀ a, is_Some (heap (st_world dispatch_and_add) !! a) ↔
            a ∈ l ∨ a ∈ pending (st_producer dispatch_and_add).
Proof.
  apply (live_entries_are_queued_or_pending dispatch_and_add).
  exact dispatch_and_add_reachable.
Defined.

(** X13. While the runner has an entry in hand (lines 101 to 130, with
    [queue_guard] released across the engine call), this entry stays
    allocated and stays the oldest entry of the queue, whatever the
    producer does meanwhile: the [queue_remove] of line 131 removes the
    entry that was dispatched. *)
Theorem dispatched_entry_stays_head s :
  reachable s → dispatching (rpc (st_runner s)) = true →
  ∃ a e, current (st_runner s) = Some a ∧ last (st_world s) = Some a ∧
         heap (st_world s) !! a = Some e.
Proof.
  intros Hr Hd. destruct (reachable_inv _ Hr) as [_ (l & Hq)].
  destruct (qi_current _ _ Hq Hd) as (a & l' & -> & Hc).
  destruct (is_queue_cons_inv _ _ _ (qi_queue _ _ Hq)) as (Hl & e & He & _).
  by exists a, e.
Qed.

Lemma dispatched_entry_stays_head_witness :
  ∃ a e, current (st_runner dispatch_and_add) = Some a ∧
         last (st_world dispatch_and_add) = Some a ∧
         heap (st_world dispatch_and_add) !! a = Some e.
Proof.
  apply (dispatched_entry_stays_head dispatch_and_add).
  - exact dispatch_and_add_reachable.
  - vm_compute. reflexivity.
Defined.

(** X14. As long as every wait returns on a signal only (the states of
    [reachable]), and with one thread calling [queue_add] and
    [stop_runner]: [runner_must_stop] is set only while a call of
    [stop_runner] is between its line 144 and the end of its wait; and
    the runner is in its flush (lines 210 to 214) only while the caller
    of [stop_runner] is blocked in the wait of line 146, [stop_guard]
    released, so that the signal of line 214 finds its waiter. *)
Theorem flush_finds_waiter s :
  reachable s →
  (runner_must_stop (st_world s) ≠ 0 → stopping (ppc (st_producer s)) = true) ∧
  (in_flush (rpc (st_runner s)) = true →
   ppc (st_producer s) = S146w ∧ stop_acknowledged (st_world s) = Some Producer ∧
   stop_guard (st_world s) ≠ Some Producer).
Proof.
  intros Hr. pose proof (sync_inv_reachable _ Hr) as Hs. split.
  - intros Hfl. destruct Hs as (_ & _ & _ & _ & _ & _ & H & _). apply H.
    simpl. by apply bool_decide_eq_true.
  - intros Hf. destruct (sync_flush_waits _ Hs Hf) as [Hp Hsa].
    split; [done|]. split; [done|].
    intros Hsg. destruct Hs as (_ & _ & _ & H & _). simpl in H.
    apply H in Hsg. by rewrite Hp in Hsg.
Qed.

Lemma flush_finds_waiter_witness :
  (runner_must_stop (st_world stop_requested) ≠ 0 →
   stopping (ppc (st_producer stop_requested)) = true) ∧
  (in_flush (rpc (st_runner stop_requested)) = true →
   ppc (st_producer stop_requested) = S146w ∧
   stop_acknowledged (st_world stop_requested) = Some Producer ∧
   stop_guard (st_world stop_requested) ≠ Some Producer).
Proof.
  apply (flush_finds_waiter stop_requested). exact stop_requested_reachable.
Defined.

(** X15. While the runner is in the engine call of an entry (line 101)
    [queue_guard] is free: a [queue_add] at line 46, or a [stop_runner]
    at line 142, takes it at once. *)
Theorem dispatch_leaves_queue_guard_free s c :
  reachable s → rpc (st_runner s) = L101 →
  ppc (st_producer s) = A46 ∨ ppc (st_producer s) = S142 →
  ∃ s', exec (LProducer c) s = Next s' ∧
        queue_guard (st_world s') = Some Producer ∧
        rpc (st_runner s') = L101.
Proof.
  intros Hr Hpc Hp. pose proof (sync_inv_reachable _ Hr) as Hs.
  assert (Hqg : queue_guard (st_world s) = None).
  { destruct Hs as (H1 & H2 & _). simpl in H1, H2. rewrite Hpc in H1.
    destruct (queue_guard (st_world s)) as [[]|]; [| |done]; exfalso.
    - assert (rq_holds L101 = true) by (by apply H1). done.
    - assert (pq_holds (ppc (st_producer s)) = true) as H by (by apply H2).
      by destruct Hp as [Hp|Hp]; rewrite Hp in H. }
  destruct s as [w r p]. simpl in *.
  unfold producer_step.
  destruct Hp as [-> | ->]; unfold mutex_lock; simpl; rewrite Hqg; simpl;
    eexists; (split; [reflexivity|]); simpl; done.
Qed.

Lemma dispatch_leaves_queue_guard_free_witness :
  ∃ s', exec (LProducer CallStop) dispatch_and_add = Next s' ∧
        queue_guard (st_world s') = Some Producer ∧
        rpc (st_runner s') = L101.
Proof.
  apply (dispatch_leaves_queue_guard_free dispatch_and_add CallStop).
  - exact dispatch_and_add_reachable.
  - vm_compute. reflexivity.
  - left. vm_compute. reflexivity.
Defined.

(** X16. [espeak_thread] returns without releasing [queue_guard]. Once it
    has returned, it has returned for good and holds [queue_guard] in
    every later state; a [queue_add] at line 46 and a [stop_runner] at
    line 142 stay blocked. *)
Theorem returned_runner_keeps_queue_guard s s' :
  reachable s → rpc (st_runner s) = L219 → rtc step s s' →
  rpc (st_runner s') = L219 ∧ queue_guard (st_world s') = Some Runner ∧
  (ppc (st_producer s') = A46 ∨ ppc (st_producer s') = S142 →
   ∀ c, exec (LProducer c) s' = Stay).
Proof.
  intros Hr Hpc Hsteps.
  assert (Hpc' : rpc (st_runner s') = L219).
  { clear Hr. induction Hsteps as [|s s1 s2 [lb Hl] _ IH]; [done|]. apply IH.
    destruct s as [w r p]. destruct lb as [ret|c|]; simpl in *.
    - unfold runner_step in Hl. rewrite Hpc in Hl. done.
    - destruct (producer_step c p w); try done. by injection Hl as <-.
    - by injection Hl as <-. }
  pose proof (reachable_rtc _ _ Hr Hsteps) as Hr'.
  pose proof (sync_inv_reachable _ Hr') as Hs.
  assert (Hqg : queue_guard (st_world s') = Some Runner).
  { apply (sync_rq _ Hs). by rewrite Hpc'. }
  split; [done|]. split; [done|].
  intros Hp c. destruct s' as [w r p]. simpl in *.
  unfold producer_step. destruct Hp as [-> | ->]; unfold mutex_lock; simpl; by rewrite Hqg.
Qed.

Lemma returned_runner_keeps_queue_guard_witness :
  rpc (st_runner runner_returned) = L219 ∧
  queue_guard (st_world runner_returned) = Some Runner ∧
  (ppc (st_producer runner_returned) = A46 ∨ ppc (st_producer runner_returned) = S142 →
   ∀ c, exec (LProducer c) runner_returned = Stay).
Proof.
  apply (returned_runner_keeps_queue_guard runner_returned runner_returned).
  - exact runner_returned_reachable.
  - vm_compute. reflexivity.
  - apply rtc_refl.
Defined.

Lemma sync_no_pick_step :
  ∀ x, sync_ok x → sync_no_pick x → Forall sync_no_pick (sync_runner x ++ sync_producer x).
Proof.
  assert (H : Forall (λ x, sync_ok x → sync_no_pick x →
                           Forall sync_no_pick (sync_runner x ++ sync_producer x))
                     all_sync) by compute_done.
  intros x. rewrite Forall_forall in H. apply H, elem_of_all_sync.
Qed.

(** X17. While [runner_must_stop] is set the runner never stands at line
    98, where [queue_process_entry] picks the oldest entry: once a stop
    request has set the flag, no further entry is picked for dispatch
    until the flush has reset it. (The entry that the runner has in hand
    when the flag is set, at line 101, is still dispatched.) *)
Theorem no_pick_under_stop s :
  reachable s → runner_must_stop (st_world s) ≠ 0 → rpc (st_runner s) ≠ L98.
Proof.
  intros Hr Hfl.
  assert (H : sync_no_pick (sync_of s)).
  { clear Hfl. induction Hr as [run voice|s s' Hr IH Hstep]; [by compute_done|].
    pose proof (sync_inv_reachable _ Hr) as Hs.
    destruct (sync_of_step _ _ Hstep) as [->|Hin]; [done|].
    pose proof (sync_no_pick_step _ Hs IH) as Hall.
    rewrite Forall_forall in Hall. by apply Hall. }
  apply H. simpl. by apply bool_decide_eq_true.
Qed.

Lemma no_pick_under_stop_witness : rpc (st_runner stop_requested) ≠ L98.
Proof.
  apply (no_pick_under_stop stop_requested).
  - exact stop_requested_reachable.
  - vm_compute. discriminate.
Defined.

(** ** Blocked threads *)

Lemma sync_pending_step :
  ∀ x, sync_ok x → sync_pending x → Forall sync_pending (sync_runner x ++ sync_producer x).
Proof.
  assert (H : Forall (λ x, sync_ok x → sync_pending x →
                           Forall sync_pending (sync_runner x ++ sync_producer x))
                     all_sync) by compute_done.
  intros x. rewrite Forall_forall in H. apply H, elem_of_all_sync.
Qed.

Lemma sync_started_step :
  ∀ x, sync_ok x → sync_pending x → sync_started x →
       Forall sync_started (sync_runner x ++ sync_producer x).
Proof.
  assert (H : Forall (λ x, sync_ok x → sync_pending x → sync_started x →
                           Forall sync_started (sync_runner x ++ sync_producer x))
                     all_sync) by compute_done.
  intros x. rewrite Forall_forall in H. apply H, elem_of_all_sync.
Qed.

Lemma sync_not_stuck :
  ∀ x, sync_ok x → sync_pending x → sync_started x → s_rl x ≠ L219 →
       sync_runner x ≠ [] ∨ sync_producer x ≠ [].
Proof.
  assert (H : Forall (λ x, sync_ok x → sync_pending x → sync_started x → s_rl x ≠ L219 →
                           sync_runner x ≠ [] ∨ sync_producer x ≠ [])
                     all_sync) by compute_done.
  intros x. rewrite Forall_forall in H. apply H, elem_of_all_sync.
Qed.

(** A thread is blocked only where the abstraction has no move for it. *)
Lemma runner_blocked_sync ret w r p :
  runner_step ret r w = Blocked → sync_runner (sync_of (MkState w r p)) = [].
Proof.
  intros Hstep. destruct r as [rl rt cur err].
  unfold runner_step in Hstep. simpl in Hstep.
  destruct rl; inv_step Hstep.
  all: sync_fields.
Qed.

Lemma producer_blocked_sync w r p :
  producer_step CallStop p w = Blocked → sync_producer (sync_of (MkState w r p)) = [].
Proof.
  intros Hstep. destruct p as [pl ent].
  unfold producer_step in Hstep. simpl in Hstep.
  destruct pl; inv_step Hstep.
  all: sync_fields.
Qed.

Lemma pending_inv_reachable s : reachable s → pending_inv s.
Proof.
  induction 1 as [run voice|s s' Hr IH Hstep]; [by compute_done|].
  pose proof (sync_inv_reachable _ Hr) as Hs.
  unfold pending_inv. destruct (sync_of_step _ _ Hstep) as [->|Hin]; [done|].
  pose proof (sync_pending_step _ Hs IH) as Hall.
  rewrite Forall_forall in Hall. by apply Hall.
Qed.

Lemma started_inv_step s s' : reachable s → started_inv s → step s s' → started_inv s'.
Proof.
  intros Hr Hst Hstep.
  pose proof (sync_inv_reachable _ Hr) as Hs.
  pose proof (pending_inv_reachable _ Hr) as Hp.
  unfold started_inv. destruct (sync_of_step _ _ Hstep) as [->|Hin]; [done|].
  pose proof (sync_started_step _ Hs Hp Hst) as Hall.
  rewrite Forall_forall in Hall. by apply Hall.
Qed.

Lemma started_inv_rtc s s' : reachable s → started_inv s → rtc step s s' → started_inv s'.
Proof.
  intros Hr Hst Hs. induction Hs as [|s s1 s2 H1 _ IH]; [done|].
  apply IH; [by eapply reach_step|by eapply started_inv_step].
Qed.

(** X18. No deadlock after the start. From a reachable state where the
    runner has taken [queue_guard] at line 199 and no stop request is
    pending, every state the two threads come to is one in which the
    runner or the producer can take a step, as long as [espeak_thread]
    has not returned. A wait returns on a signal only, and there is one
    producer thread. *)
Theorem no_deadlock_after_startup s0 s :
  reachable s0 → startup (rpc (st_runner s0)) = false →
  runner_must_stop (st_world s0) = 0 →
  rtc step s0 s → rpc (st_runner s) ≠ L219 →
  runner_can_step s ∨ producer_can_step s.
Proof.
  intros Hr0 Hst0 Hfl0 Hsteps Hpc.
  assert (Hst : started_inv s).
  { apply (started_inv_rtc s0); [done| |done].
    unfold started_inv, sync_started, sync_of. simpl. rewrite Hfl0. simpl. done. }
  pose proof (reachable_rtc _ _ Hr0 Hsteps) as Hr.
  pose proof (sync_inv_reachable _ Hr) as Hs.
  pose proof (pending_inv_reachable _ Hr) as Hp.
  destruct (sync_not_stuck _ Hs Hp Hst Hpc) as [Hn|Hn].
  - left. pose proof (reachable_no_fault s (LRunner 0) Hr) as Hnf.
    destruct s as [w r p]. unfold runner_can_step. simpl in *.
    destruct (runner_step 0 r w) as [r' w'| |] eqn:E.
    + exists 0, (MkState w' r' p). simpl. by rewrite E.
    + destruct Hn. by eapply runner_blocked_sync.
    + done.
  - right. pose proof (reachable_no_fault s (LProducer CallStop) Hr) as Hnf.
    destruct s as [w r p]. unfold producer_can_step. simpl in *.
    destruct (producer_step CallStop p w) as [p' w'| |] eqn:E; [|..].
    + exists CallStop, (MkState w' r p'). simpl. by rewrite E.
    + destruct Hn. by eapply producer_blocked_sync.
    + done.
Qed.

Lemma no_deadlock_after_startup_witness :
  runner_can_step stop_requested ∨ producer_can_step stop_requested.
Proof.
  apply (no_deadlock_after_startup runner_waiting stop_requested).
  - exact runner_waiting_reachable.
  - vm_compute. reflexivity.
  - vm_compute. reflexivity.
  - exact stop_requested_steps.
  - vm_compute. discriminate.
Defined.

Lemma both_waiting_step s s' : both_waiting s → step s s' → both_waiting s'.
Proof.
  intros (Hr & Hp & Hra & Hsa) [lb Hl]. destruct s as [w r p]. simpl in *.
  destruct lb as [ret|c|]; simpl in Hl.
  - unfold runner_step in Hl. rewrite Hr in Hl.
    unfold cond_wake in Hl. simpl in Hl. rewrite Hra in Hl.
    rewrite decide_True in Hl by done. done.
  - unfold producer_step in Hl. rewrite Hp in Hl.
    unfold cond_wake in Hl. simpl in Hl. rewrite Hsa in Hl.
    rewrite decide_True in Hl by done. done.
  - injection Hl as <-. done.
Qed.

Lemma both_waiting_rtc s s' : both_waiting s → rtc step s s' → both_waiting s'.
Proof.
  intros Hb Hs. induction Hs as [|s s1 s2 H1 _ IH]; [done|].
  apply IH. by eapply both_waiting_step.
Qed.

(** The mutexes and the conditions while the runner starts and the
    producer is between two calls. *)
Lemma idle_sync s :
  sync_inv s → startup (rpc (st_runner s)) = true → ppc (st_producer s) = P_idle →
  queue_guard (st_world s) = None ∧ stop_guard (st_world s) = None ∧
  runner_awake (st_world s) = None ∧ stop_acknowledged (st_world s) = None.
Proof.
  intros H Hst Hp. unfold sync_inv, sync_ok, sync_of in H. simpl in H.
  rewrite Hp in H. simpl in H.
  destruct H as (H1 & H2 & H3 & H4 & H5 & H6 & _).
  assert (Hrq : rq_holds (rpc (st_runner s)) = false) by (by destruct (rpc (st_runner s))).
  assert (Hrs : rs_holds (rpc (st_runner s)) = false) by (by destruct (rpc (st_runner s))).
  rewrite Hrq in H1. rewrite Hrs in H3.
  split; [|split; [|split]].
  - destruct (queue_guard (st_world s)) as [[]|]; [| |done]; exfalso.
    + assert (false = true) by (by apply H1). done.
    + assert (false = true) by (by apply H2). done.
  - destruct (stop_guard (st_world s)) as [[]|]; [| |done]; exfalso.
    + assert (false = true) by (by apply H3). done.
    + assert (false = true) by (by apply H4). done.
  - destruct (runner_awake (st_world s)) as [t|]; [exfalso|done].
    destruct H5 as [_ H5]; [done|]. rewrite H5 in Hst. done.
  - destruct (stop_acknowledged (st_world s)) as [t|]; [exfalso|done].
    destruct H6 as [_ H6]; [done|]. done.
Qed.

(** X19. A stop request made before the runner first waits is never
    acknowledged. When the producer calls [stop_runner] while the runner
    stands at line 199, [should_run] being set, and comes to its wait of
    line 146 before the runner takes [queue_guard], the signal of line
    145 finds no waiter and is lost; the runner then blocks in the wait
    of line 201, and from there on neither thread moves again, whatever
    happens to [should_run]. A wait returns on a signal only. *)
Theorem stop_before_first_wait_deadlocks s :
  reachable s → rpc (st_runner s) = L199 → ppc (st_producer s) = P_idle →
  should_run (st_world s) ≠ 0 →
  ∃ s', run_labels (producer_steps 7 ++ runner_steps 3) s = Some s' ∧
        ∀ s'', rtc step s' s'' →
               rpc (st_runner s'') = L201w ∧ ppc (st_producer s'') = S146w.
Proof.
  intros Hr Hpc Hpp Hrun.
  destruct (idle_sync s (sync_inv_reachable _ Hr)) as (Hqg & Hsg & Hra & Hsa);
    [by rewrite Hpc|done|].
  destruct s as [w r p]. destruct r as [rl rt cur err]. destruct p as [pl ent].
  destruct w as [h b f l ms sr dv qg sg ra sa tr]. simpl in *. subst.
  destruct sr as [|x|x]; [done|..];
    (eexists; split; [lazy; reflexivity|]);
    intros s'' Hs; (eapply both_waiting_rtc in Hs; [|done]);
    by destruct Hs as (? & ? & _).
Qed.

Lemma stop_before_first_wait_deadlocks_witness :
  ∃ s', run_labels (producer_steps 7 ++ runner_steps 3) before_lock = Some s' ∧
        ∀ s'', rtc step s' s'' →
               rpc (st_runner s'') = L201w ∧ ppc (st_producer s'') = S146w.
Proof.
  apply (stop_before_first_wait_deadlocks before_lock).
  - exact before_lock_reachable.
  - vm_compute. reflexivity.
  - vm_compute. reflexivity.
  - vm_compute. discriminate.
Defined.

(** ** A stop request and an entry, served *)

(** The mutexes, the acknowledgment and the flag while the runner waits
    and the producer is between two calls. *)
Lemma waiting_sync s :
  sync_inv s → rpc (st_runner s) = L201w → ppc (st_producer s) = P_idle →
  queue_guard (st_world s) = None ∧ stop_guard (st_world s) = None ∧
  stop_acknowledged (st_world s) = None ∧ runner_must_stop (st_world s) = 0.
Proof.
  intros H Hr Hp. unfold sync_inv, sync_ok, sync_of in H. simpl in H.
  rewrite Hp, Hr in H. simpl in H.
  destruct H as (H1 & H2 & H3 & H4 & H5 & H6 & H7 & _).
  split; [|split; [|split]].
  - destruct (queue_guard (st_world s)) as [[]|]; [| |done]; exfalso.
    + assert (false = true) by (by apply H1). done.
    + assert (false = true) by (by apply H2). done.
  - destruct (stop_guard (st_world s)) as [[]|]; [| |done]; exfalso.
    + assert (false = true) by (by apply H3). done.
    + assert (false = true) by (by apply H4). done.
  - destruct (stop_acknowledged (st_world s)) as [t|]; [exfalso|done].
    destruct H6 as [_ H6]; [done|]. done.
  - destruct (decide (runner_must_stop (st_world s) = 0)) as [|Hn]; [done|exfalso].
    assert (false = true); [|done]. apply H7. by apply bool_decide_eq_true.
Qed.

Lemma filter_rev_bufs (P : event → bool) (bs : list addr) :
  (∀ b, P (EvFreeBuf b) = false) → filter P (rev (EvFreeBuf <$> bs)) = [].
Proof.
  intros Hb. induction bs as [|b bs IH]; [done|].
  rewrite fmap_cons. simpl rev. rewrite filter_app, IH, filter_cons, Hb. done.
Qed.

Lemma filter_release_log (P : event → bool) h l :
  (∀ a, P (EvFreeEntry a) = false) → (∀ b, P (EvFreeBuf b) = false) →
  filter P (rev (release_log h l)) = [].
Proof.
  intros He Hb. induction l as [|a l IH]; [done|].
  rewrite release_log_cons, rev_app_distr. simpl rev. rewrite <- app_assoc.
  rewrite !filter_app, IH, filter_rev_bufs by done.
  simpl. rewrite filter_cons, He. done.
Qed.

(** X20. A stop request made while the runner waits at line 201 and the
    producer is between two calls is served. The producer runs
    [stop_runner] to its wait; the runner wakes, frees every queued
    entry, calls [stop_speech] once, dispatches nothing, resets the flag
    and signals; [stop_runner] returns. Then no entry is allocated,
    [first] and [last] are [NULL], [runner_must_stop] is 0 and
    [stop_guard] is free. *)
Theorem stop_on_waiting_runner_returns s :
  reachable s → rpc (st_runner s) = L201w → ppc (st_producer s) = P_idle →
  ∃ s', run_labels (producer_steps 7 ++ runner_steps 9 ++ producer_steps 2) s = Some s' ∧
        ppc (st_producer s') = S148 ∧ rpc (st_runner s') = L200 ∧
        heap (st_world s') = ∅ ∧ first (st_world s') = None ∧ last (st_world s') = None ∧
        runner_must_stop (st_world s') = 0 ∧
        queue_guard (st_world s') = Some Runner ∧ stop_guard (st_world s') = None ∧
        filter is_call (trace (st_world s')) =
          EvCall stop_speech :: filter is_call (trace (st_world s)) ∧
        filter is_dispatch (trace (st_world s')) = filter is_dispatch (trace (st_world s)).
Proof.
  intros Hr Hpc Hpp.
  destruct (reachable_inv _ Hr) as [Hs (l & Hq)].
  destruct (waiting_sync s Hs Hpc Hpp) as (Hqg & Hsg & Hsa & Hfl).
  pose proof (qi_queue _ _ Hq) as Hiq. pose proof (qi_dom _ _ Hq) as Hdom.
  destruct s as [w r p]. destruct r as [rl rt cur err]. destruct p as [pl ent].
  cbn [st_world st_runner st_producer rpc ppc] in *. subst rl pl.
  unfold pending in Hdom. simpl in Hdom.
  assert (H1 : ∃ w1,
    run_labels (producer_steps 7 ++ runner_steps 4)
      (MkState w (MkRunner L201w rt cur err) (MkProducer P_idle ent)) =
    Some (MkState w1 (MkRunner L210 rt cur err) (MkProducer S146w ent)) ∧
    heap w1 = heap w ∧ bufs w1 = bufs w ∧ first w1 = first w ∧ last w1 = last w ∧
    queue_guard w1 = Some Runner ∧ stop_guard w1 = Some Runner ∧
    runner_awake w1 = None ∧ stop_acknowledged w1 = Some Producer ∧
    filter is_call (trace w1) = filter is_call (trace w) ∧
    filter is_dispatch (trace w1) = filter is_dispatch (trace w)).
  { clear Hiq Hdom Hq Hs Hr.
    destruct w as [h b f la ms sr dv qg sg ra sa tr]. simpl in *. subst.
    destruct sr as [|x|x]; destruct la as [y|];
      (eexists; split; [lazy; reflexivity|done]). }
  destruct H1 as (w1 & H1 & Hh1 & Hb1 & Hf1 & Hl1 & Hqg1 & Hsg1 & Hra1 & Hsa1 & Hc1 & Hd1).
  assert (Hq1 : is_queue (log EvQueueClear w1) l) by (by apply (is_queue_ext w)).
  destruct (queue_clear_spec _ _ Hq1) as (w2 & Hc & Hq2 & Hs2 & Ht2 & Hh2 & Hb2).
  destruct Hs2 as (Hms2 & Hsr2 & Hdv2 & Hqg2 & Hsg2 & Hra2 & Hsa2).
  simpl in Hms2, Hsr2, Hdv2, Hqg2, Hsg2, Hra2, Hsa2, Ht2, Hh2, Hb2.
  assert (H2 : exec (LRunner 0) (MkState w1 (MkRunner L210 rt cur err) (MkProducer S146w ent)) =
               Next (MkState w2 (MkRunner L211 rt cur err) (MkProducer S146w ent))).
  { simpl. rewrite step_L210 by done. rewrite Hc. done. }
  assert (H3 : ∃ w3,
    run_labels (runner_steps 4 ++ producer_steps 2)
      (MkState w2 (MkRunner L211 rt cur err) (MkProducer S146w ent)) =
    Some (MkState w3 (MkRunner L200 rt cur err) (MkProducer S148 ent)) ∧
    heap w3 = heap w2 ∧ first w3 = first w2 ∧ last w3 = last w2 ∧
    runner_must_stop w3 = 0 ∧ queue_guard w3 = Some Runner ∧ stop_guard w3 = None ∧
    filter is_call (trace w3) = EvCall stop_speech :: filter is_call (trace w2) ∧
    filter is_dispatch (trace w3) = filter is_dispatch (trace w2)).
  { clear Hq2 Hc Ht2 Hh2 Hb2 Hq1 H2.
    destruct w2 as [h b f la ms sr dv qg sg ra sa tr]. simpl in *. subst.
    rewrite Hqg1, Hsg1, Hsa1.
    eexists; split; [lazy; reflexivity|done]. }
  destruct H3 as (w3 & H3 & Hh3 & Hf3 & Hl3 & Hms3 & Hqg3 & Hsg3 & Hc3 & Hd3).
  exists (MkState w3 (MkRunner L200 rt cur err) (MkProducer S148 ent)).
  split.
  { change (producer_steps 7 ++ runner_steps 9 ++ producer_steps 2)
      with ((producer_steps 7 ++ runner_steps 4) ++
            LRunner 0 :: (runner_steps 4 ++ producer_steps 2)).
    rewrite run_labels_app, H1. cbn [mbind option_bind run_labels].
    rewrite H2. exact H3. }
  simpl. destruct (is_queue_nil_inv _ Hq2) as [Hf2 Hl2].
  split_and!; try done; try congruence.
  - rewrite Hh3, Hh2. apply dom_empty_inv_L. rewrite foldr_delete_dom, Hh1, Hdom. set_solver.
  - rewrite Hc3, Ht2, filter_app, filter_release_log by done. simpl.
    rewrite filter_cons. simpl. by rewrite Hc1.
  - rewrite Hd3, Ht2, filter_app, filter_release_log by done. simpl.
    rewrite filter_cons. simpl. by rewrite Hd1.
Qed.

Lemma stop_on_waiting_runner_returns_witness :
  ∃ s', run_labels (producer_steps 7 ++ runner_steps 9 ++ producer_steps 2) entry_queued
        = Some s' ∧
        ppc (st_producer s') = S148 ∧ rpc (st_runner s') = L200 ∧
        heap (st_world s') = ∅ ∧ first (st_world s') = None ∧ last (st_world s') = None ∧
        runner_must_stop (st_world s') = 0 ∧
        queue_guard (st_world s') = Some Runner ∧ stop_guard (st_world s') = None ∧
        filter is_call (trace (st_world s')) =
          EvCall stop_speech :: filter is_call (trace (st_world entry_queued)) ∧
        filter is_dispatch (trace (st_world s')) =
          filter is_dispatch (trace (st_world entry_queued)).
Proof.
  apply (stop_on_waiting_runner_returns entry_queued).
  - exact entry_queued_reachable.
  - vm_compute. reflexivity.
  - vm_compute. reflexivity.
Defined.

Lemma dispatch_with_next n e : dispatch (with_next n e) = dispatch e.
Proof. done. Qed.

(** [queue_add] writes [next] fields only. *)
Lemma store_next_fields p n w w' x ex :
  store_next p n w = Done w' → heap w !! x = Some ex →
  ∃ m, heap w' !! x = Some (with_next m ex).
Proof.
  unfold store_next. destruct p as [y|]; [|done].
  destruct (heap w !! y) as [ey|] eqn:Hy; [|done]. intros [= <-] Hx. simpl.
  destruct (decide (y = x)) as [->|Hne].
  - rewrite lookup_insert_eq. rewrite Hx in Hy. injection Hy as ->. by eexists.
  - rewrite lookup_insert_ne by done. exists (next ex). rewrite Hx. by destruct ex.
Qed.

Lemma queue_add_fields p w w' x ex :
  queue_add p w = Done w' → heap w !! x = Some ex →
  ∃ m, heap w' !! x = Some (with_next m ex).
Proof.
  unfold queue_add. destruct p as [a|]; [|done].
  destruct (store_next (Some a) None w) as [w1| | |] eqn:H1; try done.
  cbn [mbind res_bind].
  intros H Hx. destruct (store_next_fields _ _ _ _ _ _ H1 Hx) as [m1 Hx1].
  set (w2 := match last w1 with Some _ => w1 | None => set_last (Some a) w1 end) in H.
  assert (Hh2 : heap w2 = heap w1) by (unfold w2; by destruct (last w1)).
  clearbody w2. revert H.
  destruct (first w2) as [f|] eqn:Hf.
  - destruct (store_next (Some f) (Some a) w2) as [w3| | |] eqn:H3; try done.
    cbn [mbind res_bind].
    rewrite <- Hh2 in Hx1.
    destruct (store_next_fields _ _ _ _ _ _ H3 Hx1) as [m3 Hx3].
    destruct (load (first w3) w3) as [ef| | |]; try done. cbn [mbind res_bind].
    intros [= <-]. simpl. exists m3. rewrite Hx3. by destruct ex.
  - intros [= <-]. simpl. rewrite Hh2. eauto.
Qed.

(** X21. An entry handed to [queue_add] while the runner waits on an
    empty queue, [should_run] being set and no stop request pending
    ([runner_must_stop] is 0), reaches the engine; the state is one of
    [reachable], where a wait returns on a signal only. The producer runs
    [queue_add] to its end; the runner wakes and makes the engine call of
    the kind of this entry, and no other call; the call returning
    [EE_OK], it frees the entry: the queue is empty again and no entry
    is allocated. *)
Theorem enqueued_entry_is_dispatched s a e c :
  reachable s → rpc (st_runner s) = L201w → ppc (st_producer s) = P_idle →
  should_run (st_world s) ≠ 0 → runner_must_stop (st_world s) = 0 →
  last (st_world s) = None →
  Forall (λ b, b ∉ bufs (st_world s)) (entry_bufs e) → dispatch e = Some c →
  ∃ s', run_labels ([LProducer (CallAdd a e)] ++ producer_steps 4 ++ runner_steps 7) s
        = Some s' ∧
        rpc (st_runner s') = L205 ∧ ppc (st_producer s') = P_idle ∧
        filter is_call (trace (st_world s')) =
          EvCall c :: filter is_call (trace (st_world s)) ∧
        heap (st_world s') = ∅ ∧ first (st_world s') = None ∧ last (st_world s') = None.
Proof.
  intros Hr Hpc Hpp Hsr Hfl Hlast Hfresh Hd.
  destruct (reachable_inv _ Hr) as [Hs (l & Hq)].
  destruct (waiting_sync s Hs Hpc Hpp) as (Hqg & Hsg & Hsa & _).
  pose proof (qi_queue _ _ Hq) as Hiq. pose proof (qi_dom _ _ Hq) as Hdom.
  destruct s as [w r p]. destruct r as [rl rt cur err]. destruct p as [pl ent].
  cbn [st_world st_runner st_producer rpc ppc] in *. subst rl pl.
  unfold pending in Hdom. simpl in Hdom.
  assert (l = []) as ->.
  { destruct l as [|x l]; [done|].
    destruct (is_queue_cons_inv _ _ _ Hiq) as [? _]; congruence. }
  assert (Hh : heap w = ∅). { apply dom_empty_inv_L. rewrite Hdom. set_solver. }
  (* line by line through queue_add *)
  assert (Hal : alloc_entry a e w =
                Some (set_bufs (bufs w ∪ list_to_set (entry_bufs e))
                        (set_heap (<[a := e]> (heap w)) w))).
  { unfold alloc_entry. rewrite decide_True; [done|].
    split; [by rewrite Hh, lookup_empty|done]. }
  set (w1 := set_bufs _ _) in Hal.
  destruct (alloc_entry_valid w [] a e w1 Hiq) as (Hq1 & Hv1 & Hs1 & Ht1 & Hh1);
    [by rewrite Hdom; set_solver|done|].
  set (w2 := log (EvLock Queue_guard Producer) (set_owner Queue_guard (Some Producer) w1)).
  assert (Hq2 : is_queue w2 []) by (by apply (is_queue_ext w1)).
  assert (Hv2 : valid_entry w2 [] a) by (by apply (valid_entry_ext w1)).
  destruct (queue_add_spec _ _ _ Hq2 Hv2) as (w3 & Hadd & Hq3 & Hs3 & Ht3 & Hb3 & Hd3 & Ho3).
  destruct Hs3 as (Hms3 & Hsr3 & Hdv3 & Hqg3 & Hsg3 & Hra3 & Hsa3).
  simpl in Hms3, Hsr3, Hdv3, Hqg3, Hsg3, Hra3, Hsa3, Ht3, Hb3.
  assert (Hx2 : heap w2 !! a = Some e) by (simpl; apply lookup_insert_eq).
  destruct (queue_add_fields _ _ _ _ _ Hadd Hx2) as [m Hx3].
  set (w5 := cond_signal Runner_awake Producer
               (log (EvUnlock Queue_guard Producer)
                  (set_owner Queue_guard None (log (EvEnqueue a) w3)))).
  assert (H1 : run_labels ([LProducer (CallAdd a e)] ++ producer_steps 4)
                 (MkState w (MkRunner L201w rt cur err) (MkProducer P_idle ent)) =
               Some (MkState w5 (MkRunner L201w rt cur err) (MkProducer P_idle (Some a)))).
  { change ([LProducer (CallAdd a e)] ++ producer_steps 4)
      with [LProducer (CallAdd a e); LProducer CallStop; LProducer CallStop;
            LProducer CallStop; LProducer CallStop].
    erewrite run_labels_cons;
      [|apply exec_producer; unfold producer_step; cbn [ppc]; by rewrite Hal].
    erewrite run_labels_cons;
      [|apply exec_producer; unfold producer_step; cbn [ppc entry];
        rewrite mutex_lock_free by (simpl; congruence); reflexivity].
    fold w2.
    erewrite run_labels_cons;
      [|apply exec_producer; unfold producer_step; cbn [ppc entry];
        rewrite Hadd; reflexivity].
    erewrite run_labels_cons;
      [|apply exec_producer; unfold producer_step; cbn [ppc entry];
        rewrite mutex_unlock_owner by (simpl; by rewrite Hqg3); reflexivity].
    erewrite run_labels_cons;
      [|apply exec_producer; unfold producer_step; cbn [ppc entry]; reflexivity].
    done. }
  (* the runner: wake, line 203, queue_process_entry *)
  destruct (is_queue_cons_inv _ _ _ Hq3) as (Hl3 & _).
  set (w6 := set_owner Queue_guard (Some Runner) w5).
  assert (Hq6 : is_queue w6 [a]) by (by apply (is_queue_ext w3)).
  destruct (queue_process_entry_call w6 (MkRunner L98 rt cur err) a [] (with_next m e) c
              0 0 0 0 0) as (r' & w' & Hrun & Hpc' & Hqg' & Hc' & Hok & _);
    [done|done|done|exact Hx3|done|].
  destruct (Hok eq_refl) as [Hq' Hh'].
  assert (H2 : runner_run [0; 0; 0; 0; 0; 0; 0] (MkRunner L201w rt cur err) w5 = Some (r', w')).
  { rstep step_L201w. unfold cond_wake. cbn [waiter owner w5 cond_signal log set_waiter
      set_runner_awake runner_awake queue_guard].
    rewrite decide_False by done. cbn [set_owner set_queue_guard log queue_guard].
    cbn [of_option]. fold w5. fold w6.
    rewrite runner_run_cons, step_L203_enter;
      [|done|simpl; congruence|simpl; by rewrite Hl3|simpl; congruence].
    exact Hrun. }
  exists (MkState w' r' (MkProducer P_idle (Some a))). split.
  { rewrite app_assoc, run_labels_app, H1. cbn [mbind option_bind].
    change (runner_steps 7) with (LRunner <$> [0; 0; 0; 0; 0; 0; 0]).
    by apply run_labels_runner. }
  destruct (is_queue_nil_inv _ Hq') as [Hf' Hl'].
  cbn [st_world st_runner st_producer ppc].
  split; [done|]. split; [done|]. split; [|split; [|done]].
  - rewrite Hc'. simpl. rewrite Ht3. simpl. by rewrite ?Ht1.
  - rewrite Hh'. simpl. apply dom_empty_inv_L. rewrite dom_delete_L, Hd3. simpl.
    rewrite dom_insert_L, Hh. set_solver.
Qed.

Lemma enqueued_entry_is_dispatched_witness :
  ∃ s', run_labels ([LProducer (CallAdd 1%positive text_entry)] ++ producer_steps 4 ++
                    runner_steps 7) runner_waiting
        = Some s' ∧
        rpc (st_runner s') = L205 ∧ ppc (st_producer s') = P_idle ∧
        filter is_call (trace (st_world s')) =
          EvCall (speak_text (Some 10%positive) 5) ::
          filter is_call (trace (st_world runner_waiting)) ∧
        heap (st_world s') = ∅ ∧ first (st_world s') = None ∧ last (st_world s') = None.
Proof.
  apply (enqueued_entry_is_dispatched runner_waiting 1%positive text_entry).
  - exact runner_waiting_reachable.
  - vm_compute. reflexivity.
  - vm_compute. reflexivity.
  - vm_compute. discriminate.
  - vm_compute. reflexivity.
  - vm_compute. reflexivity.
  - apply Forall_singleton. vm_compute. set_solver.
  - reflexivity.
Defined.

(** * A wait that returns without a signal *)

Lemma reachable_posix_of s : reachable s → reachable_posix s.
Proof.
  induction 1 as [run voice|s s' _ IH [lb Hl]]; [constructor|].
  eapply reach_posix_step; [exact IH|]. by exists (PStep lb).
Qed.

Lemma run_posix_reachable ls s s' :
  reachable_posix s → run_posix ls s = Some s' → reachable_posix s'.
Proof.
  revert s. induction ls as [|lb ls IH]; intros s Hr; simpl.
  - by intros [= <-].
  - destruct (exec_posix lb s) as [s1| |] eqn:He; try done.
    apply IH. eapply reach_posix_step; [done|]. by exists lb.
Qed.

(** C4. [stop_runner] can return with nothing flushed. Line 146 is one
    call of [pthread_cond_wait] and not a loop on a condition, and POSIX
    lets the call return without a signal. From every reachable state
    where the runner waits at line 201 and the producer is between two
    calls: the producer runs [stop_runner] to its wait, the wait
    returns without a signal, and [stop_runner] returns, while the
    runner has not moved. At this return the queue holds what it held
    (it is not empty if it was not), [runner_must_stop] is still 1, and
    nothing has been freed or acknowledged. *)
Theorem stop_runner_returns_unflushed s :
  reachable s → rpc (st_runner s) = L201w → ppc (st_producer s) = P_idle →
  ∃ s', run_posix early_return_schedule s = Some s' ∧ reachable_posix s' ∧
        ppc (st_producer s') = S148 ∧ rpc (st_runner s') = L201w ∧
        runner_must_stop (st_world s') = 1 ∧
        heap (st_world s') = heap (st_world s) ∧
        bufs (st_world s') = bufs (st_world s) ∧
        first (st_world s') = first (st_world s) ∧
        last (st_world s') = last (st_world s) ∧
        trace (st_world s') =
          [EvStopReturn; EvUnlock Stop_guard Producer;
           EvWait Stop_acknowledged Producer; EvSignal Runner_awake Producer;
           EvUnlock Queue_guard Producer; EvMustStop 1;
           EvLock Queue_guard Producer; EvLock Stop_guard Producer] ++
          trace (st_world s).
Proof.
  intros Hr Hpc Hpp.
  destruct (waiting_sync s (sync_inv_reachable _ Hr) Hpc Hpp) as (Hqg & Hsg & Hsa & Hfl).
  assert (Hrun : ∃ s', run_posix early_return_schedule s = Some s' ∧
            ppc (st_producer s') = S148 ∧ rpc (st_runner s') = L201w ∧
            runner_must_stop (st_world s') = 1 ∧
            heap (st_world s') = heap (st_world s) ∧
            bufs (st_world s') = bufs (st_world s) ∧
            first (st_world s') = first (st_world s) ∧
            last (st_world s') = last (st_world s) ∧
            trace (st_world s') =
              [EvStopReturn; EvUnlock Stop_guard Producer;
               EvWait Stop_acknowledged Producer; EvSignal Runner_awake Producer;
               EvUnlock Queue_guard Producer; EvMustStop 1;
               EvLock Queue_guard Producer; EvLock Stop_guard Producer] ++
              trace (st_world s)).
  { clear Hr. destruct s as [w r p]. destruct r as [rl rt cur err].
    destruct p as [pl ent]. destruct w as [h b f la ms sr dv qg sg ra sa tr].
    simpl in *. subst. eexists. split; [lazy; reflexivity|done]. }
  destruct Hrun as (s' & Hrun & Hrest). exists s'. split; [done|]. split; [|done].
  eapply run_posix_reachable; [|exact Hrun]. by apply reachable_posix_of.
Qed.

Lemma stop_runner_returns_unflushed_witness :
  last (st_world entry_queued) = Some 1%positive ∧
  ∃ s', run_posix early_return_schedule entry_queued = Some s' ∧ reachable_posix s' ∧
        ppc (st_producer s') = S148 ∧ rpc (st_runner s') = L201w ∧
        runner_must_stop (st_world s') = 1 ∧
        heap (st_world s') = heap (st_world entry_queued) ∧
        bufs (st_world s') = bufs (st_world entry_queued) ∧
        first (st_world s') = first (st_world entry_queued) ∧
        last (st_world s') = last (st_world entry_queued) ∧
        trace (st_world s') =
          [EvStopReturn; EvUnlock Stop_guard Producer;
           EvWait Stop_acknowledged Producer; EvSignal Runner_awake Producer;
           EvUnlock Queue_guard Producer; EvMustStop 1;
           EvLock Queue_guard Producer; EvLock Stop_guard Producer] ++
          trace (st_world entry_queued).
Proof.
  split; [vm_compute; reflexivity|].
  apply (stop_runner_returns_unflushed entry_queued).
  - exact entry_queued_reachable.
  - vm_compute. reflexivity.
  - vm_compute. reflexivity.
Defined.
